(** * OD pair analysis: transfer-aware routing and trip classification

    A shallow embedding of [Code/calc_functions.py]:
    - [find_fastest_route] with its nested [dijkstra_weight] and
      [custom_fastest_path] (a label-setting search over a networkx
      [MultiGraph] that keeps one distance label per station together with
      the line used to reach it), followed by the route summary loop;
    - the trip classifier [get_path_type] and the endpoint remapping
      helpers [calculate_origin_station], [calculate_destination_station],
      [origin_station_if_none], [destination_station_if_none];
    - [max_count_directions];
    and of the parts of [Code/Main.py] that use them: [create_network],
    [get_directions] and the filter of the affected trips in [main].

    Stations and lines are strings; costs, penalties and times are
    integers ([Z]).  Python dictionaries are finite maps ([gmap]) when only
    their keys and values matter, and association lists when the iteration
    order of [.items()] is observable (the adjacency of the graph).
    Exceptions and the one loop of the source that may run forever are
    results of type [outcome]. *)

From Stdlib Require Import ZArith String List Lia.
From stdpp Require Import gmap strings list fin_maps sorting.

Local Open Scope Z_scope.

(** ** Results of Python computations *)

(** The exception classes the embedded code can raise. *)
Definition exn := string.
Definition KeyError : exn := "KeyError".
Definition IndexError : exn := "IndexError".
Definition NetworkXNoPath : exn := "NetworkXNoPath".

Inductive outcome (A : Type) : Type :=
| Ret (a : A)
| Raise (e : exn)
| OutOfFuel.
Arguments Ret {A} a.
Arguments Raise {A} e.
Arguments OutOfFuel {A}.

#[global] Instance outcome_ret : MRet outcome := fun A a => Ret a.
#[global] Instance outcome_bind : MBind outcome := fun A B f m =>
  match m with
  | Ret a => f a
  | Raise e => Raise e
  | OutOfFuel => OutOfFuel
  end.

(** A [for] loop whose body may raise. *)
Fixpoint for_each {A S : Type} (body : S -> A -> outcome S) (l : list A) (s : S)
  : outcome S :=
  match l with
  | [] => Ret s
  | x :: l' => s' ← body s x; for_each body l' s'
  end.

(** [d[k]] on a dictionary: [KeyError] when the key is missing. *)
Definition getitem {V : Type} (m : gmap string V) (k : string) : outcome V :=
  match m !! k with
  | Some v => Ret v
  | None => Raise KeyError
  end.

(** ** The graph model

    A networkx [MultiGraph] as the code reads it: [G.nodes()] is the key
    set of the adjacency, [G[u].items()] enumerates the neighbours of [u]
    in insertion order, and [G[u][v].items()] the parallel edges between
    [u] and [v], each with its key and attribute dictionary. *)

Record edge_attr := mk_edge {
  line : string;
  weight : Z;
  direction : string
}.

Abbreviation edge_key := nat.
Abbreviation edge_dict := (list (edge_key * edge_attr)).
Abbreviation adjacency := (list (string * edge_dict)).
Abbreviation MultiGraph := (gmap string adjacency).

Fixpoint dict_get {K V : Type} `{EqDecision K} (k : K) (l : list (K * V)) : option V :=
  match l with
  | [] => None
  | (k', v) :: l' => if decide (k = k') then Some v else dict_get k l'
  end.

(** [G[u][v]]: the dictionary of the parallel edges between [u] and [v]. *)
Definition get_edges (G : MultiGraph) (u v : string) : outcome edge_dict :=
  nbrs ← getitem G u;
  match dict_get v nbrs with
  | None => Raise KeyError
  | Some ed => Ret ed
  end.

(** [ed[key]], with a key that may be [None]. *)
Definition get_edge_data (ed : edge_dict) (key : option edge_key) : outcome edge_attr :=
  match key with
  | None => Raise KeyError
  | Some k =>
    match dict_get k ed with
    | None => Raise KeyError
    | Some e => Ret e
    end
  end.

(** Construction of a graph, as [create_network] in [Main.py] does it with
    [G.add_node] and [G.add_edge(u, v, line=, weight=, direction=)]: the
    edge is entered in the adjacency of both endpoints under a fresh key
    (the number of parallel edges already present). *)
Definition add_node (u : string) (G : MultiGraph) : MultiGraph :=
  match G !! u with
  | Some _ => G
  | None => <[u := []]> G
  end.

Fixpoint put_edge (v : string) (k : edge_key) (e : edge_attr) (nbrs : adjacency)
  : adjacency :=
  match nbrs with
  | [] => [(v, [(k, e)])]
  | (v', ed) :: nbrs' =>
    if decide (v = v') then (v', ed ++ [(k, e)]) :: nbrs'
    else (v', ed) :: put_edge v k e nbrs'
  end.

Definition new_edge_key (G : MultiGraph) (u v : string) : edge_key :=
  match G !! u with
  | None => 0%nat
  | Some nbrs => match dict_get v nbrs with
                 | None => 0%nat
                 | Some ed => length ed
                 end
  end.

Definition add_edge (u v : string) (e : edge_attr) (G : MultiGraph) : MultiGraph :=
  let G := add_node v (add_node u G) in
  let k := new_edge_key G u v in
  let G := alter (put_edge v k e) u G in
  if decide (u = v) then G else alter (put_edge u k e) v G.

(** ** The router *)

(** Distance labels: [float('infinity')] or a number. *)
Inductive dist := Infinity | Finite (d : Z).

(** [distance < distances[neighbor]] *)
Definition lt_dist (d : Z) (x : dist) : bool :=
  match x with
  | Infinity => true
  | Finite d' => bool_decide (d < d')
  end.

(** Truth value of [prev_line]: [None] and the empty string are false. *)
Definition truthy (l : option string) : bool :=
  match l with
  | None => false
  | Some s => bool_decide (s ≠ "")
  end.

(** Items of the priority queue: [(distance, node, previous_line)]. *)
Abbreviation entry := (Z * string * option string)%type.

Section Router.

Variable transfer_penalty : Z.

Definition dijkstra_weight (u v : string) (edge : edge_attr) (prev_line : option string)
  : Z :=
  let current_line := line edge in
  let base_weight := weight edge in
  let transfer_cost :=
    if truthy prev_line && bool_decide (Some current_line ≠ prev_line)
    then transfer_penalty else 0 in
  let bias_for_transfer :=
    if truthy prev_line && bool_decide (Some current_line ≠ prev_line)
    then 10 else 0 in
  base_weight + transfer_cost + bias_for_transfer.

(** Python's [<] on these tuples: the first differing component decides,
    strings being compared by character codes.  Two lines are only
    compared between items with the same distance and node, and [None]
    only occurs in the first item of the queue, which is popped while it
    is alone. *)
Definition line_ltb (a b : option string) : bool :=
  match a, b with
  | None, Some _ => true
  | Some x, Some y => String.ltb x y
  | _, None => false
  end.

Definition entry_ltb (a b : entry) : bool :=
  let '(d1, n1, l1) := a in
  let '(d2, n2, l2) := b in
  if bool_decide (d1 = d2)
  then if bool_decide (n1 = n2) then line_ltb l1 l2 else String.ltb n1 n2
  else bool_decide (d1 < d2).

(** [heapq] by its contract: the queue is kept as the sorted list of its
    items, [heappop] takes the smallest one. *)
Fixpoint heappush (h : list entry) (x : entry) : list entry :=
  match h with
  | [] => [x]
  | y :: h' => if entry_ltb x y then x :: y :: h' else y :: heappush h' x
  end.

Definition heappop (h : list entry) : option (entry * list entry) :=
  match h with
  | [] => None
  | x :: h' => Some (x, h')
  end.

Record search := mk_search {
  distances : gmap string dist;
  previous : gmap string (option string);
  previous_lines : gmap string (option string);
  previous_edge_keys : gmap string (option edge_key);
  visited : gset string;
  pq : list entry
}.

Definition set_pq (h : list entry) (st : search) : search :=
  mk_search (distances st) (previous st) (previous_lines st)
            (previous_edge_keys st) (visited st) h.

Definition visit (u : string) (st : search) : search :=
  mk_search (distances st) (previous st) (previous_lines st)
            (previous_edge_keys st) ({[u]} ∪ visited st) (pq st).

(** The body of the innermost loop: one parallel edge out of
    [current_node]. *)
Definition relax (current_node : string) (current_distance : Z)
    (prev_line : option string) (neighbor : string)
    (st : search) (item : edge_key * edge_attr) : outcome search :=
  let '(key, edge_data) := item in
  let w := dijkstra_weight current_node neighbor edge_data prev_line in
  let distance := current_distance + w in
  dn ← getitem (distances st) neighbor;
  if lt_dist distance dn then
    Ret (mk_search (<[neighbor := Finite distance]> (distances st))
                   (<[neighbor := Some current_node]> (previous st))
                   (<[neighbor := Some (line edge_data)]> (previous_lines st))
                   (<[neighbor := Some key]> (previous_edge_keys st))
                   (visited st)
                   (heappush (pq st) (distance, neighbor, Some (line edge_data))))
  else Ret st.

Definition relax_neighbor (current_node : string) (current_distance : Z)
    (prev_line : option string) (st : search) (item : string * edge_dict)
  : outcome search :=
  for_each (relax current_node current_distance prev_line item.1) item.2 st.

Definition relax_all (G : MultiGraph) (current_node : string)
    (current_distance : Z) (prev_line : option string) (st : search)
  : outcome search :=
  nbrs ← getitem G current_node;
  for_each (relax_neighbor current_node current_distance prev_line) nbrs st.

(** The [while pq:] loop.  Every iteration pops one item, and items are
    only pushed while a station is visited for the first time, so the loop
    always ends; [fuel] bounds the number of iterations, and the bound
    that [custom_fastest_path] passes is never reached
    ([search_loop_ends]). *)
Fixpoint search_loop (fuel : nat) (G : MultiGraph) (target : string) (st : search)
  : outcome search :=
  match fuel with
  | O => OutOfFuel
  | S fuel' =>
    match heappop (pq st) with
    | None => Ret st
    | Some ((current_distance, current_node, prev_line), h) =>
      let st := set_pq h st in
      if decide (current_node = target) then Ret st
      else if decide (current_node ∈ visited st) then search_loop fuel' G target st
      else
        st' ← relax_all G current_node current_distance prev_line
                 (visit current_node st);
        search_loop fuel' G target st'
    end
  end.

Definition degree (nbrs : adjacency) : nat :=
  sum_list ((fun item => length item.2) <$> nbrs).

Definition total_degree (G : MultiGraph) : nat :=
  sum_list ((fun item => degree item.2) <$> map_to_list G).

Definition init_search (G : MultiGraph) (source : string) : search :=
  mk_search (<[source := Finite 0]> ((fun _ => Infinity) <$> G))
            ((fun _ => None) <$> G)
            ((fun _ => None) <$> G)
            ((fun _ => None) <$> G)
            ∅
            [(0, source, None)].

(** Path reconstruction: the [while current is not None] loop, in the
    order in which it appends (the caller reverses both lists).  The loop
    reads [previous] at every station it meets, so a walk of more steps
    than [previous] has keys has entered a cycle and never ends
    ([walk_back_never_ends]): [OutOfFuel] stands for a loop of the source
    that does not terminate. *)
Fixpoint walk_back (fuel : nat) (prev : gmap string (option string))
    (keys : gmap string (option edge_key)) (current : option string)
  : outcome (list string * list (option edge_key)) :=
  match current with
  | None => Ret ([], [])
  | Some c =>
    match fuel with
    | O => OutOfFuel
    | S fuel' =>
      p ← getitem prev c;
      match p with
      | None => Ret ([c], [])
      | Some _ =>
        k ← getitem keys c;
        r ← walk_back fuel' prev keys p;
        Ret (c :: r.1, k :: r.2)
      end
    end
  end.

Definition custom_fastest_path (G : MultiGraph) (source target : string)
  : outcome (list string * gmap string (option string) * list (option edge_key)) :=
  st ← search_loop (2 + total_degree G) G target (init_search G source);
  dt ← getitem (distances st) target;
  match dt with
  | Infinity => Raise NetworkXNoPath
  | Finite _ =>
    r ← walk_back (S (size (previous st))) (previous st) (previous_edge_keys st)
          (Some target);
    Ret (rev r.1, previous_lines st, rev r.2)
  end.

End Router.

(** ** The route summary *)

Record segment := mk_segment {
  from_station : string;
  to_station : option string;
  seg_line : option string;
  time : Z
}.

Definition set_to_station (s : string) (g : segment) : segment :=
  mk_segment (from_station g) (Some s) (seg_line g) (time g).

Definition add_time (t : Z) (g : segment) : segment :=
  mk_segment (from_station g) (to_station g) (seg_line g) (time g + t).

(** [segments[-1][...] = ...]: update of the last dictionary of the list;
    the callers guard it with [if segments:]. *)
Fixpoint alter_last {A : Type} (f : A -> A) (l : list A) : list A :=
  match l with
  | [] => []
  | [x] => [f x]
  | x :: l' => x :: alter_last f l'
  end.

Record summary := mk_summary {
  s_lines_used : list (option string);
  s_current_line : option string;
  s_transfers : list string;
  s_total_time : Z;
  s_segments : list segment
}.

Definition init_summary : summary := mk_summary [] None [] 0 [].

Record route := mk_route {
  path : list string;
  lines_used : list (option string);
  transfers : list string;
  num_transfers : nat;
  total_stations : nat;
  total_time : Z;
  travel_time : Z;
  transfer_time : Z;
  segments : list segment
}.

Section Summary.

Variable G : MultiGraph.
Variable transfer_penalty : Z.
Variable line_changes : gmap string (option string).

(** The body of the loop after its look-ups: [u = path[i]], [lc] the line
    recorded for [path[i + 1]], [segment_time] the weight of the edge. *)
Definition next_summary (u : string) (lc : option string) (segment_time : Z)
    (s : summary) : summary :=
  let total := s_total_time s + segment_time in
  let s' :=
    if decide (lc ≠ s_current_line s) then
      let '(tr, total, segs) :=
        match s_current_line s with
        | Some _ =>
          (s_transfers s ++ [u], total + transfer_penalty,
           alter_last (set_to_station u) (s_segments s))
        | None => (s_transfers s, total, s_segments s)
        end in
      mk_summary (s_lines_used s ++ [lc]) lc tr total
                 (segs ++ [mk_segment u None lc 0])
    else
      mk_summary (s_lines_used s) (s_current_line s) (s_transfers s) total
                 (s_segments s) in
  mk_summary (s_lines_used s') (s_current_line s') (s_transfers s')
             (s_total_time s')
             (alter_last (add_time segment_time) (s_segments s')).

(** One iteration of [for i in range(len(path) - 1)], with [u = path[i]],
    [v = path[i + 1]] and [keys] the edge keys from index [i] on. *)
Definition summary_step (u v : string) (keys : list (option edge_key)) (s : summary)
  : outcome summary :=
  ed ← get_edges G u v;
  key ← match keys with [] => Raise IndexError | k :: _ => Ret k end;
  edge_data ← get_edge_data ed key;
  lc ← getitem line_changes v;
  Ret (next_summary u lc (weight edge_data) s).

Fixpoint summarize (path : list string) (keys : list (option edge_key)) (s : summary)
  : outcome summary :=
  match path with
  | u :: (v :: _) as rest =>
    s' ← summary_step u v keys s;
    summarize rest (tail keys) s'
  | _ => Ret s
  end.

Definition make_route (path : list string) (s : summary) : route :=
  let segs :=
    match last path with
    | Some t => alter_last (set_to_station t) (s_segments s)
    | None => s_segments s
    end in
  mk_route path (s_lines_used s) (s_transfers s)
           (length (s_transfers s)) (length path) (s_total_time s)
           (s_total_time s - Z.of_nat (length (s_transfers s)) * transfer_penalty)
           (Z.of_nat (length (s_transfers s)) * transfer_penalty)
           segs.

End Summary.

(** [try: ... except nx.NetworkXNoPath: return None] *)
Definition except_no_path {A : Type} (m : outcome A) : outcome (option A) :=
  match m with
  | Ret a => Ret (Some a)
  | Raise e => if decide (e = NetworkXNoPath) then Ret None else Raise e
  | OutOfFuel => OutOfFuel
  end.

Definition find_fastest_route (G : MultiGraph) (origin destination : string)
    (transfer_penalty : Z) : outcome (option route) :=
  except_no_path (
    r ← custom_fastest_path transfer_penalty G origin destination;
    let '(path, line_changes, edge_keys) := r in
    s ← summarize G transfer_penalty line_changes path edge_keys init_summary;
    Ret (make_route transfer_penalty path s)).

(** ** Example networks *)

Definition seg (l : string) (w : Z) : edge_attr := mk_edge l w "NotFound".

(** Stations A, B, C on Line 1 and C, D, E on Line 2, every hop of cost
    100. *)
Definition two_lines : MultiGraph :=
  add_edge "D" "E" (seg "Line 2" 100) (
  add_edge "C" "D" (seg "Line 2" 100) (
  add_edge "B" "C" (seg "Line 1" 100) (
  add_edge "A" "B" (seg "Line 1" 100) ∅))).

(** A network on which the single label per station loses the route
    without transfers once the penalty grows: with a low penalty Y is
    reached over Z on Line 4, so that X keeps its direct label on Line 1;
    with a high penalty Y is reached directly on Line 2, X takes its
    label from Y on Line 2, and the last hop to T changes line. *)
Definition hub_network : MultiGraph :=
  add_edge "X" "T" (seg "Line 1" 1) (
  add_edge "S" "X" (seg "Line 1" 26) (
  add_edge "Y" "X" (seg "Line 2" 5) (
  add_edge "S" "Y" (seg "Line 2" 20) (
  add_edge "Z" "Y" (seg "Line 4" 1) (
  add_edge "S" "Z" (seg "Line 3" 1) ∅))))).

(** A direct segment from A to B on Line 1 and a faster way over C that
    changes line. *)
Definition bypass_network : MultiGraph :=
  add_edge "C" "B" (seg "Line 3" 10) (
  add_edge "A" "C" (seg "Line 2" 10) (
  add_edge "A" "B" (seg "Line 1" 100) ∅)).

(** ** The trip classifier *)

Definition get_path_type (origin destination : string)
    (closed_stations path : list string) : option string :=
  if bool_decide (origin ∈ closed_stations)
     && bool_decide (destination ∉ closed_stations)
  then Some "Origin trip"
  else if bool_decide (origin ∉ closed_stations)
          && bool_decide (destination ∈ closed_stations)
  then Some "Destination trip"
  else if bool_decide (origin ∈ closed_stations)
          && bool_decide (destination ∈ closed_stations)
  then Some "Internal trip"
  else if existsb (fun station => bool_decide (station ∈ closed_stations)) path
  then Some "Passing trip"
  else None.

(** The loop shared by the two remapping functions:
    [for station in path: if station == ib: return ib
     elif station == ob: return ob]. *)
Fixpoint scan_boundary (ib_boubndary_station ob_boundary_station : string)
    (path : list string) : option string :=
  match path with
  | [] => None
  | station :: rest =>
    if decide (station = ib_boubndary_station) then Some ib_boubndary_station
    else if decide (station = ob_boundary_station) then Some ob_boundary_station
    else scan_boundary ib_boubndary_station ob_boundary_station rest
  end.

Definition calculate_origin_station (path_type : option string) (origin : string)
    (ib_boubndary_station ob_boundary_station : string) (path : list string)
  : option string :=
  if decide (path_type = Some "Origin trip") then Some origin
  else if decide (path_type = Some "Destination trip")
  then scan_boundary ib_boubndary_station ob_boundary_station path
  else if decide (path_type = Some "Internal trip") then Some origin
  else if decide (path_type = Some "Passing trip")
  then scan_boundary ib_boubndary_station ob_boundary_station path
  else None.

Definition calculate_destination_station (path_type : option string)
    (destination : string) (ib_boubndary_station ob_boundary_station : string)
    (path : list string) : option string :=
  if decide (path_type = Some "Destination trip") then Some destination
  else if decide (path_type = Some "Origin trip")
  then scan_boundary ib_boubndary_station ob_boundary_station (rev path)
  else if decide (path_type = Some "Internal trip") then Some destination
  else if decide (path_type = Some "Passing trip")
  then scan_boundary ib_boubndary_station ob_boundary_station (rev path)
  else None.

(** [for station in path: if station in closed_stations: return station] *)
Fixpoint scan_closed (closed_stations path : list string) : option string :=
  match path with
  | [] => None
  | station :: rest =>
    if decide (station ∈ closed_stations) then Some station
    else scan_closed closed_stations rest
  end.

Definition origin_station_if_none (new_origin : option string)
    (path closed_stations : list string) : option string :=
  match new_origin with
  | None =>
    match scan_closed closed_stations path with
    | Some station => Some station
    | None => new_origin
    end
  | Some _ => new_origin
  end.

Definition destination_station_if_none (new_destination : option string)
    (path closed_stations : list string) : option string :=
  match new_destination with
  | None =>
    match scan_closed closed_stations (rev path) with
    | Some station => Some station
    | None => new_destination
    end
  | Some _ => new_destination
  end.

(** ** Notions used in the statements *)

(** The first station of [path] that is one of the two boundary stations,
    and the first one that is closed. *)
Definition first_boundary (ib ob : string) (path : list string) : option string :=
  find (fun station => bool_decide (station = ib \/ station = ob)) path.

Definition first_closed (closed_stations path : list string) : option string :=
  find (fun station => bool_decide (station ∈ closed_stations)) path.

(** The attribute dictionaries of the edges a path traverses: hop [i] goes
    from [path[i]] to [path[i+1]] over the parallel edge [keys[i]]. *)
Fixpoint traversed (G : MultiGraph) (path : list string) (keys : list (option edge_key))
  : option (list edge_attr) :=
  match path, keys with
  | u :: (v :: _) as rest, Some k :: keys' =>
    nbrs ← G !! u;
    ed ← dict_get v nbrs;
    e ← dict_get k ed;
    es ← traversed G rest keys';
    Some (e :: es)
  | _ :: _ :: _, _ => None
  | _, _ => Some []
  end.

Definition sum_Z (l : list Z) : Z := foldr Z.add 0 l.

(** What the summary loop maintains once the first hop is processed:
    the open segment is the last one, all earlier ones are closed, there
    is one segment per line used and one more than transfers, and the
    segment times add up to the time without penalties. *)
Definition summary_ok (transfer_penalty : Z) (first : string) (s : summary) : Prop :=
  is_Some (s_current_line s) /\
  (exists segs g, s_segments s = segs ++ [g] /\
     Forall (fun g => is_Some (to_station g)) segs) /\
  from_station <$> head (s_segments s) = Some first /\
  length (s_segments s) = S (length (s_transfers s)) /\
  length (s_segments s) = length (s_lines_used s) /\
  sum_Z (time <$> s_segments s)
  = s_total_time s - Z.of_nat (length (s_transfers s)) * transfer_penalty.

(** Every station with a predecessor has the line of its incoming edge
    recorded. *)
Definition lines_recorded (st : search) : Prop :=
  forall v u, previous st !! v = Some (Some u) ->
    exists l, previous_lines st !! v = Some (Some l).

(** ** Well-formed networks and reachability *)

(** The invariants of a networkx graph that the router relies on: the
    adjacency of a station and each of its edge dictionaries are
    dictionaries (no key twice), and every neighbour is a node. *)
Definition wf_graph (G : MultiGraph) : Prop :=
  map_Forall (fun _ nbrs =>
    NoDup nbrs.*1 /\
    Forall (fun item => item.1 ∈ dom G /\ NoDup item.2.*1) nbrs) G.

(** Costs are not negative (section 3 of the data model). *)
Definition nonneg_weights (G : MultiGraph) : Prop :=
  map_Forall (fun _ nbrs =>
    Forall (fun item => Forall (fun ke => 0 <= weight ke.2) item.2) nbrs) G.

(** [v] is a neighbour of [u] over at least one segment. *)
Definition edge (G : MultiGraph) (u v : string) : Prop :=
  exists nbrs ed, G !! u = Some nbrs /\ (v, ed) ∈ nbrs /\ ed <> [].

Inductive reachable (G : MultiGraph) (u : string) : string -> Prop :=
| reach_refl : reachable G u u
| reach_step v w : reachable G u v -> edge G v w -> reachable G u w.

(** ** Invariants of the search *)

Definition finite_at (st : search) (v : string) : Prop :=
  exists d, distances st !! v = Some (Finite d).

(** What holds of the search state on every well-formed graph, whatever
    the weights: [C] is the set of visited stations whose edges have all
    been relaxed. *)
Record search_inv (G : MultiGraph) (source target : string) (C : gset string)
    (st : search) : Prop := mk_search_inv {
  inv_dom : dom (distances st) = dom G;
  inv_prev_dom : dom (previous st) = dom G;
  inv_keys_dom : dom (previous_edge_keys st) = dom G;
  inv_lines_dom : dom (previous_lines st) = dom G;
  inv_source : finite_at st source;
  inv_visited : visited st ⊆ dom G;
  inv_pq : forall d v l, (d, v, l) ∈ pq st -> v ∈ dom G /\ finite_at st v;
  inv_reach : forall v, finite_at st v -> reachable G source v;
  inv_front : forall v, finite_at st v -> v <> target ->
    v ∈ visited st \/ exists d l, (d, v, l) ∈ pq st;
  inv_closed : forall u v, u ∈ C -> edge G u v -> finite_at st v;
  inv_prev : forall v u, previous st !! v = Some (Some u) ->
    u ∈ visited st /\
    exists k nbrs ed e, previous_edge_keys st !! v = Some (Some k) /\
      G !! u = Some nbrs /\ dict_get v nbrs = Some ed /\ dict_get k ed = Some e /\
      previous_lines st !! v = Some (Some (line e));
  inv_fin_prev : forall v, finite_at st v -> v <> source ->
    exists u, previous st !! v = Some (Some u);
  inv_target : target ∉ visited st
}.

(** The work left: the items in the queue plus the edges out of the
    stations not visited yet. *)
Definition unvisited_degree (G : MultiGraph) (V : gset string) : nat :=
  sum_list ((fun item => if decide (item.1 ∈ V) then 0%nat else degree item.2)
              <$> map_to_list G).

Definition potential (G : MultiGraph) (st : search) : nat :=
  (length (pq st) + unvisited_degree G (visited st))%nat.

(** The order in which stations were visited, latest first: every one but
    the source has its predecessor among the earlier ones. *)
Fixpoint ordered (prev : gmap string (option string)) (source : string)
    (order : list string) : Prop :=
  match order with
  | [] => True
  | v :: rest =>
    (v = source \/ exists u, prev !! v = Some (Some u) /\ u ∈ rest) /\
    ordered prev source rest
  end.

(** What holds in addition when no cost is negative; [bound] is the
    distance of the item popped last. *)
Record search_tree (source : string) (bound : Z) (st : search) : Prop :=
  mk_search_tree {
  tree_sorted : StronglySorted (fun a b : entry => a.1.1 <= b.1.1) (pq st);
  tree_bound : forall d v l, (d, v, l) ∈ pq st -> bound <= d;
  tree_pq : forall d v l, (d, v, l) ∈ pq st ->
    exists dv, distances st !! v = Some (Finite dv) /\ dv <= d;
  tree_visited : forall v, v ∈ visited st ->
    exists dv, distances st !! v = Some (Finite dv) /\ dv <= bound;
  tree_source : distances st !! source = Some (Finite 0) /\
                previous st !! source = Some None /\ 0 <= bound;
  tree_order : exists order, (forall v, v ∈ order <-> v ∈ visited st) /\
                 NoDup order /\ ordered (previous st) source order
}.

(** The lists of [walk_back], read from the target backwards: each
    station is entered over an edge of the graph from the next one, and
    the line recorded for the station is the line of that edge. *)
Fixpoint back_linked (G : MultiGraph) (lines : gmap string (option string))
    (l : list string) (ks : list (option edge_key)) : Prop :=
  match l, ks with
  | [_], [] => True
  | c :: ((u :: _) as l'), Some k :: ks' =>
    (exists nbrs ed e,
       G !! u = Some nbrs /\ dict_get c nbrs = Some ed /\ dict_get k ed = Some e /\
       lines !! c = Some (Some (line e))) /\
    back_linked G lines l' ks'
  | _, _ => False
  end.

(** The lines recorded for the stations of a path agree with the edges
    over which the path enters them. *)
Definition lines_agree (lines : gmap string (option string)) (path : list string)
    (es : list edge_attr) : Prop :=
  Forall2 (fun v e => lines !! v = Some (Some (line e))) (tail path) es.

(** Checks by computation, for concrete networks. *)
#[global] Instance wf_graph_dec (G : MultiGraph) : Decision (wf_graph G).
Proof. unfold wf_graph. apply _. Defined.

#[global] Instance nonneg_weights_dec (G : MultiGraph) : Decision (nonneg_weights G).
Proof. unfold nonneg_weights. apply _. Defined.

Definition edgeb (G : MultiGraph) (u v : string) : bool :=
  match G !! u with
  | Some nbrs => match dict_get v nbrs with
                 | Some (_ :: _) => true
                 | _ => false
                 end
  | None => false
  end.

Fixpoint linked_path (G : MultiGraph) (l : list string) : bool :=
  match l with
  | u :: ((v :: _) as l') => edgeb G u v && linked_path G l'
  | _ => true
  end.

(** No segment leads to [v]. *)
Definition no_incoming (G : MultiGraph) (v : string) : Prop :=
  map_Forall (fun _ (nbrs : adjacency) => v ∉ nbrs.*1) G.

#[global] Instance no_incoming_dec (G : MultiGraph) (v : string) :
  Decision (no_incoming G v).
Proof. unfold no_incoming. apply _. Defined.

(** The network of two lines with a station F that has no segment. *)
Definition two_lines_and_F : MultiGraph := add_node "F" two_lines.

(** [walk_back] can take [n] steps from [c]: each of the [n] stations it
    meets has a predecessor and a key. *)
Fixpoint follows (prev : gmap string (option string))
    (keys : gmap string (option edge_key)) (n : nat) (c : string) : Prop :=
  match n with
  | O => True
  | S n' => exists u, prev !! c = Some (Some u) /\ is_Some (keys !! c) /\
                      follows prev keys n' u
  end.

(** The station [walk_back] is at after [n] steps from [c]. *)
Fixpoint station_at (prev : gmap string (option string)) (n : nat) (c : string)
  : option string :=
  match n with
  | O => Some c
  | S n' => match prev !! c with
            | Some (Some u) => station_at prev n' u
            | _ => None
            end
  end.

(** ** Routes and the penalty *)

(** A simple route from [o] to [d]: no station twice, every hop over an
    edge of the graph, one key per hop. *)
Definition simple_route (G : MultiGraph) (o d : string) (stations : list string)
    (keys : list (option edge_key)) : Prop :=
  NoDup stations /\ head stations = Some o /\ last stations = Some d /\
  length stations = S (length keys) /\ is_Some (traversed G stations keys).

Definition unique_route (G : MultiGraph) (o d : string) : Prop :=
  forall s1 k1 s2 k2,
    simple_route G o d s1 k1 -> simple_route G o d s2 k2 -> s1 = s2 /\ k1 = k2.

(** All simple routes from [u] to [d] that avoid the stations [seen], by
    depth-first enumeration. *)
Fixpoint simple_routes (fuel : nat) (G : MultiGraph) (seen : list string)
    (u d : string) : list (list string * list (option edge_key)) :=
  match fuel with
  | O => []
  | S fuel' =>
    (if decide (u = d) then [([u], [])] else []) ++
    match G !! u with
    | None => []
    | Some nbrs =>
      item ← nbrs;
      if decide (item.1 ∈ u :: seen) then []
      else
        ke ← item.2;
        (fun r => (u :: r.1, Some ke.1 :: r.2))
          <$> simple_routes fuel' G (u :: seen) item.1 d
    end
  end.

(** Monotonicity of the number of transfers in the penalty, for one
    query. *)
Definition transfers_monotone (G : MultiGraph) (origin destination : string) : Prop :=
  forall p1 p2 r1 r2, p1 <= p2 ->
    find_fastest_route G origin destination p1 = Ret (Some r1) ->
    find_fastest_route G origin destination p2 = Ret (Some r2) ->
    (num_transfers r2 <= num_transfers r1)%nat.

(** ** The tables and the helpers of [Main.py] *)

(** [x['path']] on a route that is [None] raises [TypeError]. *)
Definition TypeError : exn := "TypeError".

(** The rows of the travel-time table [tt_dist_matrix] that the code
    reads: the name of a pair of stations, "A - B", the duration of the
    hop and its direction. *)
Record tt_row := mk_tt_row {
  station_pair : string;
  duration_seconds : Z;
  Direction : string
}.

(** [f"{a} - {b}"] *)
Definition pair_of (a b : string) : string := a +:+ " - " +:+ b.

(** [tt_dist_matrix[tt_dist_matrix['station_pair'] == station_pair]] *)
Definition rows_of (tt_dist_matrix : list tt_row) (pair : string) : list tt_row :=
  filter (fun row => station_pair row = pair) tt_dist_matrix.

(** [rows['duration_seconds'].values[0] if not rows.empty else 300] and
    [rows['Direction'].values[0] if not rows.empty else "NotFound"] *)
Definition duration_of (tt_dist_matrix : list tt_row) (pair : string) : Z :=
  match rows_of tt_dist_matrix pair with
  | [] => 300
  | row :: _ => duration_seconds row
  end.

Definition direction_of (tt_dist_matrix : list tt_row) (pair : string) : string :=
  match rows_of tt_dist_matrix pair with
  | [] => "NotFound"
  | row :: _ => Direction row
  end.

(** [get_directions] of [Main.py]: one label per hop of the path; the
    table that the source loads is an argument here. *)
Fixpoint get_directions (tt_dist_matrix : list tt_row) (path : list string)
  : list string :=
  match path with
  | u :: (v :: _) as rest =>
    direction_of tt_dist_matrix (pair_of u v) :: get_directions tt_dist_matrix rest
  | _ => []
  end.

Definition max_count_directions (lst : list string) : string :=
  let count_Ib := count_occ string_dec lst "Inbound" in
  let count_Ob := count_occ string_dec lst "Outbound" in
  if decide (count_Ob < count_Ib)%nat then "Inbound"
  else if decide (count_Ib < count_Ob)%nat then "Outbound"
  else "Inbound".

(** The filter of the affected trips in [main]:
    [sum(station in x['path'] for station in selected_closed_stations) >= 2],
    where [x] is the result of [find_fastest_route].  The generator
    subscripts [x] once per closed station, so a route that is [None]
    raises [TypeError] as soon as one station is closed. *)
Definition affected_OD (x : option route) (selected_closed_stations : list string)
  : outcome bool :=
  hits ← for_each (fun (n : nat) (station : string) =>
                     match x with
                     | None => Raise TypeError
                     | Some r => Ret (if decide (station ∈ path r) then S n else n)
                     end) selected_closed_stations 0%nat;
  Ret (bool_decide (2 <= hits)%nat).

(** ** The construction of the network *)

(** The rows of the station table [stations_df] that the code reads: a
    stop and the line it is on (the coordinates only become the [pos]
    attribute of the node, which nothing reads). *)
Record station_row := mk_station_row {
  stop_name : string;
  Line_ID : string
}.

(** [stations_df.groupby('Line_ID')]: one group per line, in the sorted
    order of the lines, each with its rows in the order of the table. *)
Definition stations_group (stations_df : list station_row)
  : list (string * list station_row) :=
  (fun line_id => (line_id, filter (fun row => Line_ID row = line_id) stations_df))
    <$> merge_sort (fun a b : string => String.leb a b)
          (remove_dups (Line_ID <$> stations_df)).

(** [train_lines[line_id] = df['stop_name'].to_list()] *)
Definition train_lines (stations_df : list station_row) : list (string * list string) :=
  (fun group : string * list station_row => (group.1, stop_name <$> group.2))
    <$> stations_group stations_df.

(** [for i in range(len(stations) - 1)]: one edge per pair of stops that
    follow each other on the line. *)
Fixpoint add_line (tt_dist_matrix : list tt_row) (line : string)
    (stations : list string) (G : MultiGraph) : MultiGraph :=
  match stations with
  | u :: (v :: _) as rest =>
    let station_pair := pair_of u v in
    let duration := duration_of tt_dist_matrix station_pair in
    let direction_ := direction_of tt_dist_matrix station_pair in
    add_line tt_dist_matrix line rest (add_edge u v (mk_edge line duration direction_) G)
  | _ => G
  end.

(** [create_network] of [Main.py]; the two tables that the source loads
    are arguments here. *)
Definition create_network (stations_df : list station_row)
    (tt_dist_matrix : list tt_row) : MultiGraph :=
  let G := foldl (fun G station => add_node (stop_name station) G) ∅ stations_df in
  foldl (fun G item => add_line tt_dist_matrix item.1 item.2 G) G
        (train_lines stations_df).

(** The parallel edges between [u] and [v], none when [G[u][v]] does not
    exist. *)
Definition edges_between (G : MultiGraph) (u v : string) : edge_dict :=
  default [] (G !! u ≫= dict_get v).

(** What [add_node] and [add_edge] maintain: the graph is well formed,
    the edge dictionary of [u] and [v] is the one of [v] and [u], no edge
    dictionary is empty and the keys of each are 0, 1, 2, ... in this
    order. *)
Record nx_graph (G : MultiGraph) : Prop := mk_nx_graph {
  nx_wf : wf_graph G;
  nx_undirected : forall u v, edges_between G u v = edges_between G v u;
  nx_keys : forall u nbrs v ed, G !! u = Some nbrs -> (v, ed) ∈ nbrs ->
    ed <> [] /\ ed.*1 = seq 0 (length ed)
}.

(** The stops of a line in the order of the table, and two stops that
    follow each other in a list. *)
Definition line_stops (stations_df : list station_row) (line_id : string)
  : list string :=
  stop_name <$> filter (fun row => Line_ID row = line_id) stations_df.

Definition consecutive (u v : string) (l : list string) : Prop :=
  exists l1 l2, l = l1 ++ u :: v :: l2.

(** The attributes [create_network] gives the edge from [u] to [v] on
    [line]. *)
Definition line_edge (tt_dist_matrix : list tt_row) (line u v : string) : edge_attr :=
  mk_edge line (duration_of tt_dist_matrix (pair_of u v))
          (direction_of tt_dist_matrix (pair_of u v)).

(** Some parallel edge between [a] and [b] has the attributes [x]. *)
Definition has_edge (G : MultiGraph) (a b : string) (x : edge_attr) : Prop :=
  exists k, (k, x) ∈ edges_between G a b.

(** A small timetable: stops A, B, C on line L1 and C, D on line L2, with
    one row of the travel-time table. *)
Definition example_stations : list station_row :=
  [mk_station_row "A" "L1"; mk_station_row "C" "L2"; mk_station_row "B" "L1";
   mk_station_row "C" "L1"; mk_station_row "D" "L2"].

Definition example_tt : list tt_row := [mk_tt_row "A - B" 120 "Inbound"].

(** Every parallel edge of the graph, with its two ends, satisfies [P]. *)
Definition edges_all (P : string -> string -> edge_attr -> Prop) (G : MultiGraph)
  : Prop :=
  forall a nbrs b ed k x,
    G !! a = Some nbrs -> (b, ed) ∈ nbrs -> (k, x) ∈ ed -> P a b x.

(** Where the edges of the network come from: two stops that follow each
    other on the line of the edge, with the attributes of that pair. *)
Definition from_table (stations_df : list station_row) (tt_dist_matrix : list tt_row)
    (a b : string) (x : edge_attr) : Prop :=
  exists u v, ((a = u /\ b = v) \/ (a = v /\ b = u)) /\
    consecutive u v (line_stops stations_df (line x)) /\
    x = line_edge tt_dist_matrix (line x) u v.

(** ** Notions used in the statements on routes *)

(** The hops of a path: its pairs of consecutive stations. *)
Definition hops (stations : list string) : list (string * string) :=
  zip stations (tail stations).



(** The same with the line of the last edge before the path: what the
    summary loop appends from a state whose current line is [cur]. *)
Fixpoint changes_from (cur : option string) (stations : list string)
    (es : list edge_attr) : list string :=
  match stations, es with
  | u :: rest, e :: es' =>
    (if decide (Some (line e) ≠ cur)
     then match cur with Some _ => [u] | None => [] end
     else []) ++ changes_from (Some (line e)) rest es'
  | _, _ => []
  end.

Fixpoint runs_from (cur : option string) (es : list edge_attr) : list (option string) :=
  match es with
  | [] => []
  | e :: es' =>
    (if decide (Some (line e) ≠ cur) then [Some (line e)] else [])
    ++ runs_from (Some (line e)) es'
  end.

(** No entry of the list is followed by an equal one. *)
Definition no_repeat {A : Type} (l : list A) : Prop :=
  forall (i : nat) (a b : A), l !! i = Some a -> l !! S i = Some b -> a <> b.

(** What the summary loop maintains about the ends and the lines of the
    segments: every segment but the open one ends where the next one
    starts, at a transfer. *)
Definition summary_joints (first : string) (s : summary) : Prop :=
  exists segs g,
    s_segments s = segs ++ [g] /\
    from_station <$> (segs ++ [g]) = first :: s_transfers s /\
    to_station <$> segs = Some <$> s_transfers s /\
    to_station g = None /\
    seg_line <$> (segs ++ [g]) = s_lines_used s /\
    seg_line g = s_current_line s /\
    is_Some (s_current_line s) /\
    no_repeat (s_lines_used s).

(** ** Notions used in the statements on the labels of the search *)

(** The cost of a sequence of edges as the search counts it: each edge at
    its [dijkstra_weight], given the line of the edge before it. *)
Fixpoint label_cost (transfer_penalty : Z) (cur : option string) (es : list edge_attr)
  : Z :=
  match es with
  | [] => 0
  | e :: es' =>
    dijkstra_weight transfer_penalty "" "" e cur
    + label_cost transfer_penalty (Some (line e)) es'
  end.

(** The label of a station is the label of its predecessor plus the
    relaxation cost of the edge between them, counted with the line
    recorded for the predecessor. *)
Definition label_chain (transfer_penalty : Z) (G : MultiGraph) (st : search) : Prop :=
  forall v u, previous st !! v = Some (Some u) ->
    exists du lu k nbrs ed e,
      distances st !! u = Some (Finite du) /\ previous_lines st !! u = Some lu /\
      previous_edge_keys st !! v = Some (Some k) /\
      G !! u = Some nbrs /\ dict_get v nbrs = Some ed /\ dict_get k ed = Some e /\
      distances st !! v = Some (Finite (du + dijkstra_weight transfer_penalty u v e lu)).

(** No edge out of a station of [C] can improve a label. *)
Definition label_closed (transfer_penalty : Z) (G : MultiGraph) (C : gset string)
    (st : search) : Prop :=
  forall u nbrs v ed k e,
    u ∈ C -> G !! u = Some nbrs -> (v, ed) ∈ nbrs -> (k, e) ∈ ed ->
    exists du lu dv,
      distances st !! u = Some (Finite du) /\ previous_lines st !! u = Some lu /\
      distances st !! v = Some (Finite dv) /\
      dv <= du + dijkstra_weight transfer_penalty u v e lu.

(** What the search maintains about its labels when no cost is negative;
    the item of the queue that carries the label of a station carries its
    line, and every station with a label that is not visited has such an
    item. *)
Record search_labels (transfer_penalty : Z) (G : MultiGraph) (source : string)
    (C : gset string) (st : search) : Prop := mk_search_labels {
  lab_source : previous_lines st !! source = Some None;
  lab_pq : forall d v l, (d, v, l) ∈ pq st ->
    distances st !! v = Some (Finite d) -> previous_lines st !! v = Some l;
  lab_fresh : forall v dv, v ∉ visited st -> distances st !! v = Some (Finite dv) ->
    exists l, (dv, v, l) ∈ pq st;
  lab_chain : label_chain transfer_penalty G st;
  lab_closed : label_closed transfer_penalty G C st
}.

(** What holds of the labels when the search has ended: the label of the
    target is the least label of a station that is not visited. *)
Record final_labels (transfer_penalty : Z) (G : MultiGraph) (source target : string)
    (st : search) : Prop := mk_final_labels {
  fin_source : previous_lines st !! source = Some None;
  fin_chain : label_chain transfer_penalty G st;
  fin_closed : label_closed transfer_penalty G (visited st) st;
  fin_least : forall dt z dz,
    distances st !! target = Some (Finite dt) ->
    z ∉ visited st -> distances st !! z = Some (Finite dz) -> dt <= dz
}.

(** The label of [y] is at most [c], or some station that is not visited
    has a label that is at most [c]. *)
Definition label_within (st : search) (y : string) (c : Z) : Prop :=
  (exists dy, distances st !! y = Some (Finite dy) /\ dy <= c) \/
  (exists z dz, (z ∉ visited st) /\ distances st !! z = Some (Finite dz) /\ dz <= c).

(** A network with a single line: from A to C over B for 10, or directly
    for 25. *)
Definition one_line_network : MultiGraph :=
  add_edge "A" "C" (seg "Line 1" 25) (
  add_edge "B" "C" (seg "Line 1" 5) (
  add_edge "A" "B" (seg "Line 1" 5) ∅)).

(** * Proofs *)

(** ** Trip classification *)

Lemma get_path_type_passing (origin destination : string)
    (closed_stations path : list string) :
  get_path_type origin destination closed_stations path = Some "Passing trip" ->
  exists station, station ∈ path /\ station ∈ closed_stations.
Proof.
  unfold get_path_type. repeat (case_match; [discriminate|]).
  destruct (existsb _ path) eqn:E; [|discriminate]. intros _.
  apply existsb_exists in E as (x & Hx & Hc). exists x.
  split; [by apply list_elem_of_In|by apply bool_decide_eq_true in Hc].
Qed.

(** C8: the classifier answers "Origin trip" exactly when only the origin
    is closed, "Destination trip" exactly when only the destination is
    closed, "Internal trip" exactly when both are, "Passing trip" exactly
    when neither is but a station of the path is closed, and nothing
    exactly in the remaining case. *)
Theorem get_path_type_spec (origin destination : string)
    (closed_stations path : list string) :
  (get_path_type origin destination closed_stations path = Some "Origin trip"
     <-> origin ∈ closed_stations /\ (destination ∉ closed_stations)) /\
  (get_path_type origin destination closed_stations path = Some "Destination trip"
     <-> destination ∈ closed_stations /\ (origin ∉ closed_stations)) /\
  (get_path_type origin destination closed_stations path = Some "Internal trip"
     <-> origin ∈ closed_stations /\ destination ∈ closed_stations) /\
  (get_path_type origin destination closed_stations path = Some "Passing trip"
     <-> (origin ∉ closed_stations) /\ (destination ∉ closed_stations) /\
         exists station, station ∈ path /\ station ∈ closed_stations) /\
  (get_path_type origin destination closed_stations path = None
     <-> (origin ∉ closed_stations) /\ (destination ∉ closed_stations) /\
         forall station, station ∈ path -> station ∉ closed_stations).
Proof.
  unfold get_path_type.
  assert (Hex : existsb (fun station => bool_decide (station ∈ closed_stations)) path = true
                <-> exists station, station ∈ path /\ station ∈ closed_stations).
  { rewrite existsb_exists. split; intros (x & Hx & Hc); exists x.
    - apply list_elem_of_In in Hx. by apply bool_decide_eq_true in Hc.
    - split; [by apply list_elem_of_In | by apply bool_decide_eq_true]. }
  destruct (decide (origin ∈ closed_stations)) as [Ho | Ho];
    destruct (decide (destination ∈ closed_stations)) as [Hd | Hd];
    repeat first [ rewrite (bool_decide_eq_true_2 _ Ho)
                 | rewrite (bool_decide_eq_false_2 _ Ho)
                 | rewrite (bool_decide_eq_true_2 _ Hd)
                 | rewrite (bool_decide_eq_false_2 _ Hd)
                 | rewrite (bool_decide_eq_true_2 (origin ∉ closed_stations)) by done
                 | rewrite (bool_decide_eq_false_2 (origin ∉ closed_stations)) by tauto
                 | rewrite (bool_decide_eq_true_2 (destination ∉ closed_stations)) by done
                 | rewrite (bool_decide_eq_false_2 (destination ∉ closed_stations)) by tauto ];
    simpl; try (repeat split; intros; first [ discriminate | tauto | done ]).
  destruct (existsb _ path) eqn:E.
  - destruct (proj1 Hex eq_refl) as (x & Hx & Hc).
    repeat split; try first [ discriminate | tauto | done | by eauto ].
    intros (_ & _ & Hall). by destruct (Hall x Hx).
  - repeat split; try first [ discriminate | tauto | done ].
    + intros (_ & _ & Hsome). by apply Hex in Hsome.
    + intros x Hx Hc. assert (false = true) by (apply Hex; eauto). done.
Qed.

(** ** Endpoint remapping *)

Lemma scan_boundary_first (ib ob : string) (path : list string) :
  scan_boundary ib ob path = first_boundary ib ob path.
Proof.
  unfold first_boundary. induction path as [|s rest IH]; simpl; [done|].
  destruct (decide (s = ib)) as [->|Hib].
  - by rewrite bool_decide_eq_true_2 by auto.
  - destruct (decide (s = ob)) as [->|Hob].
    + by rewrite bool_decide_eq_true_2 by auto.
    + by rewrite bool_decide_eq_false_2 by (intros [?|?]; done).
Qed.

Lemma scan_closed_first (closed_stations path : list string) :
  scan_closed closed_stations path = first_closed closed_stations path.
Proof.
  unfold first_closed. induction path as [|s rest IH]; simpl; [done|].
  destruct (decide (s ∈ closed_stations)) as [Hc|Hc].
  - by rewrite bool_decide_eq_true_2.
  - by rewrite bool_decide_eq_false_2.
Qed.

Lemma first_closed_is_Some (closed_stations path : list string) (s : string) :
  s ∈ path -> s ∈ closed_stations -> is_Some (first_closed closed_stations path).
Proof.
  unfold first_closed. induction 1 as [s rest | s s' rest Hin IH]; intros Hc; simpl.
  - rewrite bool_decide_eq_true_2 by done. eauto.
  - destruct (bool_decide (s' ∈ closed_stations)); eauto.
Qed.

(** C9: for a trip classified as a passing trip, the remapped origin is
    the first boundary station met when the path is walked forward, and
    the remapped destination the first one met when it is walked
    backward; when no boundary station is on the path, they are the first
    closed station of the forward and of the backward walk, which exist. *)
Theorem passing_trip_remapping (origin destination ib ob : string)
    (closed_stations path : list string) :
  get_path_type origin destination closed_stations path = Some "Passing trip" ->
  let path_type := get_path_type origin destination closed_stations path in
  let new_origin :=
    origin_station_if_none
      (calculate_origin_station path_type origin ib ob path)
      path closed_stations in
  let new_destination :=
    destination_station_if_none
      (calculate_destination_station path_type destination ib ob path)
      path closed_stations in
  new_origin = match first_boundary ib ob path with
               | Some s => Some s
               | None => first_closed closed_stations path
               end /\
  new_destination = match first_boundary ib ob (rev path) with
                    | Some s => Some s
                    | None => first_closed closed_stations (rev path)
                    end /\
  is_Some new_origin /\ is_Some new_destination.
Proof.
  intros Hty. simpl. rewrite Hty.
  destruct (get_path_type_passing _ _ _ _ Hty) as (s & Hs & Hc).
  assert (Hf : is_Some (first_closed closed_stations path))
    by eauto using first_closed_is_Some.
  assert (Hb : is_Some (first_closed closed_stations (rev path))).
  { apply (first_closed_is_Some _ _ s); [|done].
    apply list_elem_of_In, in_rev. rewrite rev_involutive.
    by apply list_elem_of_In. }
  unfold calculate_origin_station, calculate_destination_station,
    origin_station_if_none, destination_station_if_none.
  repeat (case_decide; [discriminate|]).
  rewrite decide_True by done.
  rewrite !scan_boundary_first, !scan_closed_first.
  destruct Hf as [x ->], Hb as [y ->].
  destruct (first_boundary ib ob path), (first_boundary ib ob (rev path));
    repeat split; eauto.
Qed.

Lemma passing_trip_remapping_witness :
  get_path_type "A" "E" ["C"] ["A"; "B"; "C"; "D"; "E"] = Some "Passing trip" /\
  origin_station_if_none
    (calculate_origin_station (Some "Passing trip") "A" "B" "D"
       ["A"; "B"; "C"; "D"; "E"])
    ["A"; "B"; "C"; "D"; "E"] ["C"] = Some "B" /\
  destination_station_if_none
    (calculate_destination_station (Some "Passing trip") "E" "B" "D"
       ["A"; "B"; "C"; "D"; "E"])
    ["A"; "B"; "C"; "D"; "E"] ["C"] = Some "D".
Proof.
  split; [reflexivity|].
  destruct (passing_trip_remapping "A" "E" "B" "D" ["C"] ["A"; "B"; "C"; "D"; "E"]
              eq_refl) as (Ho & Hd & _).
  split; [exact Ho | exact Hd].
Defined.

(** ** Concrete scenarios *)

(** C5: on the network of two lines meeting in C, with penalty 50, the
    route from A to E is A, B, C, D, E with one transfer, 50 of transfer
    time, 400 of travel time and 450 in total. *)
Theorem two_lines_A_E :
  exists r, find_fastest_route two_lines "A" "E" 50 = Ret (Some r) /\
    path r = ["A"; "B"; "C"; "D"; "E"] /\
    num_transfers r = 1%nat /\
    transfer_time r = 50 /\
    travel_time r = 400 /\
    total_time r = 450.
Proof.
  eexists. split; [vm_compute; reflexivity|]. repeat split.
Qed.

(** ** Queries from a station to itself *)

Lemma custom_fastest_path_same (G : MultiGraph) (s : string) (transfer_penalty : Z) :
  s ∈ dom G ->
  custom_fastest_path transfer_penalty G s s
  = Ret ([s], (fun _ => None) <$> G, []).
Proof.
  intros [nbrs Hs]%elem_of_dom. unfold custom_fastest_path.
  cbn [search_loop Nat.add init_search heappop pq set_pq].
  rewrite decide_True by done.
  cbn [mbind outcome_bind]. unfold set_pq, init_search.
  cbn [distances previous previous_edge_keys previous_lines].
  unfold getitem at 1. rewrite lookup_insert_eq.
  cbn [mbind outcome_bind walk_back]. unfold getitem.
  by rewrite !lookup_fmap, Hs.
Qed.

(** C4: for a station [s] of the network, the route from [s] to [s] is
    the single station [s], with no transfers and every time equal to 0. *)
Theorem same_station_route (G : MultiGraph) (s : string) (transfer_penalty : Z) :
  s ∈ dom G ->
  exists r, find_fastest_route G s s transfer_penalty = Ret (Some r) /\
    path r = [s] /\ transfers r = [] /\ num_transfers r = 0%nat /\
    total_time r = 0 /\ travel_time r = 0 /\ transfer_time r = 0 /\
    lines_used r = [] /\ segments r = [] /\ total_stations r = 1%nat.
Proof.
  intros Hs. unfold find_fastest_route.
  rewrite custom_fastest_path_same by done. cbn.
  eexists. split; [reflexivity|]. by repeat split.
Qed.

Lemma same_station_route_witness :
  "C" ∈ dom two_lines /\
  exists r, find_fastest_route two_lines "C" "C" 900 = Ret (Some r) /\
    path r = ["C"] /\ transfers r = [] /\ num_transfers r = 0%nat /\
    total_time r = 0 /\ travel_time r = 0 /\ transfer_time r = 0 /\
    lines_used r = [] /\ segments r = [] /\ total_stations r = 1%nat.
Proof.
  assert (H : "C" ∈ dom two_lines) by compute_done.
  split; [exact H|]. exact (same_station_route two_lines "C" 900 H).
Defined.

(** ** The route summary *)

Lemma bind_Ret_inv {A B : Type} (m : outcome A) (f : A -> outcome B) (b : B) :
  m ≫= f = Ret b -> exists a, m = Ret a /\ f a = Ret b.
Proof. destruct m; cbn; intros H; try discriminate. eauto. Qed.

Lemma getitem_Ret {V : Type} (m : gmap string V) (k : string) (v : V) :
  getitem m k = Ret v <-> m !! k = Some v.
Proof. unfold getitem. destruct (m !! k); split; congruence. Qed.

Lemma alter_last_snoc {A : Type} (f : A -> A) (l : list A) (x : A) :
  alter_last f (l ++ [x]) = l ++ [f x].
Proof.
  induction l as [|y l IH]; [done|]. cbn [app alter_last]. rewrite IH.
  destruct l; done.
Qed.

Lemma sum_Z_app (l1 l2 : list Z) : sum_Z (l1 ++ l2) = sum_Z l1 + sum_Z l2.
Proof. unfold sum_Z. induction l1; cbn; lia. Qed.

Lemma head_snoc_from (segs : list segment) (g g' : segment) (rest : list segment) :
  from_station g' = from_station g ->
  from_station <$> head (segs ++ g' :: rest) = from_station <$> head (segs ++ [g]).
Proof. destruct segs; cbn; congruence. Qed.

Lemma traversed_cons (G : MultiGraph) (u v : string) (rest : list string)
    (k : edge_key) (keys : list (option edge_key)) (nbrs : adjacency)
    (ed : edge_dict) (e : edge_attr) (es : list edge_attr) :
  G !! u = Some nbrs -> dict_get v nbrs = Some ed -> dict_get k ed = Some e ->
  traversed G (v :: rest) keys = Some es ->
  traversed G (u :: v :: rest) (Some k :: keys) = Some (e :: es).
Proof.
  intros Hn Hed He Hes.
  change (traversed G (u :: v :: rest) (Some k :: keys))
    with (nbrs ← G !! u; ed ← dict_get v nbrs; e ← dict_get k ed;
          es ← traversed G (v :: rest) keys; Some (e :: es)).
  rewrite Hn. cbn [mbind option_bind]. rewrite Hed. cbn [mbind option_bind].
  rewrite He. cbn [mbind option_bind]. by rewrite Hes.
Qed.

Lemma traversed_cons_inv (G : MultiGraph) (u v : string) (rest : list string)
    (keys : list (option edge_key)) (es : list edge_attr) :
  traversed G (u :: v :: rest) keys = Some es ->
  exists k keys' nbrs ed e es',
    keys = Some k :: keys' /\ G !! u = Some nbrs /\ dict_get v nbrs = Some ed /\
    dict_get k ed = Some e /\ traversed G (v :: rest) keys' = Some es' /\
    es = e :: es'.
Proof.
  destruct keys as [|[k|] keys']; [done| |done]. intros H.
  change (traversed G (u :: v :: rest) (Some k :: keys'))
    with (nbrs ← G !! u; ed ← dict_get v nbrs; e ← dict_get k ed;
          es ← traversed G (v :: rest) keys'; Some (e :: es)) in H.
  destruct (G !! u) as [nbrs|] eqn:Hn; [|done]. cbn [mbind option_bind] in H.
  destruct (dict_get v nbrs) as [ed|] eqn:Hed; [|done]. cbn [mbind option_bind] in H.
  destruct (dict_get k ed) as [e|] eqn:He; [|done]. cbn [mbind option_bind] in H.
  destruct (traversed G (v :: rest) keys') as [es'|] eqn:Hes'; [|done].
  injection H as <-. by exists k, keys', nbrs, ed, e, es'.
Qed.

Section SummaryFacts.

Variable G : MultiGraph.
Variable transfer_penalty : Z.
Variable line_changes : gmap string (option string).

Lemma summarize_cons (u v : string) (rest : list string)
    (keys : list (option edge_key)) (s : summary) :
  summarize G transfer_penalty line_changes (u :: v :: rest) keys s
  = summary_step G transfer_penalty line_changes u v keys s
    ≫= summarize G transfer_penalty line_changes (v :: rest) (tail keys).
Proof. done. Qed.

Lemma summary_step_Ret (u v : string) (keys : list (option edge_key)) (s s' : summary) :
  summary_step G transfer_penalty line_changes u v keys s = Ret s' ->
  exists nbrs ed k keys' e lc,
    G !! u = Some nbrs /\ dict_get v nbrs = Some ed /\ keys = Some k :: keys' /\
    dict_get k ed = Some e /\ line_changes !! v = Some lc /\
    s' = next_summary transfer_penalty u lc (weight e) s.
Proof.
  unfold summary_step, get_edges, get_edge_data. intros H.
  apply bind_Ret_inv in H as (ed & H1 & H).
  apply bind_Ret_inv in H1 as (nbrs & Hn%getitem_Ret & H1).
  destruct (dict_get v nbrs) as [ed'|] eqn:Hed; [|discriminate].
  injection H1 as ->.
  apply bind_Ret_inv in H as (key & Hk & H).
  destruct keys as [|k0 keys']; [discriminate|]. injection Hk as ->.
  apply bind_Ret_inv in H as (e & He & H).
  destruct key as [k|]; [|discriminate].
  destruct (dict_get k ed) as [e'|] eqn:Hke; [|discriminate]. injection He as ->.
  apply bind_Ret_inv in H as (lc & Hlc%getitem_Ret & H).
  injection H as <-. by exists nbrs, ed, k, keys', e, lc.
Qed.

Lemma next_summary_time (u : string) (lc : option string) (w : Z) (s : summary) :
  s_total_time (next_summary transfer_penalty u lc w s)
  - Z.of_nat (length (s_transfers (next_summary transfer_penalty u lc w s)))
    * transfer_penalty
  = s_total_time s - Z.of_nat (length (s_transfers s)) * transfer_penalty + w.
Proof.
  unfold next_summary. destruct (decide (lc ≠ s_current_line s)); cbn; [|lia].
  destruct (s_current_line s); cbn; [|lia].
  rewrite length_app. cbn. lia.
Qed.

Lemma summarize_time (path : list string) :
  forall (keys : list (option edge_key)) (s s' : summary),
  summarize G transfer_penalty line_changes path keys s = Ret s' ->
  exists es, traversed G path keys = Some es /\
    s_total_time s' - Z.of_nat (length (s_transfers s')) * transfer_penalty
    = s_total_time s - Z.of_nat (length (s_transfers s)) * transfer_penalty
      + sum_Z (weight <$> es).
Proof.
  induction path as [|u [|v rest] IH]; intros keys s s' H.
  - injection H as <-. exists []. split; [done|]. cbn. lia.
  - injection H as <-. exists []. split; [done|]. cbn. lia.
  - rewrite summarize_cons in H. apply bind_Ret_inv in H as (s1 & Hstep & H).
    apply summary_step_Ret in Hstep
      as (nbrs & ed & k & keys' & e & lc & Hn & Hed & -> & He & Hlc & ->).
    cbn [tail] in H. apply IH in H as (es & Hes & Htime).
    exists (e :: es). split.
    + by rewrite (traversed_cons G u v rest k keys' nbrs ed e es).
    + rewrite Htime, next_summary_time. rewrite fmap_cons.
      change (sum_Z (weight e :: (weight <$> es)))
        with (weight e + sum_Z (weight <$> es)). lia.
Qed.

Lemma next_summary_first (u : string) (l : string) (w : Z) :
  summary_ok transfer_penalty u
    (next_summary transfer_penalty u (Some l) w init_summary).
Proof.
  unfold next_summary, summary_ok. cbn.
  repeat split; eauto. exists [], (mk_segment u None (Some l) (0 + w)). by split.
Qed.

Lemma next_summary_ok (first u : string) (l : string) (w : Z) (s : summary) :
  summary_ok transfer_penalty first s ->
  summary_ok transfer_penalty first (next_summary transfer_penalty u (Some l) w s).
Proof.
  intros ([c Hc] & (segs & g & Hsegs & Hclosed) & Hhead & Hlen & Hlines & Hsum).
  pose proof (next_summary_time u (Some l) w s) as Htime.
  unfold summary_ok. rewrite Htime. clear Htime.
  unfold next_summary. rewrite Hc, Hsegs in *.
  destruct (decide (Some l ≠ Some c)) as [Hne|Heq]; cbn.
  - rewrite !alter_last_snoc.
    split; [eauto|]. split; [|split; [|split; [|split]]].
    + eexists _, _. split; [done|]. apply Forall_app. split; [done|].
      apply Forall_singleton. cbn. eauto.
    + rewrite <- app_assoc. cbn [app]. rewrite <- Hhead.
      by apply head_snoc_from.
    + rewrite !length_app in *. cbn in *. lia.
    + rewrite !length_app in *. cbn in *. lia.
    + rewrite !fmap_app, !sum_Z_app in *. cbn in *. lia.
  - rewrite alter_last_snoc.
    split; [eauto|]. split; [|split; [|split; [|split]]].
    + eexists _, _. split; done.
    + rewrite <- Hhead. by apply head_snoc_from.
    + rewrite !length_app in *. cbn in *. lia.
    + rewrite !length_app in *. cbn in *. lia.
    + rewrite !fmap_app, !sum_Z_app in *. cbn in *. lia.
Qed.

Lemma summarize_ok (first : string) (path : list string) :
  forall (keys : list (option edge_key)) (s s' : summary),
  Forall (fun v => exists l, line_changes !! v = Some (Some l)) (tail path) ->
  summary_ok transfer_penalty first s ->
  summarize G transfer_penalty line_changes path keys s = Ret s' ->
  summary_ok transfer_penalty first s'.
Proof.
  induction path as [|u [|v rest] IH]; intros keys s s' Hl Hok H.
  - by injection H as <-.
  - by injection H as <-.
  - rewrite summarize_cons in H. apply bind_Ret_inv in H as (s1 & Hstep & H).
    apply summary_step_Ret in Hstep
      as (nbrs & ed & k & keys' & e & lc & Hn & Hed & -> & He & Hlc & ->).
    cbn [tail] in Hl. apply Forall_cons in Hl as [[l Hv] Hl].
    rewrite Hlc in Hv. injection Hv as ->.
    eapply IH; [exact Hl| |exact H]. by apply next_summary_ok.
Qed.

Lemma summarize_first (u v : string) (rest : list string)
    (keys : list (option edge_key)) (s' : summary) :
  Forall (fun v => exists l, line_changes !! v = Some (Some l)) (v :: rest) ->
  summarize G transfer_penalty line_changes (u :: v :: rest) keys init_summary = Ret s' ->
  summary_ok transfer_penalty u s'.
Proof.
  intros Hl H. rewrite summarize_cons in H. apply bind_Ret_inv in H as (s1 & Hstep & H).
  apply summary_step_Ret in Hstep
    as (nbrs & ed & k & keys' & e & lc & Hn & Hed & -> & He & Hlc & ->).
  apply Forall_cons in Hl as [[l Hv] Hl].
  rewrite Hlc in Hv. injection Hv as ->.
  eapply (summarize_ok u (v :: rest)); [exact Hl| |exact H].
  apply next_summary_first.
Qed.

End SummaryFacts.

(** ** The router: facts that hold on every graph *)

Lemma for_each_preserves {A S : Type} (P : S -> Prop) (body : S -> A -> outcome S)
    (l : list A) :
  (forall s x s', P s -> x ∈ l -> body s x = Ret s' -> P s') ->
  forall s s', P s -> for_each body l s = Ret s' -> P s'.
Proof.
  induction l as [|x l IH]; intros Hbody s s' Hs H; cbn in H.
  - by injection H as <-.
  - apply bind_Ret_inv in H as (s1 & H1 & H).
    eapply IH; [|eapply Hbody; [exact Hs| |exact H1]|exact H].
    + intros ??? ? ?. apply Hbody; [done|by right].
    + by left.
Qed.

Section SearchFacts.

Variable transfer_penalty : Z.
Variable G : MultiGraph.
Variable target : string.

Lemma relax_Ret (u : string) (d : Z) (l : option string) (v : string)
    (st st' : search) (k : edge_key) (e : edge_attr) :
  relax transfer_penalty u d l v st (k, e) = Ret st' ->
  exists dv, distances st !! v = Some dv /\
    let distance := d + dijkstra_weight transfer_penalty u v e l in
    (lt_dist distance dv = false /\ st' = st) \/
    (lt_dist distance dv = true /\
     st' = mk_search (<[v := Finite distance]> (distances st))
                     (<[v := Some u]> (previous st))
                     (<[v := Some (line e)]> (previous_lines st))
                     (<[v := Some k]> (previous_edge_keys st))
                     (visited st)
                     (heappush (pq st) (distance, v, Some (line e)))).
Proof.
  unfold relax. intros H. apply bind_Ret_inv in H as (dv & Hdv%getitem_Ret & H).
  exists dv. split; [done|]. cbn zeta.
  destruct (lt_dist _ dv); injection H as <-; [right|left]; done.
Qed.

Lemma search_loop_preserves (P : search -> Prop) :
  (forall st h, P st -> P (set_pq h st)) ->
  (forall st u, P st -> P (visit u st)) ->
  (forall u d l v st item st',
     P st -> relax transfer_penalty u d l v st item = Ret st' -> P st') ->
  forall fuel st st',
    P st -> search_loop transfer_penalty fuel G target st = Ret st' -> P st'.
Proof.
  intros Hpq Hvisit Hrelax. induction fuel as [|fuel IH]; intros st st' Hst H.
  - discriminate.
  - cbn [search_loop] in H. destruct (heappop (pq st)) as [[[[d u] l] h]|] eqn:Hpop.
    + destruct (decide (u = target)); [injection H as <-; by apply Hpq|].
      destruct (decide (u ∈ visited (set_pq h st))).
      * eapply IH; [|exact H]. by apply Hpq.
      * apply bind_Ret_inv in H as (st1 & H1 & H). eapply IH; [|exact H].
        unfold relax_all in H1. apply bind_Ret_inv in H1 as (nbrs & _ & H1).
        eapply for_each_preserves; [|apply Hvisit, Hpq, Hst|exact H1].
        intros s [v ed] s' Hs _ Hn. unfold relax_neighbor in Hn.
        eapply for_each_preserves; [|exact Hs|exact Hn].
        intros ? ? ? ? _ ?. by eapply Hrelax.
    + by injection H as <-.
Qed.

Lemma init_lines_recorded (source : string) : lines_recorded (init_search G source).
Proof.
  intros v u. cbn. rewrite lookup_fmap. destruct (G !! v); cbn; congruence.
Qed.

Lemma search_loop_lines_recorded (fuel : nat) (st st' : search) :
  lines_recorded st ->
  search_loop transfer_penalty fuel G target st = Ret st' ->
  lines_recorded st'.
Proof.
  apply search_loop_preserves with (P := lines_recorded).
  - done.
  - done.
  - intros u d l v st0 [k e] st1 Hst Hr.
    apply relax_Ret in Hr as (dv & _ & [[_ ->]|[_ ->]]); [done|].
    intros x y. cbn. destruct (decide (v = x)) as [->|Hne].
    + rewrite !lookup_insert_eq. eauto.
    + rewrite !lookup_insert_ne by done. apply Hst.
Qed.

End SearchFacts.

Lemma rev_reverse {A : Type} (l : list A) : rev l = reverse l.
Proof. apply rev_alt. Qed.

Lemma walk_back_shape (prev : gmap string (option string))
    (keys : gmap string (option edge_key)) (fuel : nat) :
  forall (c : string) (l : list string) (ks : list (option edge_key)),
  walk_back fuel prev keys (Some c) = Ret (l, ks) ->
  head l = Some c /\
  exists l' x, l = l' ++ [x] /\
    Forall (fun v => exists u, prev !! v = Some (Some u)) l'.
Proof.
  induction fuel as [|fuel IH]; intros c l ks H; [discriminate|].
  cbn [walk_back] in H. apply bind_Ret_inv in H as (p & Hp%getitem_Ret & H).
  destruct p as [u|].
  - apply bind_Ret_inv in H as (k & _ & H).
    apply bind_Ret_inv in H as ([l1 ks1] & Hw & H). injection H as <- <-.
    apply IH in Hw as (_ & l' & x & -> & Hall). split; [done|].
    exists (c :: l'), x. split; [done|]. apply Forall_cons. eauto.
  - injection H as <- <-. split; [done|]. exists [], c. by split.
Qed.

(** The path the router returns is not empty and ends in the target, and
    for each of its stations but the first the line of the incoming edge
    is known. *)
Lemma custom_fastest_path_shape (transfer_penalty : Z) (G : MultiGraph)
    (source target : string) (path : list string)
    (line_changes : gmap string (option string)) (keys : list (option edge_key)) :
  custom_fastest_path transfer_penalty G source target = Ret (path, line_changes, keys) ->
  last path = Some target /\
  exists first rest, path = first :: rest /\
    Forall (fun v => exists l, line_changes !! v = Some (Some l)) rest.
Proof.
  unfold custom_fastest_path. intros H.
  apply bind_Ret_inv in H as (st & Hloop & H).
  apply bind_Ret_inv in H as (dt & _ & H).
  destruct dt; [discriminate|].
  apply bind_Ret_inv in H as ([l ks] & Hw & H). injection H as <- <- <-.
  apply search_loop_lines_recorded in Hloop; [|apply init_lines_recorded].
  apply walk_back_shape in Hw as (Hhead & l' & x & -> & Hall). cbn [fst].
  split.
  - rewrite rev_reverse, last_reverse. exact Hhead.
  - exists x, (rev l'). rewrite rev_app_distr. split; [done|].
    apply Forall_rev. eapply Forall_impl; [exact Hall|].
    intros v [u Hu]. by apply (Hloop v u).
Qed.

(** ** Queue, loops and the work left *)

Lemma elem_of_heappush (h : list entry) (x y : entry) :
  y ∈ heappush h x <-> y = x \/ y ∈ h.
Proof.
  induction h as [|z h IH]; cbn.
  - rewrite list_elem_of_singleton, elem_of_nil. tauto.
  - destruct (entry_ltb x z).
    + rewrite !elem_of_cons. tauto.
    + rewrite !elem_of_cons, IH. tauto.
Qed.

Lemma length_heappush (h : list entry) (x : entry) :
  length (heappush h x) = S (length h).
Proof. induction h as [|z h IH]; cbn; [done|]. destruct (entry_ltb x z); cbn; lia. Qed.

Lemma entry_ltb_le (x y : entry) : entry_ltb x y = true -> x.1.1 <= y.1.1.
Proof.
  destruct x as [[d1 n1] l1], y as [[d2 n2] l2]. cbn.
  case_bool_decide; [lia|]. intros ?%bool_decide_eq_true. lia.
Qed.

Lemma entry_ltb_ge (x y : entry) : entry_ltb x y = false -> y.1.1 <= x.1.1.
Proof.
  destruct x as [[d1 n1] l1], y as [[d2 n2] l2]. cbn.
  case_bool_decide; [lia|]. intros ?%bool_decide_eq_false. lia.
Qed.

Lemma heappush_sorted (h : list entry) (x : entry) :
  StronglySorted (fun a b : entry => a.1.1 <= b.1.1) h ->
  StronglySorted (fun a b : entry => a.1.1 <= b.1.1) (heappush h x).
Proof.
  induction 1 as [|z h Hs IH Hall]; cbn.
  - repeat constructor.
  - destruct (entry_ltb x z) eqn:E.
    + apply entry_ltb_le in E. constructor; [by constructor|].
      constructor; [done|]. eapply Forall_impl; [exact Hall|]. cbn. intros; lia.
    + apply entry_ltb_ge in E. constructor; [done|].
      apply Forall_forall. intros y [->|Hy]%elem_of_heappush; [done|].
      by eapply Forall_forall in Hall.
Qed.

Lemma for_each_total {A S : Type} (J : S -> Prop) (body : S -> A -> outcome S)
    (l : list A) :
  (forall s x, J s -> x ∈ l -> exists s', body s x = Ret s' /\ J s') ->
  forall s, J s -> exists s', for_each body l s = Ret s' /\ J s'.
Proof.
  induction l as [|x l IH]; intros Hbody s Hs; cbn.
  - eauto.
  - destruct (Hbody s x Hs) as (s1 & -> & Hs1); [by left|]. cbn.
    apply IH; [|done]. intros ????. apply Hbody; [done|by right].
Qed.

Lemma for_each_establish {A S : Type} (Q : A -> S -> Prop)
    (body : S -> A -> outcome S) (l : list A) :
  (forall s x s', body s x = Ret s' -> Q x s') ->
  (forall s x y s', Q y s -> body s x = Ret s' -> Q y s') ->
  forall s s', for_each body l s = Ret s' -> forall x, x ∈ l -> Q x s'.
Proof.
  intros Hest Hkeep. induction l as [|y l IH]; intros s s' H x Hx.
  - by apply elem_of_nil in Hx.
  - cbn in H. apply bind_Ret_inv in H as (s1 & H1 & H).
    apply elem_of_cons in Hx as [->|Hx]; [|by eapply IH].
    eapply (for_each_preserves (Q y)); [|eapply Hest, H1|exact H].
    intros ???? _ ?. by eapply Hkeep.
Qed.

Lemma for_each_measure {A S : Type} (mu : S -> nat) (c : A -> nat)
    (body : S -> A -> outcome S) (l : list A) :
  (forall s x s', body s x = Ret s' -> (mu s' <= mu s + c x)%nat) ->
  forall s s', for_each body l s = Ret s' ->
    (mu s' <= mu s + sum_list (c <$> l))%nat.
Proof.
  intros Hstep. induction l as [|y l IH]; intros s s' H; cbn in *.
  - injection H as <-. lia.
  - apply bind_Ret_inv in H as (s1 & H1 & H).
    apply Hstep in H1. apply IH in H.
    change (sum_list (c <$> y :: l)) with (c y + sum_list (c <$> l))%nat. lia.
Qed.

Lemma unvisited_degree_absent (l : list (string * adjacency)) (V : gset string)
    (u : string) :
  u ∉ l.*1 ->
  sum_list ((fun item => if decide (item.1 ∈ {[u]} ∪ V) then 0 else degree item.2)
               <$> l)%nat
  = sum_list ((fun item => if decide (item.1 ∈ V) then 0 else degree item.2)
               <$> l)%nat.
Proof.
  intros Hu. f_equal. apply list_fmap_ext. intros i [x a] Hx. cbn [fst snd].
  assert (x <> u).
  { intros ->. apply Hu. apply list_elem_of_fmap. exists (u, a).
    split; [done|]. by eapply list_elem_of_lookup_2. }
  destruct (decide (x ∈ V)).
  - by rewrite decide_True by (apply elem_of_union; by right).
  - by rewrite decide_False
      by (intros [?%elem_of_singleton|?]%elem_of_union; done).
Qed.

Lemma unvisited_degree_list (l : list (string * adjacency)) (V : gset string)
    (u : string) (nbrs : adjacency) :
  NoDup l.*1 -> (u, nbrs) ∈ l -> u ∉ V ->
  (sum_list ((fun item => if decide (item.1 ∈ {[u]} ∪ V) then 0 else degree item.2)
               <$> l) + degree nbrs
   = sum_list ((fun item => if decide (item.1 ∈ V) then 0 else degree item.2)
               <$> l))%nat.
Proof.
  intros Hnd Hin Hu. induction l as [|[x a] l IH]; [by apply elem_of_nil in Hin|].
  rewrite fmap_cons in Hnd. apply NoDup_cons in Hnd as [Hx Hnd].
  rewrite !fmap_cons. cbn [sum_list sum_list_with fst snd].
  apply elem_of_cons in Hin as [Heq|Hin].
  - injection Heq as <- <-.
    rewrite decide_True by (apply elem_of_union; left; by apply elem_of_singleton).
    rewrite decide_False by done.
    rewrite (unvisited_degree_absent l V u Hx). unfold id. lia.
  - specialize (IH Hnd Hin).
    assert (x <> u).
    { intros ->. apply Hx. apply list_elem_of_fmap. by exists (u, nbrs). }
    destruct (decide (x ∈ V)).
    + rewrite decide_True by (apply elem_of_union; by right).
      unfold id in *. lia.
    + rewrite decide_False
        by (intros [?%elem_of_singleton|?]%elem_of_union; done).
      unfold id in *. lia.
Qed.

Lemma unvisited_degree_visit (G : MultiGraph) (V : gset string) (u : string)
    (nbrs : adjacency) :
  G !! u = Some nbrs -> u ∉ V ->
  (unvisited_degree G ({[u]} ∪ V) + degree nbrs = unvisited_degree G V)%nat.
Proof.
  intros Hu HV. unfold unvisited_degree.
  apply unvisited_degree_list; [apply NoDup_fst_map_to_list| |done].
  by apply elem_of_map_to_list.
Qed.

Lemma unvisited_degree_empty (G : MultiGraph) :
  unvisited_degree G ∅ = total_degree G.
Proof.
  reflexivity.
Qed.

Lemma dict_get_elem {K V : Type} `{EqDecision K} (l : list (K * V)) (k : K) (v : V) :
  NoDup l.*1 -> (k, v) ∈ l -> dict_get k l = Some v.
Proof.
  induction l as [|[k' v'] l IH]; intros Hnd Hin; [by apply elem_of_nil in Hin|].
  rewrite fmap_cons in Hnd. apply NoDup_cons in Hnd as [Hk Hnd]. cbn.
  apply elem_of_cons in Hin as [Heq|Hin].
  - injection Heq as <- <-. by rewrite decide_True.
  - rewrite decide_False; [by apply IH|].
    intros <-. apply Hk. apply list_elem_of_fmap. by exists (k, v).
Qed.

Lemma wf_graph_neighbor (G : MultiGraph) (u v : string) (nbrs : adjacency)
    (ed : edge_dict) :
  wf_graph G -> G !! u = Some nbrs -> (v, ed) ∈ nbrs ->
  v ∈ dom G /\ dict_get v nbrs = Some ed /\ NoDup ed.*1.
Proof.
  intros Hwf Hu Hv. destruct (Hwf u nbrs Hu) as [Hnd Hall].
  eapply Forall_forall in Hall as [Hdom Hed]; [|exact Hv].
  split; [done|]. split; [by apply dict_get_elem|done].
Qed.

(** ** The router on well-formed networks *)

Section RelaxInv.

Variable transfer_penalty : Z.
Variable G : MultiGraph.
Variables source target : string.
Hypothesis Hwf : wf_graph G.

Lemma relax_inv (C : gset string) (u : string) (d : Z) (l : option string)
    (nbrs : adjacency) (v : string) (ed : edge_dict) (k : edge_key) (e : edge_attr)
    (st : search) :
  G !! u = Some nbrs -> (v, ed) ∈ nbrs -> (k, e) ∈ ed ->
  u ∈ visited st -> reachable G source u ->
  search_inv G source target C st ->
  exists st', relax transfer_penalty u d l v st (k, e) = Ret st' /\
    search_inv G source target C st' /\ visited st' = visited st /\
    finite_at st' v.
Proof.
  intros Hu Hv Hk Huv Hreach Hinv.
  destruct (wf_graph_neighbor G u v nbrs ed Hwf Hu Hv) as (Hvdom & Hassoc & Hnd).
  assert (Hdv : is_Some (distances st !! v)).
  { apply elem_of_dom. by rewrite (inv_dom _ _ _ _ _ Hinv). }
  destruct Hdv as [dv Hdv].
  unfold relax, getitem. rewrite Hdv. cbn [mbind outcome_bind].
  set (distance := d + dijkstra_weight transfer_penalty u v e l).
  destruct (lt_dist distance dv) eqn:Hlt.
  2:{ eexists. split; [done|]. split; [done|]. split; [done|].
      destruct dv as [|dv]; [discriminate|]. by exists dv. }
  eexists. split; [done|].
  assert (Hmono : forall x, finite_at st x ->
            exists dx, <[v := Finite distance]> (distances st) !! x = Some (Finite dx)).
  { intros x [dx Hx]. destruct (decide (v = x)) as [->|Hne].
    - rewrite lookup_insert_eq. eauto.
    - rewrite lookup_insert_ne by done. eauto. }
  assert (Hback : forall x dx,
            <[v := Finite distance]> (distances st) !! x = Some (Finite dx) ->
            x = v \/ finite_at st x).
  { intros x dx Hx. destruct (decide (v = x)) as [->|Hne]; [by left|].
    rewrite lookup_insert_ne in Hx by done. right. by exists dx. }
  split; [|split; [done|]].
  2:{ exists distance. cbn. by rewrite lookup_insert_eq. }
  destruct Hinv as [Hd Hp Hkd Hld Hsrc Hvis Hpq Hre Hfr Hcl Hprev Hfin Htgt].
  split; cbn [distances previous previous_lines previous_edge_keys visited pq].
  - rewrite dom_insert_L, Hd. by apply subseteq_union_1_L, singleton_subseteq_l.
  - rewrite dom_insert_L, Hp. by apply subseteq_union_1_L, singleton_subseteq_l.
  - rewrite dom_insert_L, Hkd. by apply subseteq_union_1_L, singleton_subseteq_l.
  - rewrite dom_insert_L, Hld. by apply subseteq_union_1_L, singleton_subseteq_l.
  - by apply Hmono.
  - done.
  - intros d' x l' [Heq|Hin]%elem_of_heappush.
    + injection Heq as -> -> ->. split; [done|].
      exists distance. cbn. by rewrite lookup_insert_eq.
    + destruct (Hpq _ _ _ Hin) as [? ?]. split; [done|]. by apply Hmono.
  - intros x [dx Hx]. cbn in Hx. apply Hback in Hx as [->|Hx]; [|by apply Hre].
    eapply reach_step; [exact Hreach|]. exists nbrs, ed. split; [done|].
    split; [done|]. intros ->. by apply elem_of_nil in Hk.
  - intros x [dx Hx] Hxt. cbn in Hx. apply Hback in Hx as [->|Hx].
    + right. exists distance, (Some (line e)). apply elem_of_heappush. by left.
    + destruct (Hfr x Hx Hxt) as [?|(d' & l' & Hin)]; [by left|].
      right. exists d', l'. apply elem_of_heappush. by right.
  - intros a b Ha Hab. apply Hmono. by eapply Hcl.
  - intros x y Hx. destruct (decide (v = x)) as [->|Hne].
    + rewrite lookup_insert_eq in Hx. injection Hx as <-. split; [done|].
      exists k, nbrs, ed, e. rewrite !lookup_insert_eq.
      split; [done|]. split; [done|]. split; [done|].
      split; [by apply dict_get_elem|done].
    + rewrite lookup_insert_ne in Hx by done. rewrite !lookup_insert_ne by done.
      by apply Hprev.
  - intros x [dx Hx] Hxs. cbn in Hx. destruct (decide (v = x)) as [->|Hne].
    + rewrite lookup_insert_eq. eauto.
    + rewrite lookup_insert_ne by done. apply Hfin; [|done].
      rewrite lookup_insert_ne in Hx by done. by exists dx.
  - done.
Qed.

End RelaxInv.

Lemma sum_list_ones {A : Type} (l : list A) :
  sum_list ((fun _ => 1%nat) <$> l) = length l.
Proof. induction l as [|x l IH]; [done|]. rewrite fmap_cons. cbn. by rewrite IH. Qed.

Lemma init_search_inv (G : MultiGraph) (source target : string) :
  source ∈ dom G -> search_inv G source target ∅ (init_search G source).
Proof.
  intros Hs.
  assert (Hfin : forall x, finite_at (init_search G source) x -> x = source).
  { intros x [dx Hx]. cbn in Hx. destruct (decide (source = x)) as [|Hne]; [done|].
    rewrite lookup_insert_ne, lookup_fmap in Hx by done.
    destruct (G !! x); discriminate. }
  split; cbn.
  - rewrite dom_insert_L, dom_fmap_L.
    by apply subseteq_union_1_L, singleton_subseteq_l.
  - by rewrite dom_fmap_L.
  - by rewrite dom_fmap_L.
  - by rewrite dom_fmap_L.
  - exists 0. cbn. by rewrite lookup_insert_eq.
  - set_solver.
  - intros d v l ->%list_elem_of_singleton%pair_eq%proj1%pair_eq%proj2.
    split; [done|]. exists 0. cbn. by rewrite lookup_insert_eq.
  - intros v ->%Hfin. constructor.
  - intros v ->%Hfin _. right. exists 0, None. by left.
  - set_solver.
  - intros v u. rewrite lookup_fmap. destruct (G !! v); discriminate.
  - intros v ->%Hfin. done.
  - set_solver.
Qed.

Section SearchTotal.

Variable transfer_penalty : Z.
Variable G : MultiGraph.
Variables source target : string.
Hypothesis Hwf : wf_graph G.

Lemma relax_finite_mono (u : string) (d : Z) (l : option string) (v : string)
    (st st' : search) (item : edge_key * edge_attr) (x : string) :
  relax transfer_penalty u d l v st item = Ret st' ->
  finite_at st x -> finite_at st' x.
Proof.
  destruct item as [k e].
  intros (dv & Hdv & [[_ ->]|[_ ->]])%relax_Ret [dx Hx]; [by exists dx|].
  unfold finite_at. cbn. destruct (decide (v = x)) as [->|Hne].
  - rewrite lookup_insert_eq. eauto.
  - rewrite lookup_insert_ne by done. eauto.
Qed.

Lemma relax_finite_at (u : string) (d : Z) (l : option string) (v : string)
    (st st' : search) (item : edge_key * edge_attr) :
  relax transfer_penalty u d l v st item = Ret st' -> finite_at st' v.
Proof.
  destruct item as [k e].
  intros (dv & Hdv & [[Hlt ->]|[_ ->]])%relax_Ret.
  - destruct dv as [|dv]; [discriminate|]. by exists dv.
  - unfold finite_at. cbn. rewrite lookup_insert_eq. eauto.
Qed.

Lemma relax_pq_length (u : string) (d : Z) (l : option string) (v : string)
    (st st' : search) (item : edge_key * edge_attr) :
  relax transfer_penalty u d l v st item = Ret st' ->
  (length (pq st') <= length (pq st) + 1)%nat.
Proof.
  destruct item as [k e].
  intros (dv & Hdv & [[_ ->]|[_ ->]])%relax_Ret; [lia|].
  cbn. rewrite length_heappush. lia.
Qed.

Lemma relax_neighbor_finite_mono (u : string) (d : Z) (l : option string)
    (st st' : search) (item : string * edge_dict) (x : string) :
  relax_neighbor transfer_penalty u d l st item = Ret st' ->
  finite_at st x -> finite_at st' x.
Proof.
  unfold relax_neighbor. intros H Hx.
  eapply (for_each_preserves (fun s => finite_at s x)); [|exact Hx|exact H].
  intros ???? _ ?. by eapply relax_finite_mono.
Qed.

Lemma relax_neighbor_finite_at (u : string) (d : Z) (l : option string)
    (st st' : search) (v : string) (ed : edge_dict) :
  relax_neighbor transfer_penalty u d l st (v, ed) = Ret st' ->
  ed <> [] -> finite_at st' v.
Proof.
  unfold relax_neighbor. cbn [fst snd]. intros H Hed.
  destruct ed as [|item ed]; [done|].
  eapply (for_each_establish (fun _ s => finite_at s v)); [| |exact H|by left].
  - intros ????. by eapply relax_finite_at.
  - intros ??????. by eapply relax_finite_mono.
Qed.

Lemma relax_neighbor_pq_length (u : string) (d : Z) (l : option string)
    (st st' : search) (item : string * edge_dict) :
  relax_neighbor transfer_penalty u d l st item = Ret st' ->
  (length (pq st') <= length (pq st) + length item.2)%nat.
Proof.
  unfold relax_neighbor. intros H.
  eapply (for_each_measure (fun s => length (pq s)) (fun _ => 1%nat)) in H.
  - by rewrite sum_list_ones in H.
  - intros ????. by eapply relax_pq_length.
Qed.

Lemma pop_inv (C : gset string) (st : search) (d : Z) (u : string)
    (l : option string) (h : list entry) :
  search_inv G source target C st -> pq st = (d, u, l) :: h ->
  u = target \/ u ∈ visited st ->
  search_inv G source target C (set_pq h st).
Proof.
  intros [Hd Hp Hkd Hld Hsrc Hvis Hq Hre Hfr Hcl Hprev Hfin Htgt] Hpq Hu.
  split; try done; cbn.
  - intros d' x l' Hin. apply (Hq d' x l'). rewrite Hpq. by right.
  - intros x Hx Hxt. destruct (Hfr x Hx Hxt) as [?|(d' & l' & Hin)]; [by left|].
    rewrite Hpq in Hin. apply elem_of_cons in Hin as [Heq|Hin]; [|right; eauto].
    injection Heq as -> -> ->. destruct Hu; [done|by left].
Qed.

Lemma relax_all_inv (st : search) (d : Z) (u : string) (l : option string)
    (h : list entry) :
  search_inv G source target (visited st) st ->
  pq st = (d, u, l) :: h -> u ∉ visited st -> u <> target ->
  exists st', relax_all transfer_penalty G u d l (visit u (set_pq h st)) = Ret st' /\
    search_inv G source target (visited st') st' /\
    visited st' = {[u]} ∪ visited st /\
    (potential G st' < potential G st)%nat.
Proof.
  intros Hinv Hpq Hu Hut.
  destruct (inv_pq _ _ _ _ _ Hinv d u l) as [Hudom Hufin];
    [rewrite Hpq; by left|].
  pose proof (inv_reach _ _ _ _ _ Hinv u Hufin) as Hreach.
  apply elem_of_dom in Hudom as [nbrs Hnbrs].
  unfold relax_all, getitem. rewrite Hnbrs. cbn [mbind outcome_bind].
  set (st0 := visit u (set_pq h st)).
  assert (Hinv0 : search_inv G source target (visited st) st0).
  { destruct Hinv as [Hd Hp Hkd Hld Hsrc Hvis Hq Hre Hfr Hcl Hprev Hfin Htgt].
    split; try done; cbn.
    - apply union_least; [|done]. apply singleton_subseteq_l.
      apply elem_of_dom. eauto.
    - intros d' x l' Hin. apply (Hq d' x l'). rewrite Hpq. by right.
    - intros x Hx Hxt. destruct (Hfr x Hx Hxt) as [?|(d' & l' & Hin)].
      + left. apply elem_of_union. by right.
      + rewrite Hpq in Hin. apply elem_of_cons in Hin as [Heq|Hin].
        * injection Heq as -> -> ->. left. apply elem_of_union. left.
          by apply elem_of_singleton.
        * right. eauto.
    - intros x y Hx. destruct (Hprev x y Hx) as [? ?].
      split; [apply elem_of_union; by right|done].
    - intros [?%elem_of_singleton|?]%elem_of_union; [congruence|done]. }
  destruct (for_each_total
    (fun s => search_inv G source target (visited st) s /\
              visited s = {[u]} ∪ visited st)
    (relax_neighbor transfer_penalty u d l) nbrs) with (s := st0)
    as (st' & Hrun & Hinv' & Hvis').
  { intros s [v ed] [Hs Hsv] Hin. unfold relax_neighbor. cbn [fst snd].
    apply for_each_total; [|done].
    intros s1 [k e] [Hs1 Hs1v] Hke.
    destruct (relax_inv transfer_penalty G source target Hwf (visited st)
                u d l nbrs v ed k e s1) as (s2 & Hr & Hs2 & Hv2 & _); try done.
    - rewrite Hs1v. apply elem_of_union. left. by apply elem_of_singleton.
    - exists s2. split; [done|]. split; [done|]. congruence. }
  { split; [done|]. done. }
  exists st'. split; [done|]. split; [|split; [done|]].
  - destruct Hinv' as [Hd Hp Hkd Hld Hsrc Hvis Hq Hre Hfr Hcl Hprev Hfin Htgt].
    split; try done. intros a b Ha (nbrs' & ed & Hn & Hin & Hed) .
    rewrite Hvis' in Ha. apply elem_of_union in Ha as [->%elem_of_singleton|Ha].
    + rewrite Hnbrs in Hn. injection Hn as <-.
      refine (for_each_establish
                (fun item s => item.2 <> [] -> finite_at s item.1)
                _ nbrs _ _ st0 st' Hrun (b, ed) Hin Hed).
      * intros s [v' ed'] s' Hs' Hne. by eapply relax_neighbor_finite_at.
      * intros s x y s' Hy Hs' Hne. eapply relax_neighbor_finite_mono; eauto.
    + apply (Hcl a b Ha). by exists nbrs', ed.
  - apply (for_each_measure (fun s => length (pq s)) (fun item => length item.2)) in Hrun.
    2:{ intros ????. by eapply relax_neighbor_pq_length. }
    unfold potential. rewrite Hvis', Hpq.
    pose proof (unvisited_degree_visit G (visited st) u nbrs Hnbrs Hu).
    change (sum_list ((fun item : string * edge_dict => length item.2) <$> nbrs))
      with (degree nbrs) in Hrun.
    cbn in Hrun. cbn [length]. lia.
Qed.

Lemma search_loop_total (fuel : nat) :
  forall st,
  search_inv G source target (visited st) st ->
  (potential G st < fuel)%nat ->
  exists st', search_loop transfer_penalty fuel G target st = Ret st' /\
    search_inv G source target (visited st') st' /\
    (pq st' = [] \/ finite_at st' target).
Proof.
  induction fuel as [|fuel IH]; intros st Hinv Hpot; [lia|].
  cbn [search_loop]. destruct (pq st) as [|[[d u] l] h] eqn:Hpq; cbn [heappop].
  - exists st. by eauto.
  - destruct (decide (u = target)) as [->|Hut].
    + exists (set_pq h st). split; [done|]. split.
      * apply (pop_inv (visited st) st d target l h); auto.
      * right. apply (inv_pq _ _ _ _ _ Hinv d target l). rewrite Hpq. by left.
    + destruct (decide (u ∈ visited (set_pq h st))) as [Huv|Huv].
      * apply IH.
        -- apply (pop_inv (visited st) st d u l h); auto.
        -- unfold potential in *. rewrite Hpq in Hpot. cbn in *. lia.
      * destruct (relax_all_inv st d u l h Hinv Hpq Huv Hut)
          as (st1 & -> & Hinv1 & _ & Hpot1).
        cbn [mbind outcome_bind]. apply IH; [done|lia].
Qed.

End SearchTotal.

Section RouterResults.

Variable transfer_penalty : Z.
Variable G : MultiGraph.
Hypothesis Hwf : wf_graph G.

Lemma search_from_init (source target : string) :
  source ∈ dom G ->
  exists st, search_loop transfer_penalty (2 + total_degree G) G target
               (init_search G source) = Ret st /\
    search_inv G source target (visited st) st /\
    (pq st = [] \/ finite_at st target).
Proof.
  intros Hs. apply (search_loop_total transfer_penalty G source target Hwf).
  - by apply init_search_inv.
  - unfold potential. cbn [pq visited init_search length].
    rewrite unvisited_degree_empty. lia.
Qed.

Lemma reachable_finite (source target : string) (st : search) (v : string) :
  search_inv G source target (visited st) st ->
  pq st = [] \/ finite_at st target ->
  reachable G source v -> finite_at st target \/ finite_at st v.
Proof.
  intros Hinv [Hpq|Ht]; [|by left]. induction 1 as [|v w _ IH Hvw].
  - right. by eapply inv_source.
  - destruct IH as [?|Hv]; [by left|].
    destruct (decide (v = target)) as [->|Hvt]; [by left|].
    right. destruct (inv_front _ _ _ _ _ Hinv v Hv Hvt) as [Hvis|(d & l & Hin)].
    + by eapply inv_closed.
    + rewrite Hpq in Hin. by apply elem_of_nil in Hin.
Qed.

Lemma custom_fastest_path_no_path (source target : string) :
  source ∈ dom G -> target ∈ dom G -> ~ reachable G source target ->
  custom_fastest_path transfer_penalty G source target = Raise NetworkXNoPath.
Proof.
  intros Hs Ht Hno. unfold custom_fastest_path.
  destruct (search_from_init source target Hs) as (st & -> & Hinv & _).
  cbn [mbind outcome_bind].
  assert (Hd : is_Some (distances st !! target)).
  { apply elem_of_dom. by rewrite (inv_dom _ _ _ _ _ Hinv). }
  destruct Hd as [[|dt] Hd]; unfold getitem; rewrite Hd; [done|].
  destruct Hno. eapply inv_reach; [exact Hinv|]. by exists dt.
Qed.

Lemma custom_fastest_path_unknown (source target : string) :
  source ∉ dom G \/ target ∉ dom G ->
  custom_fastest_path transfer_penalty G source target = Raise KeyError.
Proof.
  intros Hor. unfold custom_fastest_path.
  destruct (decide (source ∈ dom G)) as [Hs|Hs].
  - destruct Hor as [?|Ht]; [done|].
    destruct (search_from_init source target Hs) as (st & -> & Hinv & _).
    cbn [mbind outcome_bind]. unfold getitem.
    replace (distances st !! target) with (@None dist); [done|].
    symmetry. apply not_elem_of_dom. by rewrite (inv_dom _ _ _ _ _ Hinv).
  - apply not_elem_of_dom in Hs.
    cbn [search_loop Nat.add init_search heappop pq set_pq].
    destruct (decide (source = target)) as [<-|Hne].
    + cbn [mbind outcome_bind]. unfold set_pq, init_search.
      cbn [distances previous previous_edge_keys previous_lines].
      unfold getitem at 1. rewrite lookup_insert_eq.
      cbn [mbind outcome_bind walk_back]. unfold getitem.
      by rewrite !lookup_fmap, Hs.
    + cbn [visited]. rewrite decide_False by set_solver.
      unfold relax_all, getitem. by rewrite Hs.
Qed.

End RouterResults.

(** ** The router when no cost is negative *)

Lemma ordered_insert (prev : gmap string (option string)) (source v : string)
    (x : option string) (order : list string) :
  v ∉ order -> ordered prev source order ->
  ordered (<[v := x]> prev) source order.
Proof.
  induction order as [|y rest IH]; intros Hv Ho; [done|].
  apply not_elem_of_cons in Hv as [Hvy Hv]. destruct Ho as [Hy Ho].
  split; [|by apply IH].
  destruct Hy as [->|(u & Hu & Hin)]; [by left|].
  right. exists u. by rewrite lookup_insert_ne.
Qed.

Lemma dijkstra_weight_nonneg (transfer_penalty : Z) (u v : string) (e : edge_attr)
    (l : option string) :
  0 <= transfer_penalty -> 0 <= weight e ->
  0 <= dijkstra_weight transfer_penalty u v e l.
Proof.
  intros Hp He. unfold dijkstra_weight.
  destruct (truthy l && bool_decide (Some (line e) ≠ l)); lia.
Qed.

Lemma init_search_tree (G : MultiGraph) (source : string) :
  source ∈ dom G -> search_tree source 0 (init_search G source).
Proof.
  intros [nbrs Hs]%elem_of_dom. split; cbn.
  - repeat constructor.
  - intros d v l ->%list_elem_of_singleton%pair_eq%proj1%pair_eq%proj1. done.
  - intros d v l Hin%list_elem_of_singleton. injection Hin as -> -> ->.
    exists 0. by rewrite lookup_insert_eq.
  - set_solver.
  - by rewrite lookup_insert_eq, lookup_fmap, Hs.
  - exists []. split; [set_solver|]. split; [constructor|done].
Qed.

Section SearchTree.

Variable transfer_penalty : Z.
Variable G : MultiGraph.
Variables source target : string.
Hypothesis Hwf : wf_graph G.
Hypothesis Hnonneg : nonneg_weights G.
Hypothesis Hpenalty : 0 <= transfer_penalty.

Lemma relax_tree (u : string) (d : Z) (l : option string) (v : string)
    (k : edge_key) (e : edge_attr) (st st' : search) :
  0 <= weight e ->
  search_tree source d st ->
  relax transfer_penalty u d l v st (k, e) = Ret st' ->
  search_tree source d st'.
Proof.
  intros He Htree (dv & Hdv & [[_ ->]|[Hlt ->]])%relax_Ret; [done|].
  pose proof (dijkstra_weight_nonneg transfer_penalty u v e l Hpenalty He) as Hw.
  set (distance := d + dijkstra_weight transfer_penalty u v e l) in *.
  destruct Htree as [Hsorted Hbound Hpq Hvis (Hsrc & Hprev & Hb) (order & Hord & Hnd & Ho)].
  assert (Hv : v ∉ visited st).
  { intros Hin. destruct (Hvis v Hin) as (dv' & Hdv' & Hle).
    rewrite Hdv in Hdv'. injection Hdv' as ->. cbn in Hlt.
    apply bool_decide_eq_true in Hlt. lia. }
  assert (Hvs : v <> source).
  { intros ->. rewrite Hdv in Hsrc. injection Hsrc as ->. cbn in Hlt.
    apply bool_decide_eq_true in Hlt. lia. }
  split; cbn [distances previous previous_lines previous_edge_keys visited pq].
  - by apply heappush_sorted.
  - intros d' x l' [Heq|Hin]%elem_of_heappush; [|by eapply Hbound].
    injection Heq as -> -> ->. lia.
  - intros d' x l' [Heq|Hin]%elem_of_heappush.
    + injection Heq as -> -> ->. exists distance. by rewrite lookup_insert_eq.
    + destruct (Hpq _ _ _ Hin) as (dx & Hdx & Hle).
      destruct (decide (v = x)) as [->|Hne].
      * exists distance. rewrite lookup_insert_eq. split; [done|].
        rewrite Hdv in Hdx. injection Hdx as ->. cbn in Hlt.
        apply bool_decide_eq_true in Hlt. lia.
      * exists dx. by rewrite lookup_insert_ne.
  - intros x Hx. destruct (Hvis x Hx) as (dx & Hdx & Hle).
    exists dx. rewrite lookup_insert_ne; [done|]. by intros ->.
  - by rewrite !lookup_insert_ne.
  - exists order. split; [done|]. split; [done|].
    apply ordered_insert; [|done]. by rewrite Hord.
Qed.

Lemma relax_all_tree (u : string) (d : Z) (l : option string) (st st' : search) :
  search_tree source d st ->
  relax_all transfer_penalty G u d l st = Ret st' ->
  search_tree source d st'.
Proof.
  intros Htree H. unfold relax_all in H.
  apply bind_Ret_inv in H as (nbrs & Hn%getitem_Ret & H).
  eapply for_each_preserves; [|exact Htree|exact H].
  intros s [v ed] s' Hs Hin Hr. unfold relax_neighbor in Hr. cbn [fst snd] in Hr.
  eapply for_each_preserves; [|exact Hs|exact Hr].
  intros s1 [k e] s2 Hs1 Hke Hr1. eapply relax_tree; [|exact Hs1|exact Hr1].
  pose proof (Hnonneg u nbrs Hn) as Hall.
  eapply Forall_forall in Hall; [|exact Hin].
  eapply Forall_forall in Hall; [|exact Hke]. done.
Qed.

Lemma pop_tree (b : Z) (st : search) (x : entry) (h : list entry) :
  search_tree source b st -> pq st = x :: h ->
  search_tree source b (set_pq h st).
Proof.
  intros [Hsorted Hbound Hpq Hvis Hsrc Hord] Hq.
  split; cbn; try done.
  - rewrite Hq in Hsorted. by apply StronglySorted_inv in Hsorted as [? _].
  - intros d v l Hin. apply (Hbound d v l). rewrite Hq. by right.
  - intros d v l Hin. apply (Hpq d v l). rewrite Hq. by right.
Qed.

Lemma visit_tree (C : gset string) (b : Z) (st : search) (d : Z) (u : string)
    (l : option string) (h : list entry) :
  search_inv G source target C st ->
  search_tree source b st -> pq st = (d, u, l) :: h -> u ∉ visited st ->
  search_tree source d (visit u (set_pq h st)).
Proof.
  intros Hinv [Hsorted Hbound Hpq Hvis (Hsrc & Hprev & Hb) (order & Hord & Hnd & Ho)]
    Hq Hu.
  assert (Hin : (d, u, l) ∈ pq st) by (rewrite Hq; by left).
  pose proof (Hbound _ _ _ Hin) as Hbd.
  rewrite Hq in Hsorted. apply StronglySorted_inv in Hsorted as [Hsorted Hall].
  split; cbn.
  - done.
  - intros d' v l' Hv. eapply Forall_forall in Hall; [|exact Hv]. done.
  - intros d' v l' Hv. apply (Hpq d' v l'). rewrite Hq. by right.
  - intros v [->%elem_of_singleton|Hv]%elem_of_union.
    + by apply (Hpq d u l).
    + destruct (Hvis v Hv) as (dv & ? & ?). exists dv. split; [done|lia].
  - split; [done|]. split; [done|lia].
  - exists (u :: order). split; [|split].
    + intros v. rewrite elem_of_cons, elem_of_union, elem_of_singleton, Hord. done.
    + apply NoDup_cons. split; [by rewrite Hord|done].
    + split; [|done]. destruct (decide (u = source)) as [|Hus]; [by left|].
      right. destruct (inv_pq _ _ _ _ _ Hinv d u l Hin) as [_ Hfin].
      destruct (inv_fin_prev _ _ _ _ _ Hinv u Hfin Hus) as [u' Hu'].
      exists u'. split; [done|]. apply Hord. by eapply inv_prev.
Qed.

Lemma search_loop_tree (fuel : nat) :
  forall st st',
  search_inv G source target (visited st) st ->
  (exists b, search_tree source b st) ->
  search_loop transfer_penalty fuel G target st = Ret st' ->
  exists b, search_tree source b st'.
Proof.
  induction fuel as [|fuel IH]; intros st st' Hinv [b Htree] H; [discriminate|].
  cbn [search_loop] in H.
  destruct (pq st) as [|[[d u] l] h] eqn:Hq; cbn [heappop] in H.
  - injection H as <-. eauto.
  - pose proof (pop_tree b st _ h Htree Hq) as Hpop.
    destruct (decide (u = target)) as [->|Hut]; [injection H as <-; eauto|].
    destruct (decide (u ∈ visited (set_pq h st))) as [Huv|Huv].
    + eapply IH; [|eauto|exact H].
      apply (pop_inv G source target (visited st) st d u l h); auto.
    + destruct (relax_all_inv transfer_penalty G source target Hwf st d u l h
                  Hinv Hq Huv Hut) as (st1 & Hr & Hinv1 & _ & _).
      rewrite Hr in H. cbn [mbind outcome_bind] in H.
      eapply IH; [exact Hinv1| |exact H].
      exists d. eapply relax_all_tree; [|exact Hr].
      by eapply visit_tree.
Qed.

End SearchTree.

(** ** Reconstruction of the path *)

Lemma walk_back_fuel_S (prev : gmap string (option string))
    (keys : gmap string (option edge_key)) (fuel : nat) (c : string) :
  walk_back (S fuel) prev keys (Some c)
  = p ← getitem prev c;
    match p with
    | None => Ret ([c], [])
    | Some _ =>
      k ← getitem keys c;
      r ← walk_back fuel prev keys p;
      Ret (c :: r.1, k :: r.2)
    end.
Proof. done. Qed.

Lemma walk_back_more_fuel (prev : gmap string (option string))
    (keys : gmap string (option edge_key)) (fuel : nat) :
  forall (c : option string) (r : list string * list (option edge_key)),
  walk_back fuel prev keys c = Ret r -> walk_back (S fuel) prev keys c = Ret r.
Proof.
  induction fuel as [|fuel IH]; intros [c|] r H; try done.
  rewrite walk_back_fuel_S in *.
  destruct (getitem prev c) as [[u|]| |]; cbn [mbind outcome_bind] in *; try done.
  destruct (getitem keys c) as [k| |]; cbn [mbind outcome_bind] in *; try done.
  apply bind_Ret_inv in H as (r1 & Hw1 & H). by rewrite (IH _ _ Hw1).
Qed.

Section WalkBack.

Variable G : MultiGraph.
Variable prev : gmap string (option string).
Variable keys : gmap string (option edge_key).
Variable lines : gmap string (option string).
Variable source : string.
Hypothesis Hsource : prev !! source = Some None.
Hypothesis Hkeys : forall v u, prev !! v = Some (Some u) ->
  exists k nbrs ed e, keys !! v = Some (Some k) /\
    G !! u = Some nbrs /\ dict_get v nbrs = Some ed /\ dict_get k ed = Some e /\
    lines !! v = Some (Some (line e)).

Lemma walk_back_ordered (order : list string) :
  ordered prev source order ->
  forall (fuel : nat) (c : string),
  c ∈ order -> (length order <= fuel)%nat ->
  exists l ks, walk_back fuel prev keys (Some c) = Ret (l, ks) /\
    head l = Some c /\ last l = Some source /\ back_linked G lines l ks /\
    sublist l order.
Proof.
  induction order as [|v rest IH]; intros Ho fuel c Hc Hfuel;
    [by apply elem_of_nil in Hc|].
  destruct Ho as [Hv Ho]. cbn [length] in Hfuel.
  destruct fuel as [|fuel]; [lia|].
  assert (Hsrc : walk_back (S fuel) prev keys (Some source) = Ret ([source], [])).
  { rewrite walk_back_fuel_S. unfold getitem. by rewrite Hsource. }
  assert (Hstep : forall u, prev !! c = Some (Some u) -> u ∈ rest ->
            exists l ks, walk_back (S fuel) prev keys (Some c) = Ret (l, ks) /\
              head l = Some c /\ last l = Some source /\
              back_linked G lines l ks /\ sublist l (c :: rest)).
  { intros u Hu Hin.
    destruct (IH Ho fuel u Hin) as (l & ks & Hw & Hhead & Hlast & Hlink & Hsub);
      [lia|].
    destruct (Hkeys c u Hu) as (k & nbrs & ed & e & Hk & Hn & Hed & He & Hl).
    exists (c :: l), (Some k :: ks). rewrite walk_back_fuel_S. unfold getitem.
    rewrite Hu. cbn [mbind outcome_bind]. rewrite Hk. cbn [mbind outcome_bind].
    rewrite Hw. cbn [mbind outcome_bind fst snd]. split; [done|]. split; [done|].
    destruct l as [|u' l']; [discriminate|]. injection Hhead as ->.
    split; [by rewrite last_cons_cons|]. split; [|by apply sublist_skip].
    split; [|done]. by exists nbrs, ed, e. }
  apply elem_of_cons in Hc as [->|Hc].
  - destruct Hv as [->|(u & Hu & Hin)]; [|by eapply Hstep].
    exists [source], []. rewrite Hsrc. repeat split; try done.
    apply sublist_skip, sublist_nil_l.
  - destruct (IH Ho fuel c Hc) as (l & ks & Hw & Hhead & Hlast & Hlink & Hsub);
      [lia|].
    exists l, ks. split; [by apply walk_back_more_fuel|].
    repeat split; try done. by apply sublist_cons.
Qed.

End WalkBack.

Lemma back_linked_length (G : MultiGraph) (lines : gmap string (option string))
    (l : list string) :
  forall ks, back_linked G lines l ks -> length l = S (length ks).
Proof.
  induction l as [|c [|u l'] IH]; intros ks H.
  - by destruct ks.
  - by destruct ks as [|[?|] ?].
  - destruct ks as [|[k|] ks']; try done. destruct H as [_ H].
    apply IH in H. cbn in *. lia.
Qed.

Lemma traversed_snoc (G : MultiGraph) (u c : string) (k : edge_key)
    (nbrs : adjacency) (ed : edge_dict) (e : edge_attr) :
  G !! u = Some nbrs -> dict_get c nbrs = Some ed -> dict_get k ed = Some e ->
  forall (p : list string) (ks : list (option edge_key)) (es : list edge_attr),
  traversed G (p ++ [u]) ks = Some es -> length p = length ks ->
  traversed G ((p ++ [u]) ++ [c]) (ks ++ [Some k]) = Some (es ++ [e]).
Proof.
  intros Hn Hed He. induction p as [|a p IH]; intros ks es Ht Hlen.
  - destruct ks; [|done]. injection Ht as <-.
    by apply (traversed_cons G u c [] k [] nbrs ed e []).
  - destruct ks as [|k0 ks]; [done|]. injection Hlen as Hlen.
    assert (Hshape : exists b q, p ++ [u] = b :: q).
    { destruct p; cbn; eauto. }
    destruct Hshape as (b & q & Hq).
    cbn [app] in *. rewrite Hq in *.
    apply traversed_cons_inv in Ht
      as (k1 & ks1 & na & eda & ea & es0 & Hk & Hna & Heda & Hea & Hes0 & ->).
    injection Hk as -> ->.
    specialize (IH ks1 es0 Hes0 Hlen). cbn [app] in IH |- *.
    by apply (traversed_cons G a b (q ++ [c]) k1 (ks1 ++ [Some k]) na eda ea).
Qed.

Lemma back_linked_traversed (G : MultiGraph) (lines : gmap string (option string))
    (l : list string) :
  forall ks, back_linked G lines l ks ->
  exists es, traversed G (rev l) (rev ks) = Some es /\ lines_agree lines (rev l) es.
Proof.
  induction l as [|c [|u l'] IH]; intros ks H.
  - by destruct ks.
  - destruct ks as [|[?|] ?]; [|done|done]. exists []. split; [done|constructor].
  - destruct ks as [|[k|] ks']; try done.
    destruct H as [(nbrs & ed & e & Hn & Hed & He & Hline) H].
    pose proof (back_linked_length _ _ _ _ H) as Hlen.
    destruct (IH ks' H) as (es & Hes & Hagree).
    exists (es ++ [e]).
    change (rev (c :: u :: l')) with ((rev l' ++ [u]) ++ [c]).
    change (rev (Some k :: ks')) with (rev ks' ++ [Some k]).
    change (rev (u :: l')) with (rev l' ++ [u]) in Hes, Hagree.
    split.
    + eapply traversed_snoc; try done.
      rewrite !length_rev. cbn in Hlen. lia.
    + unfold lines_agree in *.
      replace (tail ((rev l' ++ [u]) ++ [c])) with (tail (rev l' ++ [u]) ++ [c])
        by (by destruct (rev l')).
      apply Forall2_app; [done|]. by repeat constructor.
Qed.

Lemma summarize_total (G : MultiGraph) (transfer_penalty : Z)
    (line_changes : gmap string (option string)) (path : list string) :
  forall (keys : list (option edge_key)) (es : list edge_attr) (s : summary),
  traversed G path keys = Some es ->
  Forall (fun v => is_Some (line_changes !! v)) (tail path) ->
  exists s', summarize G transfer_penalty line_changes path keys s = Ret s'.
Proof.
  induction path as [|u [|v rest] IH]; intros keys es s Ht Hl.
  - by exists s.
  - by exists s.
  - apply traversed_cons_inv in Ht
      as (k & keys' & nbrs & ed & e & es0 & -> & Hn & Hed & He & Hes0 & _).
    cbn [tail] in Hl. apply Forall_cons in Hl as [[lc Hlc] Hl].
    rewrite summarize_cons. unfold summary_step, get_edges, get_edge_data, getitem.
    rewrite Hn. cbn [mbind outcome_bind]. rewrite Hed. cbn [mbind outcome_bind].
    rewrite He. cbn [mbind outcome_bind]. rewrite Hlc. cbn [mbind outcome_bind tail].
    by eapply IH.
Qed.

Lemma NoDup_length_le_size (l : list string) (X : gset string) :
  NoDup l -> (forall x, x ∈ l -> x ∈ X) -> (length l <= size X)%nat.
Proof.
  intros Hnd Hsub. rewrite <- (size_list_to_set (C := gset string) l Hnd).
  apply subseteq_size. intros x Hx. apply Hsub. by apply elem_of_list_to_set in Hx.
Qed.

Lemma walk_back_keys (prev : gmap string (option string))
    (keys : gmap string (option edge_key)) (fuel : nat) :
  forall (c : option string) (l : list string) (ks : list (option edge_key)),
  walk_back fuel prev keys c = Ret (l, ks) ->
  Forall (fun v => is_Some (prev !! v)) l.
Proof.
  induction fuel as [|fuel IH]; intros [c|] l ks H; try done.
  - by injection H as <- <-.
  - rewrite walk_back_fuel_S in H.
    apply bind_Ret_inv in H as (p & Hp%getitem_Ret & H). destruct p as [u|].
    + apply bind_Ret_inv in H as (k & _ & H).
      apply bind_Ret_inv in H as ([l1 ks1] & Hw & H). injection H as <- <-.
      apply Forall_cons. split; [eauto|]. by eapply IH.
    + injection H as <- <-. apply Forall_singleton. eauto.
  - by injection H as <- <-.
Qed.

(** ** Reconstructions that do not end *)

Lemma not_NoDup_repeat (l : list string) :
  ~ NoDup l -> exists i j x, (i < j)%nat /\ l !! i = Some x /\ l !! j = Some x.
Proof.
  induction l as [|a l IH]; intros Hnd; [destruct Hnd; constructor|].
  destruct (decide (a ∈ l)) as [Hin|Hin].
  - apply list_elem_of_lookup in Hin as [j Hj]. exists 0%nat, (S j), a.
    split; [lia|]. by split.
  - destruct IH as (i & j & x & Hij & Hi & Hj).
    + intros Hl. apply Hnd. by constructor.
    + exists (S i), (S j), x. split; [lia|]. by split.
Qed.

Section Follows.

Variable prev : gmap string (option string).
Variable keys : gmap string (option edge_key).

Lemma walk_back_out_of_fuel (n : nat) :
  forall c, walk_back n prev keys (Some c) = OutOfFuel <-> follows prev keys n c.
Proof.
  induction n as [|n IH]; intros c; [done|].
  rewrite walk_back_fuel_S. unfold getitem. cbn [follows].
  destruct (prev !! c) as [[u|]|] eqn:Hc; cbn [mbind outcome_bind].
  - destruct (keys !! c) as [k|] eqn:Hk; cbn [mbind outcome_bind].
    + specialize (IH u).
      destruct (walk_back n prev keys (Some u)) as [r| |] eqn:Hw;
        cbn [mbind outcome_bind].
      * split; [done|]. intros (u' & [= <-] & _ & Hf). by apply IH in Hf.
      * split; [done|]. intros (u' & [= <-] & _ & Hf). by apply IH in Hf.
      * split; [|done]. intros _. exists u. split; [done|]. split; [eauto|].
        by apply IH.
    + split; [done|]. by intros (u' & _ & [? ?] & _).
  - split; [done|]. by intros (u' & ? & _).
  - split; [done|]. by intros (u' & ? & _).
Qed.

Lemma follows_station_at (k : nat) :
  forall n c, follows prev keys n c -> (k <= n)%nat ->
  exists x, station_at prev k c = Some x /\ follows prev keys (n - k) x.
Proof.
  induction k as [|k IH]; intros n c Hf Hk.
  - exists c. split; [done|]. by rewrite Nat.sub_0_r.
  - destruct n as [|n]; [lia|]. destruct Hf as (u & Hu & _ & Hf).
    cbn [station_at]. rewrite Hu. apply IH; [done|lia].
Qed.

Lemma follows_add (a : nat) :
  forall b c x, follows prev keys a c -> station_at prev a c = Some x ->
  follows prev keys b x -> follows prev keys (a + b) c.
Proof.
  induction a as [|a IH]; intros b c x Ha Hx Hb.
  - by injection Hx as ->.
  - destruct Ha as (u & Hu & Hk & Ha). cbn [station_at] in Hx. rewrite Hu in Hx.
    exists u. split; [done|]. split; [done|]. by eapply IH.
Qed.

Lemma station_at_add (a : nat) :
  forall b c x, station_at prev a c = Some x ->
  station_at prev (a + b) c = station_at prev b x.
Proof.
  induction a as [|a IH]; intros b c x Hx.
  - by injection Hx as ->.
  - cbn [station_at Nat.add] in *.
    destruct (prev !! c) as [[u|]|]; try done. by apply IH.
Qed.

(** The stations of the first [n] steps. *)
Lemma follows_trail (n : nat) (c : string) :
  follows prev keys n c ->
  exists l, length l = n /\ (forall x, x ∈ l -> x ∈ dom prev) /\
    forall k, (k < n)%nat -> l !! k = station_at prev k c.
Proof.
  revert c. induction n as [|n IH]; intros c Hf.
  - exists []. split; [done|]. split; [by intros ? ?%elem_of_nil|]. intros; lia.
  - destruct Hf as (u & Hu & _ & Hf).
    destruct (IH u Hf) as (l & Hlen & Hdom & Hat).
    exists (c :: l). split; [cbn; lia|]. split.
    + intros x [->|Hx]%elem_of_cons; [apply elem_of_dom; eauto|by apply Hdom].
    + intros [|k] Hk; [done|]. cbn [station_at]. rewrite Hu. apply Hat. lia.
Qed.

Lemma follows_one_more (n : nat) (c : string) :
  (size prev < n)%nat -> follows prev keys n c -> follows prev keys (S n) c.
Proof.
  intros Hn Hf. destruct (follows_trail n c Hf) as (l & Hlen & Hdom & Hat).
  destruct (not_NoDup_repeat l) as (i & j & x & Hij & Hi & Hj).
  { intros Hnd. pose proof (NoDup_length_le_size l (dom prev) Hnd Hdom).
    rewrite size_dom in *. lia. }
  assert (Hjn : (j < n)%nat) by (rewrite <- Hlen; by eapply lookup_lt_Some).
  rewrite Hat in Hi, Hj by lia.
  destruct (follows_station_at (i + (n - j)) n c Hf) as (y & Hy & Hfy); [lia|].
  replace (S n) with (n + 1)%nat by lia.
  apply (follows_add n 1 c y); [done| |].
  - replace n with (j + (n - j))%nat at 1 by lia.
    rewrite (station_at_add j (n - j) c x Hj).
    by rewrite <- (station_at_add i (n - j) c x Hi).
  - replace (n - (i + (n - j)))%nat with (S (j - i - 1)) in Hfy by lia.
    destruct Hfy as (u & Hu & Hk & _). by exists u.
Qed.

(** When the fuel of [custom_fastest_path] does not suffice for the
    reconstruction, no fuel does: the loop of the source never ends. *)
Lemma walk_back_never_ends (c : string) :
  walk_back (S (size prev)) prev keys (Some c) = OutOfFuel ->
  forall fuel, walk_back fuel prev keys (Some c) = OutOfFuel.
Proof.
  intros H%walk_back_out_of_fuel fuel. apply walk_back_out_of_fuel.
  assert (Hall : forall m, follows prev keys (S (size prev) + m) c).
  { induction m as [|m IH]; [by rewrite Nat.add_0_r|].
    rewrite Nat.add_succ_r. apply follows_one_more; [lia|done]. }
  destruct (follows_station_at 0 (S (size prev) + fuel) c (Hall fuel))
    as (x & [= <-] & Hx); [lia|].
  clear -Hx. revert c Hx. generalize (S (size prev)) as a.
  intros a. replace (a + fuel - 0)%nat with (fuel + a)%nat by lia.
  induction fuel as [|fuel IH]; intros c Hf; [done|].
  destruct Hf as (u & Hu & Hk & Hf). exists u. split; [done|]. split; [done|].
  by apply IH.
Qed.

End Follows.

(** ** The loops of the router and their fuel *)

Lemma for_each_ends {A S : Type} (body : S -> A -> outcome S) (l : list A) :
  (forall s x, body s x <> OutOfFuel) ->
  forall s, for_each body l s <> OutOfFuel.
Proof.
  intros Hbody. induction l as [|x l IH]; intros s; [done|].
  cbn [for_each]. specialize (Hbody s x).
  destruct (body s x) as [s'| |]; cbn [mbind outcome_bind]; [apply IH|done|done].
Qed.

Lemma relax_all_ends (p : Z) (G : MultiGraph) (u : string) (d : Z)
    (l : option string) (st : search) :
  relax_all p G u d l st <> OutOfFuel.
Proof.
  unfold relax_all, getitem.
  destruct (G !! u) as [nbrs|]; cbn [mbind outcome_bind]; [|done].
  apply for_each_ends. intros s [v ed].
  unfold relax_neighbor. apply for_each_ends. intros s' [k e].
  unfold relax, getitem. cbn [fst snd].
  destruct (distances s' !! v) as [dv|]; cbn [mbind outcome_bind]; [|done].
  by destruct (lt_dist _ dv).
Qed.

Lemma relax_all_pq_length (p : Z) (G : MultiGraph) (u : string) (d : Z)
    (l : option string) (st st' : search) (nbrs : adjacency) :
  G !! u = Some nbrs -> relax_all p G u d l st = Ret st' ->
  visited st' = visited st /\
  (length (pq st') <= length (pq st) + degree nbrs)%nat.
Proof.
  intros Hn H. unfold relax_all, getitem in H. rewrite Hn in H.
  cbn [mbind outcome_bind] in H. split.
  - eapply (for_each_preserves (fun s => visited s = visited st)); [|done|exact H].
    intros s [v ed] s' Hs _ Hr. unfold relax_neighbor in Hr.
    eapply (for_each_preserves (fun s => visited s = visited st)); [|exact Hs|exact Hr].
    intros s1 [k e] s2 Hs1 _ Hr1.
    by apply relax_Ret in Hr1 as (dv & _ & [[_ ->]|[_ ->]]).
  - apply (for_each_measure (fun s => length (pq s)) (fun item => length item.2)) in H;
      [done|].
    intros ????. by eapply relax_neighbor_pq_length.
Qed.

(** On every graph the [while pq:] loop ends before its fuel is used up. *)
Lemma search_loop_ends (p : Z) (G : MultiGraph) (target : string) (fuel : nat) :
  forall st, (potential G st < fuel)%nat ->
  search_loop p fuel G target st <> OutOfFuel.
Proof.
  induction fuel as [|fuel IH]; intros st Hpot; [lia|].
  cbn [search_loop]. destruct (pq st) as [|[[d u] l] h] eqn:Hpq; cbn [heappop]; [done|].
  destruct (decide (u = target)); [done|].
  unfold potential in Hpot. rewrite Hpq in Hpot. cbn [length] in Hpot.
  destruct (decide (u ∈ visited (set_pq h st))) as [Hu|Hu].
  - apply IH. unfold potential. cbn. lia.
  - pose proof (relax_all_ends p G u d l (visit u (set_pq h st))) as Hends.
    destruct (relax_all p G u d l (visit u (set_pq h st))) as [st'| |] eqn:Hr;
      cbn [mbind outcome_bind]; [|done|done].
    apply IH. pose proof Hr as Hr'. unfold relax_all, getitem in Hr'.
    destruct (G !! u) as [nbrs|] eqn:Hn; [|done]. clear Hr'.
    destruct (relax_all_pq_length p G u d l _ st' nbrs Hn Hr) as [Hv Hlen].
    pose proof (unvisited_degree_visit G (visited st) u nbrs Hn Hu).
    unfold potential. rewrite Hv. cbn in *. lia.
Qed.

Lemma bind_OutOfFuel_inv {A B : Type} (m : outcome A) (f : A -> outcome B) :
  m ≫= f = OutOfFuel -> m = OutOfFuel \/ exists a, m = Ret a /\ f a = OutOfFuel.
Proof. destruct m; cbn; intros H; [right; eauto|done|by left]. Qed.

Lemma summarize_ends (G : MultiGraph) (p : Z) (lines : gmap string (option string))
    (stations : list string) :
  forall keys s, summarize G p lines stations keys s <> OutOfFuel.
Proof.
  induction stations as [|u [|v rest] IH]; intros keys s; [done|done|].
  rewrite summarize_cons. intros [H|(s' & _ & H)]%bind_OutOfFuel_inv; [|by eapply IH].
  unfold summary_step, get_edges, get_edge_data, getitem in H.
  destruct (G !! u) as [nbrs|]; cbn [mbind outcome_bind] in H; [|done].
  destruct (dict_get v nbrs) as [ed|]; cbn [mbind outcome_bind] in H; [|done].
  destruct keys as [|[k|] keys]; cbn [mbind outcome_bind] in H; try done.
  destruct (dict_get k ed) as [e|]; cbn [mbind outcome_bind] in H; [|done].
  by destruct (lines !! v).
Qed.

(** The only loop of [find_fastest_route] that may not end is the
    reconstruction of the path. *)
Lemma find_fastest_route_no_result (G : MultiGraph) (origin destination : string)
    (p : Z) :
  find_fastest_route G origin destination p = OutOfFuel ->
  exists st,
    search_loop p (2 + total_degree G) G destination (init_search G origin) = Ret st /\
    forall fuel,
      walk_back fuel (previous st) (previous_edge_keys st) (Some destination)
      = OutOfFuel.
Proof.
  unfold find_fastest_route, except_no_path. intros H.
  match type of H with match ?m with _ => _ end = _ => destruct m as [a|e|] eqn:Hm end;
    [done|by destruct (decide _)|]. clear H.
  apply bind_OutOfFuel_inv in Hm as [Hm|([[stations lines] keys] & _ & Hm)].
  2:{ apply bind_OutOfFuel_inv in Hm as [Hm|(s & _ & Hm)]; [|done].
      by apply summarize_ends in Hm. }
  unfold custom_fastest_path in Hm.
  apply bind_OutOfFuel_inv in Hm as [Hm|(st & Hloop & Hm)].
  { apply search_loop_ends in Hm; [done|].
    unfold potential. cbn [pq visited init_search length].
    rewrite unvisited_degree_empty. lia. }
  exists st. split; [done|]. apply walk_back_never_ends.
  apply bind_OutOfFuel_inv in Hm as [Hm|(dt & _ & Hm)].
  { unfold getitem in Hm. by destruct (distances st !! destination). }
  destruct dt; [done|].
  by apply bind_OutOfFuel_inv in Hm as [Hm|(r & _ & Hm)].
Qed.

(** ** Routes between distinct stations *)

(** The outcome of the router on a network without negative costs: a
    simple path from the source to the target over edges of the graph,
    with the lines of these edges recorded. *)
Lemma custom_fastest_path_route (G : MultiGraph) (source target : string)
    (transfer_penalty : Z) :
  wf_graph G -> nonneg_weights G -> 0 <= transfer_penalty ->
  source ∈ dom G -> target ∈ dom G -> source <> target ->
  reachable G source target ->
  exists path lines keys es,
    custom_fastest_path transfer_penalty G source target = Ret (path, lines, keys) /\
    head path = Some source /\ last path = Some target /\ NoDup path /\
    length path = S (length keys) /\
    traversed G path keys = Some es /\ lines_agree lines path es.
Proof.
  intros Hwf Hnn Hp Ho Hd Hne Hreach.
  destruct (search_from_init transfer_penalty G Hwf source target Ho)
    as (st & Hloop & Hinv & Hend).
  destruct (search_loop_tree transfer_penalty G source target Hwf Hnn Hp
              _ (init_search G source) st
              (init_search_inv G source target Ho)
              (ex_intro _ 0 (init_search_tree G source Ho)) Hloop)
    as [b [_ _ _ _ (_ & Hsrc & _) (order & Hord & Hnd & Hordered)]].
  assert (Hfin : finite_at st target).
  { by destruct (reachable_finite G source target st target Hinv Hend Hreach). }
  destruct (inv_fin_prev _ _ _ _ _ Hinv target Hfin) as [u Hu]; [done|].
  destruct (inv_prev _ _ _ _ _ Hinv target u Hu)
    as (Huv & k & nbrs & ed & e & Hk & Hn & Hed & He & Hline).
  destruct (walk_back_ordered G (previous st) (previous_edge_keys st)
              (previous_lines st) source Hsrc
              (fun v u H => proj2 (inv_prev _ _ _ _ _ Hinv v u H))
              order Hordered (size (previous st)) u)
    as (l & ks & Hw & Hhead & Hlast & Hlink & Hsub).
  { by apply Hord. }
  { rewrite <- size_dom. apply NoDup_length_le_size; [done|].
    intros x Hx%Hord. rewrite (inv_prev_dom _ _ _ _ _ Hinv).
    by apply (inv_visited _ _ _ _ _ Hinv). }
  assert (Hwalk : walk_back (S (size (previous st))) (previous st)
                    (previous_edge_keys st) (Some target)
                  = Ret (target :: l, Some k :: ks)).
  { rewrite walk_back_fuel_S. unfold getitem. rewrite Hu. cbn [mbind outcome_bind].
    rewrite Hk. cbn [mbind outcome_bind]. by rewrite Hw. }
  assert (Hlinked : back_linked G (previous_lines st) (target :: l) (Some k :: ks)).
  { destruct l as [|u' l']; [discriminate|]. injection Hhead as ->.
    split; [|done]. by exists nbrs, ed, e. }
  destruct (back_linked_traversed G _ _ _ Hlinked) as (es & Hes & Hagree).
  destruct Hfin as [dt Hdt].
  exists (rev (target :: l)), (previous_lines st), (rev (Some k :: ks)), es.
  split; [|split; [|split; [|split; [|split; [|split]]]]]; try done.
  - unfold custom_fastest_path. rewrite Hloop.
    cbn [mbind outcome_bind]. unfold getitem at 1. rewrite Hdt.
    cbn [mbind outcome_bind]. by rewrite Hwalk.
  - rewrite rev_reverse, head_reverse.
    destruct l as [|u' l']; [discriminate|]. by rewrite last_cons_cons.
  - by rewrite rev_reverse, last_reverse.
  - rewrite rev_reverse, reverse_Permutation. apply NoDup_cons.
    split; [|by eapply sublist_NoDup].
    intros Hin. eapply elem_of_sublist in Hin; [|exact Hsub].
    apply Hord in Hin. by apply (inv_target _ _ _ _ _ Hinv).
  - rewrite !length_rev. by apply back_linked_length in Hlinked.
Qed.

(** C1: on a network whose costs are not negative, with a penalty that is
    not negative, a query between two distinct stations joined by a path
    returns a route whose path starts at the origin, ends at the
    destination and has at least one station. *)
Theorem fastest_route_endpoints (G : MultiGraph) (origin destination : string)
    (transfer_penalty : Z) :
  wf_graph G -> nonneg_weights G -> 0 <= transfer_penalty ->
  origin ∈ dom G -> destination ∈ dom G -> origin <> destination ->
  reachable G origin destination ->
  exists r, find_fastest_route G origin destination transfer_penalty = Ret (Some r) /\
    head (path r) = Some origin /\ last (path r) = Some destination /\
    (1 <= length (path r))%nat.
Proof.
  intros Hwf Hnn Hp Ho Hd Hne Hreach.
  destruct (custom_fastest_path_route G origin destination transfer_penalty)
    as (stations & lines & keys & es & Hc & Hhead & Hlast & _ & Hlen & Hes & Hagree);
    try done.
  destruct (summarize_total G transfer_penalty lines stations keys es init_summary Hes)
    as [s Hs].
  { eapply Forall2_Forall_l; [exact Hagree|].
    apply Forall_true. intros e v Hv. by rewrite Hv. }
  exists (make_route transfer_penalty stations s). split; [|split; [|split]]; try done.
  - unfold find_fastest_route. rewrite Hc. cbn [mbind outcome_bind].
    by rewrite Hs.
  - cbn [path make_route]. lia.
Qed.

(** C3: when origin and destination are stations of the network and no
    path leads from the one to the other, the query ends without an
    exception and returns [None], the marker of "no route". *)
Theorem no_route_is_none (G : MultiGraph) (origin destination : string)
    (transfer_penalty : Z) :
  wf_graph G -> origin ∈ dom G -> destination ∈ dom G ->
  ~ reachable G origin destination ->
  find_fastest_route G origin destination transfer_penalty = Ret None.
Proof.
  intros Hwf Ho Hd Hno. unfold find_fastest_route.
  by rewrite custom_fastest_path_no_path.
Qed.

(** C2, as the code has it: when the origin or the destination is not a
    station of the network, the query fails with a [KeyError], which the
    handler for [NetworkXNoPath] does not catch. *)
Theorem unknown_station_key_error (G : MultiGraph) (origin destination : string)
    (transfer_penalty : Z) :
  wf_graph G -> origin ∉ dom G \/ destination ∉ dom G ->
  find_fastest_route G origin destination transfer_penalty = Raise KeyError.
Proof.
  intros Hwf Hor. unfold find_fastest_route.
  by rewrite custom_fastest_path_unknown.
Qed.

(** ** Routes that are returned *)

Lemma find_fastest_route_Some (G : MultiGraph) (origin destination : string)
    (transfer_penalty : Z) (r : route) :
  find_fastest_route G origin destination transfer_penalty = Ret (Some r) ->
  exists path line_changes keys s,
    custom_fastest_path transfer_penalty G origin destination
    = Ret (path, line_changes, keys) /\
    summarize G transfer_penalty line_changes path keys init_summary = Ret s /\
    r = make_route transfer_penalty path s.
Proof.
  unfold find_fastest_route, except_no_path. intros H.
  match type of H with match ?m with _ => _ end = _ => destruct m as [a|e|] eqn:Hm end.
  - injection H as ->.
    apply bind_Ret_inv in Hm as ([[path lc] keys] & Hc & Hm).
    apply bind_Ret_inv in Hm as (s & Hs & Hm). injection Hm as <-.
    by exists path, lc, keys, s.
  - by destruct (decide (e = NetworkXNoPath)).
  - discriminate.
Qed.

(** C7: in every route that is returned, the total time is the sum of the
    weights of the traversed edges plus the raw penalty once per transfer,
    and the transfer time is the raw penalty once per transfer; the bias
    of 10 that [dijkstra_weight] adds at a change of line is in neither. *)
Theorem reported_times_exclude_bias (G : MultiGraph) (origin destination : string)
    (transfer_penalty : Z) (r : route) :
  find_fastest_route G origin destination transfer_penalty = Ret (Some r) ->
  exists line_changes keys es,
    custom_fastest_path transfer_penalty G origin destination
    = Ret (path r, line_changes, keys) /\
    traversed G (path r) keys = Some es /\
    total_time r
    = sum_Z (weight <$> es) + Z.of_nat (num_transfers r) * transfer_penalty /\
    transfer_time r = Z.of_nat (num_transfers r) * transfer_penalty /\
    travel_time r = sum_Z (weight <$> es).
Proof.
  intros (path & lc & keys & s & Hc & Hs & ->)%find_fastest_route_Some.
  apply summarize_time in Hs as (es & Hes & Htime).
  exists lc, keys, es. cbn in *. repeat split; [done|done|lia|lia].
Qed.

Lemma reported_times_exclude_bias_witness :
  exists r, find_fastest_route two_lines "A" "E" 50 = Ret (Some r) /\
    exists line_changes keys es,
      custom_fastest_path 50 two_lines "A" "E" = Ret (path r, line_changes, keys) /\
      traversed two_lines (path r) keys = Some es /\
      total_time r = sum_Z (weight <$> es) + Z.of_nat (num_transfers r) * 50 /\
      transfer_time r = Z.of_nat (num_transfers r) * 50 /\
      travel_time r = sum_Z (weight <$> es).
Proof.
  eexists. split; [vm_compute; reflexivity|].
  apply (reported_times_exclude_bias two_lines "A" "E" 50).
  vm_compute. reflexivity.
Defined.

(** The relaxation cost at a change of line is the weight, the penalty
    and the bias of 10; the label of E in the scenario of the two lines is
    460, while the reported total time is 450. *)
Lemma dijkstra_weight_transfer (transfer_penalty : Z) (u v : string)
    (e : edge_attr) (l : string) :
  l <> "" -> line e <> l ->
  dijkstra_weight transfer_penalty u v e (Some l) = weight e + transfer_penalty + 10.
Proof.
  intros Hl Hne. unfold dijkstra_weight, truthy.
  rewrite bool_decide_eq_true_2 by done.
  by rewrite bool_decide_eq_true_2 by congruence.
Qed.

Example two_lines_label_of_E :
  exists st, search_loop 50 (2 + total_degree two_lines) two_lines "E"
               (init_search two_lines "A") = Ret st /\
    distances st !! "E" = Some (Finite 460).
Proof. eexists. split; [vm_compute; reflexivity|]. reflexivity. Qed.

(** C10: in every route that is returned with at least two stations, the
    segments are not empty, start at the first station of the path and end
    at its last one, every segment is closed, there is one segment per line
    used and one more than transfers, and the segment times add up to the
    travel time. *)
Theorem segments_tile_path (G : MultiGraph) (origin destination : string)
    (transfer_penalty : Z) (r : route) :
  find_fastest_route G origin destination transfer_penalty = Ret (Some r) ->
  (2 <= length (path r))%nat ->
  segments r <> [] /\
  from_station <$> head (segments r) = head (path r) /\
  last (segments r) ≫= to_station = last (path r) /\
  Forall (fun g => is_Some (to_station g)) (segments r) /\
  length (segments r) = S (num_transfers r) /\
  length (segments r) = length (lines_used r) /\
  sum_Z (time <$> segments r) = travel_time r.
Proof.
  intros (path & lc & keys & s & Hc & Hs & ->)%find_fastest_route_Some Hlen.
  apply custom_fastest_path_shape in Hc as (Hlast & first & rest & -> & Hlines).
  destruct rest as [|v rest]; [cbn in Hlen; lia|].
  apply summarize_first in Hs; [|done].
  destruct Hs as (_ & (segs & g & Hsegs & Hclosed) & Hhead & Hn & Hl & Hsum).
  unfold make_route. cbn [path segments num_transfers lines_used travel_time].
  rewrite Hlast. rewrite Hsegs in *. rewrite alter_last_snoc.
  split; [by destruct segs|]. split; [|split; [|split; [|split; [|split]]]].
  - cbn [head]. rewrite <- Hhead. by apply head_snoc_from.
  - by rewrite last_snoc.
  - apply Forall_app. split; [done|]. apply Forall_singleton. cbn. eauto.
  - rewrite !length_app in *. cbn in *. lia.
  - rewrite !length_app in *. cbn in *. lia.
  - rewrite !fmap_app, !sum_Z_app in *. cbn in *. lia.
Qed.

Lemma segments_tile_path_witness :
  exists r, find_fastest_route two_lines "A" "E" 50 = Ret (Some r) /\
    (2 <= length (path r))%nat /\
    segments r <> [] /\
    from_station <$> head (segments r) = head (path r) /\
    last (segments r) ≫= to_station = last (path r) /\
    Forall (fun g => is_Some (to_station g)) (segments r) /\
    length (segments r) = S (num_transfers r) /\
    length (segments r) = length (lines_used r) /\
    sum_Z (time <$> segments r) = travel_time r.
Proof.
  eexists. split; [vm_compute; reflexivity|]. split; [cbn; lia|].
  apply (segments_tile_path two_lines "A" "E" 50).
  - vm_compute. reflexivity.
  - cbn. lia.
Defined.

(** ** Reachability on concrete networks *)

Lemma dict_get_Some_elem {K V : Type} `{EqDecision K} (l : list (K * V)) (k : K) (v : V) :
  dict_get k l = Some v -> (k, v) ∈ l.
Proof.
  induction l as [|[k' v'] l IH]; cbn; [done|].
  destruct (decide (k = k')) as [->|]; [|by right; apply IH].
  intros [= ->]. by left.
Qed.

Lemma edgeb_edge (G : MultiGraph) (u v : string) : edgeb G u v = true -> edge G u v.
Proof.
  unfold edgeb. destruct (G !! u) as [nbrs|] eqn:Hn; [|done].
  destruct (dict_get v nbrs) as [[|item ed]|] eqn:Hed; try done.
  intros _. exists nbrs, (item :: ed). split; [done|].
  split; [by apply dict_get_Some_elem|done].
Qed.

Lemma linked_path_reachable (G : MultiGraph) (l : list string) :
  forall u v, head l = Some u -> last l = Some v -> linked_path G l = true ->
  reachable G u v.
Proof.
  induction l as [|x l IH] using rev_ind; intros u v Hu Hv Hl; [done|].
  rewrite last_snoc in Hv. injection Hv as ->.
  destruct l as [|y l _] using rev_ind.
  - injection Hu as ->. constructor.
  - assert (Hsplit : linked_path G (l ++ [y]) = true /\ edgeb G y v = true).
    { clear -Hl. induction l as [|a [|b l] IH]; cbn in *.
      - by rewrite andb_true_r in Hl.
      - apply andb_true_iff in Hl as [-> Hl]. cbn. by rewrite andb_true_r in Hl.
      - apply andb_true_iff in Hl as [-> Hl]. by apply IH. }
    destruct Hsplit as [Hl' He].
    eapply reach_step; [|by apply edgeb_edge].
    apply IH; [|by rewrite last_snoc|done].
    by destruct l.
Qed.

Lemma no_incoming_unreachable (G : MultiGraph) (u v : string) :
  no_incoming G v -> u <> v -> ~ reachable G u v.
Proof.
  intros Hno Hne Hr. destruct Hr as [|w v' _ (nbrs & ed & Hn & Hin & _)]; [done|].
  apply (Hno w nbrs Hn). apply list_elem_of_fmap. by exists (v', ed).
Qed.

(** ** The penalty and the number of transfers *)

Lemma reachable_dec (G : MultiGraph) (source target : string) :
  wf_graph G -> source ∈ dom G ->
  reachable G source target \/ ~ reachable G source target.
Proof.
  intros Hwf Hs.
  destruct (search_from_init 0 G Hwf source target Hs) as (st & _ & Hinv & Hend).
  destruct (distances st !! target) as [[|dt]|] eqn:Hdt.
  - right. intros Hr.
    destruct (reachable_finite G source target st target Hinv Hend Hr)
      as [[? ?]|[? ?]]; congruence.
  - left. eapply inv_reach; [exact Hinv|]. by exists dt.
  - right. intros Hr.
    destruct (reachable_finite G source target st target Hinv Hend Hr)
      as [[? ?]|[? ?]]; congruence.
Qed.

Lemma next_summary_transfers (p1 p2 : Z) (u : string) (lc : option string)
    (w1 w2 : Z) (s1 s2 : summary) :
  s_transfers s1 = s_transfers s2 -> s_current_line s1 = s_current_line s2 ->
  s_transfers (next_summary p1 u lc w1 s1) = s_transfers (next_summary p2 u lc w2 s2) /\
  s_current_line (next_summary p1 u lc w1 s1)
  = s_current_line (next_summary p2 u lc w2 s2).
Proof.
  intros Ht Hc. unfold next_summary. rewrite Ht, Hc.
  destruct (decide (lc ≠ s_current_line s2)); [|done].
  by destruct (s_current_line s2).
Qed.

Lemma summarize_transfers_ext (G : MultiGraph) (p1 p2 : Z)
    (l1 l2 : gmap string (option string)) (stations : list string) :
  forall (keys : list (option edge_key)) (es : list edge_attr)
         (s1 s2 s1' s2' : summary),
  traversed G stations keys = Some es ->
  lines_agree l1 stations es -> lines_agree l2 stations es ->
  s_transfers s1 = s_transfers s2 -> s_current_line s1 = s_current_line s2 ->
  summarize G p1 l1 stations keys s1 = Ret s1' ->
  summarize G p2 l2 stations keys s2 = Ret s2' ->
  s_transfers s1' = s_transfers s2'.
Proof.
  induction stations as [|u [|v rest] IH];
    intros keys es s1 s2 s1' s2' Hes Ha1 Ha2 Ht Hc H1 H2.
  - injection H1 as <-. by injection H2 as <-.
  - injection H1 as <-. by injection H2 as <-.
  - rewrite summarize_cons in H1, H2.
    apply bind_Ret_inv in H1 as (t1 & Hstep1 & H1).
    apply bind_Ret_inv in H2 as (t2 & Hstep2 & H2).
    apply summary_step_Ret in Hstep1
      as (nbrs & ed & k & keys' & e & lc & Hn & Hed & -> & He & Hlc & ->).
    apply summary_step_Ret in Hstep2
      as (nbrs' & ed' & k' & keys'' & e' & lc' & Hn' & Hed' & Hk & He' & Hlc' & ->).
    injection Hk as <- <-. rewrite Hn in Hn'. injection Hn' as <-.
    rewrite Hed in Hed'. injection Hed' as <-.
    rewrite He in He'. injection He' as <-.
    apply traversed_cons_inv in Hes
      as (k0 & keys0 & nbrs0 & ed0 & e0 & es' & Hk & Hn0 & Hed0 & He0 & Hes' & ->).
    injection Hk as <- <-. rewrite Hn in Hn0. injection Hn0 as <-.
    rewrite Hed in Hed0. injection Hed0 as <-.
    rewrite He in He0. injection He0 as <-.
    unfold lines_agree in Ha1, Ha2. cbn [tail] in *.
    apply Forall2_cons in Ha1 as [Hv1 Ha1]. apply Forall2_cons in Ha2 as [Hv2 Ha2].
    rewrite Hlc in Hv1. injection Hv1 as ->.
    rewrite Hlc' in Hv2. injection Hv2 as ->.
    destruct (next_summary_transfers p1 p2 u (Some (line e)) (weight e) (weight e)
                s1 s2 Ht Hc) as [Ht' Hc'].
    by eapply (IH keys' es').
Qed.

Lemma find_fastest_route_stations (G : MultiGraph) (origin destination : string)
    (p : Z) (r : route) :
  wf_graph G -> find_fastest_route G origin destination p = Ret (Some r) ->
  origin ∈ dom G /\ destination ∈ dom G /\ reachable G origin destination.
Proof.
  intros Hwf H.
  unfold find_fastest_route in H.
  destruct (decide (origin ∈ dom G)) as [Ho|Ho].
  2:{ rewrite custom_fastest_path_unknown in H by auto. discriminate. }
  destruct (decide (destination ∈ dom G)) as [Hd|Hd].
  2:{ rewrite custom_fastest_path_unknown in H by auto. discriminate. }
  split; [done|]. split; [done|].
  destruct (reachable_dec G origin destination Hwf Ho) as [|Hno]; [done|].
  rewrite custom_fastest_path_no_path in H by done. discriminate.
Qed.

Lemma unique_route_same_result (G : MultiGraph) (origin destination : string)
    (p1 p2 : Z) (r1 r2 : route) :
  wf_graph G -> nonneg_weights G -> unique_route G origin destination ->
  0 <= p1 -> 0 <= p2 ->
  find_fastest_route G origin destination p1 = Ret (Some r1) ->
  find_fastest_route G origin destination p2 = Ret (Some r2) ->
  path r2 = path r1 /\ transfers r2 = transfers r1.
Proof.
  intros Hwf Hnn Huniq Hp1 Hp2 H1 H2.
  destruct (find_fastest_route_stations G origin destination p1 r1 Hwf H1)
    as (Ho & Hd & Hreach).
  apply find_fastest_route_Some in H1 as (x1 & y1 & z1 & s1 & Hc1' & Hs1 & ->).
  apply find_fastest_route_Some in H2 as (x2 & y2 & z2 & s2 & Hc2' & Hs2 & ->).
  destruct (decide (origin = destination)) as [<-|Hne].
  { rewrite custom_fastest_path_same in Hc1', Hc2' by done.
    injection Hc1' as <- <- <-. injection Hc2' as <- <- <-.
    injection Hs1 as <-. by injection Hs2 as <-. }
  destruct (custom_fastest_path_route G origin destination p1)
    as (st1 & l1 & k1 & es1 & Hc1 & Hh1 & Hl1 & Hnd1 & Hlen1 & Hes1 & Ha1); try done.
  destruct (custom_fastest_path_route G origin destination p2)
    as (st2 & l2 & k2 & es2 & Hc2 & Hh2 & Hl2 & Hnd2 & Hlen2 & Hes2 & Ha2); try done.
  destruct (Huniq st1 k1 st2 k2) as [<- <-].
  { repeat split; try done; by rewrite Hes1. }
  { repeat split; try done; by rewrite Hes2. }
  rewrite Hes1 in Hes2. injection Hes2 as <-.
  rewrite Hc1 in Hc1'. injection Hc1' as Hx Hy Hz. subst x1 y1 z1.
  rewrite Hc2 in Hc2'. injection Hc2' as Hx Hy Hz. subst x2 y2 z2.
  pose proof (summarize_transfers_ext G p1 p2 l1 l2 st1 k1 es1
                init_summary init_summary s1 s2 Hes1 Ha1 Ha2 eq_refl eq_refl Hs1 Hs2)
    as Ht.
  cbn. by rewrite Ht.
Qed.

(** C6, as far as it holds: on a network without negative costs that has
    only one simple route from the origin to the destination, two queries
    with penalties that are not negative return the same path and the same
    transfers, so the larger penalty never gives more transfers. *)
Theorem unique_route_same_transfers (G : MultiGraph) (origin destination : string)
    (p1 p2 : Z) (r1 r2 : route) :
  wf_graph G -> nonneg_weights G -> unique_route G origin destination ->
  0 <= p1 -> p1 <= p2 ->
  find_fastest_route G origin destination p1 = Ret (Some r1) ->
  find_fastest_route G origin destination p2 = Ret (Some r2) ->
  path r2 = path r1 /\ transfers r2 = transfers r1 /\
  (num_transfers r2 <= num_transfers r1)%nat.
Proof.
  intros Hwf Hnn Huniq Hp1 Hp12 H1 H2.
  destruct (unique_route_same_result G origin destination p1 p2 r1 r2)
    as [Hpath Htr]; try done; [lia|].
  split; [done|]. split; [done|].
  apply find_fastest_route_Some in H1 as (? & ? & ? & ? & _ & _ & ->).
  apply find_fastest_route_Some in H2 as (? & ? & ? & ? & _ & _ & ->).
  cbn in *. by rewrite Htr.
Qed.

Lemma traversed_stations (G : MultiGraph) (d : string) (stations : list string) :
  forall keys, is_Some (traversed G stations keys) ->
  last stations = Some d -> d ∈ dom G -> Forall (fun x => x ∈ dom G) stations.
Proof.
  induction stations as [|u [|v rest] IH]; intros keys [es Hes] Hlast Hd.
  - done.
  - injection Hlast as ->. by apply Forall_singleton.
  - apply traversed_cons_inv in Hes
      as (k & keys' & nbrs & ed & e & es' & -> & Hn & _ & _ & Hes' & _).
    apply Forall_cons. split; [apply elem_of_dom; eauto|].
    eapply IH; [by eexists| |done]. by rewrite last_cons_cons in Hlast.
Qed.

Lemma simple_routes_complete (G : MultiGraph) (d : string) (fuel : nat) :
  forall (seen : list string) (u : string) (stations : list string)
         (keys : list (option edge_key)),
  simple_route G u d stations keys ->
  (forall x, x ∈ stations -> x ∉ seen) ->
  (length stations <= fuel)%nat ->
  (stations, keys) ∈ simple_routes fuel G seen u d.
Proof.
  induction fuel as [|fuel IH];
    intros seen u stations keys (Hnd & Hhead & Hlast & Hlen & [es Hes]) Hseen Hfuel.
  - destruct stations; [done|cbn in Hfuel; lia].
  - destruct stations as [|u' [|v rest]]; [done| |].
    + injection Hhead as ->. injection Hlast as ->.
      destruct keys; [|done]. cbn [simple_routes].
      rewrite decide_True by done. apply elem_of_app. left. by left.
    + injection Hhead as ->.
      apply traversed_cons_inv in Hes
        as (k & keys' & nbrs & ed & e & es' & -> & Hn & Hed & He & Hes' & _).
      cbn [simple_routes]. rewrite Hn. apply elem_of_app. right.
      apply list_elem_of_bind. exists (v, ed).
      split; [|by apply dict_get_Some_elem]. cbn [fst snd].
      apply NoDup_cons in Hnd as [Hu Hnd].
      rewrite decide_False.
      2:{ intros [->|Hin]%elem_of_cons.
          - apply Hu. by left.
          - eapply Hseen; [|exact Hin]. right. by left. }
      apply list_elem_of_bind. exists (k, e).
      split; [|by apply dict_get_Some_elem]. cbn [fst snd].
      apply list_elem_of_fmap. exists (v :: rest, keys'). split; [done|].
      apply IH.
      * split; [done|]. split; [done|].
        split; [by rewrite last_cons_cons in Hlast|].
        split; [cbn in *; lia|by eexists].
      * intros x Hx [->|Hin]%elem_of_cons; [done|].
        eapply Hseen; [|exact Hin]. by right.
      * cbn in *. lia.
Qed.

Lemma unique_route_check (G : MultiGraph) (o d : string) :
  d ∈ dom G ->
  (length (simple_routes (size G) G [] o d) <= 1)%nat ->
  unique_route G o d.
Proof.
  intros Hd Hone s1 k1 s2 k2 H1 H2.
  assert (Hin : forall s k, simple_route G o d s k ->
            (s, k) ∈ simple_routes (size G) G [] o d).
  { intros s k Hs. apply simple_routes_complete; [done| |].
    - intros x _ Hx. by apply elem_of_nil in Hx.
    - destruct Hs as (Hnd & _ & Hlast & _ & Hes).
      rewrite <- size_dom. apply NoDup_length_le_size; [done|].
      apply Forall_forall. by eapply traversed_stations. }
  apply Hin in H1, H2.
  destruct (simple_routes (size G) G [] o d) as [|x [|y l]]; cbn in Hone.
  - by apply elem_of_nil in H1.
  - apply list_elem_of_singleton in H1, H2. by simplify_eq.
  - lia.
Qed.

Lemma elem_of_dom_to_list (G : MultiGraph) (u : string) :
  u ∈ dom G -> u ∈ (map_to_list G).*1.
Proof.
  intros [nbrs Hu]%elem_of_dom. apply list_elem_of_fmap. exists (u, nbrs).
  split; [done|]. by apply elem_of_map_to_list.
Qed.

Lemma two_lines_unique_route (o d : string) :
  o ∈ dom two_lines -> d ∈ dom two_lines -> unique_route two_lines o d.
Proof.
  intros Ho Hd. pose proof Hd as Hd'.
  apply elem_of_dom_to_list in Ho, Hd. vm_compute in Ho, Hd.
  repeat (apply elem_of_cons in Ho as [->|Ho]);
    try (by apply elem_of_nil in Ho);
    repeat (apply elem_of_cons in Hd as [->|Hd]);
    try (by apply elem_of_nil in Hd);
    (apply unique_route_check; [exact Hd' | vm_compute; lia]).
Qed.

(** On the network of two lines that share the station C, the number of
    transfers of a query is the same for all penalties that are not
    negative. *)
Theorem two_lines_transfers_monotone (origin destination : string) (p1 p2 : Z)
    (r1 r2 : route) :
  0 <= p1 -> p1 <= p2 ->
  find_fastest_route two_lines origin destination p1 = Ret (Some r1) ->
  find_fastest_route two_lines origin destination p2 = Ret (Some r2) ->
  (num_transfers r2 <= num_transfers r1)%nat.
Proof.
  intros Hp1 Hp12 H1 H2.
  assert (Hwf : wf_graph two_lines) by compute_done.
  destruct (find_fastest_route_stations _ _ _ _ _ Hwf H1) as (Ho & Hd & _).
  destruct (unique_route_same_result two_lines origin destination p1 p2 r1 r2)
    as [_ Htr]; try done.
  - compute_done.
  - by apply two_lines_unique_route.
  - lia.
  - apply find_fastest_route_Some in H1 as (? & ? & ? & ? & _ & _ & ->).
    apply find_fastest_route_Some in H2 as (? & ? & ? & ? & _ & _ & ->).
    cbn in *. by rewrite Htr.
Qed.


(** ** Witnesses and counterexamples on the example networks *)

Lemma fastest_route_endpoints_witness :
  wf_graph two_lines /\ nonneg_weights two_lines /\
  "A" ∈ dom two_lines /\ "E" ∈ dom two_lines /\ reachable two_lines "A" "E" /\
  exists r, find_fastest_route two_lines "A" "E" 50 = Ret (Some r) /\
    head (path r) = Some "A" /\ last (path r) = Some "E" /\
    (1 <= length (path r))%nat.
Proof.
  assert (Hwf : wf_graph two_lines) by compute_done.
  assert (Hnn : nonneg_weights two_lines) by compute_done.
  assert (Ho : "A" ∈ dom two_lines) by compute_done.
  assert (Hd : "E" ∈ dom two_lines) by compute_done.
  assert (Hr : reachable two_lines "A" "E").
  { apply (linked_path_reachable two_lines ["A"; "B"; "C"; "D"; "E"]);
      vm_compute; reflexivity. }
  repeat (split; [assumption|]).
  apply (fastest_route_endpoints two_lines "A" "E" 50 Hwf Hnn); try assumption.
  - lia.
  - discriminate.
Defined.

Lemma no_route_is_none_witness :
  wf_graph two_lines_and_F /\
  "A" ∈ dom two_lines_and_F /\ "F" ∈ dom two_lines_and_F /\
  ~ reachable two_lines_and_F "A" "F" /\
  find_fastest_route two_lines_and_F "A" "F" 900 = Ret None.
Proof.
  assert (Hwf : wf_graph two_lines_and_F) by compute_done.
  assert (Ho : "A" ∈ dom two_lines_and_F) by compute_done.
  assert (Hd : "F" ∈ dom two_lines_and_F) by compute_done.
  assert (Hno : ~ reachable two_lines_and_F "A" "F").
  { apply no_incoming_unreachable; [compute_done|discriminate]. }
  repeat (split; [assumption|]).
  exact (no_route_is_none two_lines_and_F "A" "F" 900 Hwf Ho Hd Hno).
Defined.

Lemma unknown_station_key_error_witness :
  wf_graph two_lines /\ ("Q" ∉ dom two_lines) /\
  find_fastest_route two_lines "A" "Q" 900 = Raise KeyError /\
  find_fastest_route two_lines "Q" "A" 900 = Raise KeyError /\
  find_fastest_route two_lines "Q" "Q" 900 = Raise KeyError.
Proof.
  assert (Hwf : wf_graph two_lines) by compute_done.
  assert (Hq : "Q" ∉ dom two_lines) by compute_done.
  split; [exact Hwf|]. split; [exact Hq|].
  split; [|split].
  - exact (unknown_station_key_error two_lines "A" "Q" 900 Hwf (or_intror Hq)).
  - exact (unknown_station_key_error two_lines "Q" "A" 900 Hwf (or_introl Hq)).
  - exact (unknown_station_key_error two_lines "Q" "Q" 900 Hwf (or_introl Hq)).
Defined.

(** The query for a station that is not in the network does not fail with
    an exception named [UnknownStationError]. *)
Lemma unknown_station_not_reported :
  find_fastest_route two_lines "A" "Q" 900 <> Raise "UnknownStationError".
Proof. intros H. vm_compute in H. discriminate. Qed.

(** On [hub_network] the query from S to T has no transfer with penalty 0
    and one transfer with penalty 100. *)
Lemma hub_network_not_monotone : ~ transfers_monotone hub_network "S" "T".
Proof.
  intros H.
  assert (E1 : exists r, find_fastest_route hub_network "S" "T" 0 = Ret (Some r) /\
                 num_transfers r = 0%nat)
    by (eexists; split; [vm_compute; reflexivity|reflexivity]).
  assert (E2 : exists r, find_fastest_route hub_network "S" "T" 100 = Ret (Some r) /\
                 num_transfers r = 1%nat)
    by (eexists; split; [vm_compute; reflexivity|reflexivity]).
  destruct E1 as (r1 & E1 & N1), E2 as (r2 & E2 & N2).
  specialize (H 0 100 r1 r2 ltac:(lia) E1 E2). lia.
Qed.

(** Read the other way round ("a larger penalty never gives fewer
    transfers") the statement fails as well, as it should: on
    [bypass_network] the penalty 1000 removes the transfer that the
    penalty 0 accepts. *)
Example penalty_can_remove_transfers :
  exists r1 r2,
    find_fastest_route bypass_network "A" "B" 0 = Ret (Some r1) /\
    find_fastest_route bypass_network "A" "B" 1000 = Ret (Some r2) /\
    num_transfers r1 = 1%nat /\ num_transfers r2 = 0%nat.
Proof.
  eexists _, _. split; [vm_compute; reflexivity|].
  split; [vm_compute; reflexivity|]. by split.
Qed.

Lemma unique_route_same_transfers_witness :
  wf_graph two_lines /\ nonneg_weights two_lines /\
  unique_route two_lines "A" "E" /\
  exists r1 r2,
    find_fastest_route two_lines "A" "E" 50 = Ret (Some r1) /\
    find_fastest_route two_lines "A" "E" 900 = Ret (Some r2) /\
    path r2 = path r1 /\ transfers r2 = transfers r1 /\
    (num_transfers r2 <= num_transfers r1)%nat.
Proof.
  assert (Hwf : wf_graph two_lines) by compute_done.
  assert (Hnn : nonneg_weights two_lines) by compute_done.
  assert (Hu : unique_route two_lines "A" "E").
  { apply unique_route_check; [compute_done|vm_compute; lia]. }
  repeat (split; [assumption|]).
  eexists _, _. split; [vm_compute; reflexivity|].
  split; [vm_compute; reflexivity|].
  apply (unique_route_same_transfers two_lines "A" "E" 50 900 _ _ Hwf Hnn Hu).
  - lia.
  - lia.
  - vm_compute. reflexivity.
  - vm_compute. reflexivity.
Defined.

(** With a negative penalty the predecessors recorded by the search can
    form a cycle, and the reconstruction of the path does not end
    ([find_fastest_route_no_result]): the results on routes between
    distinct stations need a penalty that is not negative. *)
Example negative_penalty_no_result :
  find_fastest_route two_lines "A" "E" (-1000) = OutOfFuel.
Proof. vm_compute. reflexivity. Qed.

(** * Further properties of the code *)

(** ** The filter of the affected trips and the remapping of the other trips *)

Lemma count_hits (l : list string) (closed : list string) :
  forall n m, for_each (fun (n : nat) (station : string) =>
                     Ret (if decide (station ∈ l) then S n else n)) closed n = Ret m ->
  (n < m)%nat -> exists s, s ∈ closed /\ s ∈ l.
Proof.
  induction closed as [|c closed IH]; intros n m H Hlt.
  - injection H as ->. lia.
  - cbn [for_each mbind outcome_bind] in H.
    destruct (decide (c ∈ l)) as [Hc|Hc].
    + exists c. split; [by left|done].
    + apply IH in H as (s & Hs & Hl); [|done]. exists s. split; [by right|done].
Qed.

Lemma affected_OD_Some (r : route) (closed : list string) :
  affected_OD (Some r) closed = Ret true ->
  exists s, s ∈ closed /\ s ∈ path r.
Proof.
  unfold affected_OD. intros H. apply bind_Ret_inv in H as (m & Hm & H).
  injection H as H. apply bool_decide_eq_true in H.
  apply (count_hits (path r) closed 0%nat m); [done|lia].
Qed.

Lemma closed_on_path_classified (origin destination : string)
    (closed_stations stations : list string) (s : string) :
  s ∈ stations -> s ∈ closed_stations ->
  is_Some (get_path_type origin destination closed_stations stations).
Proof.
  intros Hs Hc. unfold get_path_type.
  assert (He : existsb (fun station => bool_decide (station ∈ closed_stations)) stations
               = true).
  { apply existsb_exists. exists s.
    split; [by apply list_elem_of_In|by apply bool_decide_eq_true]. }
  rewrite He. repeat case_match; eauto.
Qed.

(** X18: a trip that passes the filter of the affected trips has a closed
    station on its path and is therefore given one of the four types. *)
Theorem affected_trip_is_classified (origin destination : string) (r : route)
    (selected_closed_stations : list string) :
  affected_OD (Some r) selected_closed_stations = Ret true ->
  (exists station, station ∈ path r /\ station ∈ selected_closed_stations) /\
  is_Some (get_path_type origin destination selected_closed_stations (path r)).
Proof.
  intros (s & Hc & Hs)%affected_OD_Some. split; [by eauto|].
  by eapply closed_on_path_classified.
Qed.

Lemma affected_trip_is_classified_witness :
  affected_OD (Some (mk_route ["A"; "B"; "C"] [] [] 0 3 0 0 0 [])) ["B"; "C"] = Ret true /\
  (exists station, station ∈ ["A"; "B"; "C"] /\ station ∈ ["B"; "C"]) /\
  is_Some (get_path_type "A" "C" ["B"; "C"] ["A"; "B"; "C"]).
Proof.
  split; [reflexivity|].
  exact (affected_trip_is_classified "A" "C"
           (mk_route ["A"; "B"; "C"] [] [] 0 3 0 0 0 []) ["B"; "C"] eq_refl).
Defined.

(** X19: when some station is closed, a pair of stations of the network
    without a path between them stops the filter of the affected trips:
    the route is [None], and subscripting it raises [TypeError]. *)
Theorem no_route_stops_the_filter (G : MultiGraph) (origin destination : string)
    (transfer_penalty : Z) (selected_closed_stations : list string) :
  wf_graph G -> origin ∈ dom G -> destination ∈ dom G ->
  ~ reachable G origin destination ->
  selected_closed_stations <> [] ->
  (x ← find_fastest_route G origin destination transfer_penalty;
   affected_OD x selected_closed_stations) = Raise TypeError.
Proof.
  intros Hwf Ho Hd Hno Hc. unfold find_fastest_route.
  rewrite custom_fastest_path_no_path by done.
  by destruct selected_closed_stations.
Qed.

Lemma no_route_stops_the_filter_witness :
  wf_graph two_lines_and_F /\ "A" ∈ dom two_lines_and_F /\ "F" ∈ dom two_lines_and_F /\
  ~ reachable two_lines_and_F "A" "F" /\
  (x ← find_fastest_route two_lines_and_F "A" "F" 900; affected_OD x ["C"])
  = Raise TypeError.
Proof.
  assert (Hwf : wf_graph two_lines_and_F) by compute_done.
  assert (Ho : "A" ∈ dom two_lines_and_F) by compute_done.
  assert (Hd : "F" ∈ dom two_lines_and_F) by compute_done.
  assert (Hno : ~ reachable two_lines_and_F "A" "F").
  { apply no_incoming_unreachable; [compute_done|done]. }
  repeat (split; [done|]).
  by apply (no_route_stops_the_filter two_lines_and_F "A" "F" 900 ["C"] Hwf Ho Hd Hno).
Defined.

Lemma elem_of_rev_list (l : list string) (s : string) : s ∈ rev l <-> s ∈ l.
Proof. rewrite rev_reverse. apply elem_of_reverse. Qed.

Lemma first_boundary_elem (ib ob : string) (stations : list string) (s : string) :
  first_boundary ib ob stations = Some s -> s ∈ stations /\ (s = ib \/ s = ob).
Proof.
  unfold first_boundary. intros H. apply find_some in H as [Hin Hb].
  split; [by apply list_elem_of_In|by apply bool_decide_eq_true in Hb].
Qed.

Lemma first_closed_elem (closed_stations stations : list string) (s : string) :
  first_closed closed_stations stations = Some s -> s ∈ stations /\ s ∈ closed_stations.
Proof.
  unfold first_closed. intros H. apply find_some in H as [Hin Hb].
  split; [by apply list_elem_of_In|by apply bool_decide_eq_true in Hb].
Qed.

Lemma first_closed_None (closed_stations stations : list string) :
  (forall s, s ∈ stations -> s ∉ closed_stations) ->
  first_closed closed_stations stations = None.
Proof.
  intros Hno. destruct (first_closed closed_stations stations) as [s|] eqn:E; [|done].
  apply first_closed_elem in E as [Hs Hc]. by destruct (Hno s Hs).
Qed.

Lemma get_path_type_Origin (origin destination : string)
    (closed_stations stations : list string) :
  get_path_type origin destination closed_stations stations = Some "Origin trip" ->
  origin ∈ closed_stations.
Proof.
  unfold get_path_type.
  destruct (bool_decide (origin ∈ closed_stations)) eqn:E;
    [by apply bool_decide_eq_true in E|].
  cbn. repeat case_match; discriminate.
Qed.

Lemma get_path_type_Destination (origin destination : string)
    (closed_stations stations : list string) :
  get_path_type origin destination closed_stations stations = Some "Destination trip" ->
  destination ∈ closed_stations.
Proof.
  unfold get_path_type.
  destruct (bool_decide (destination ∈ closed_stations)) eqn:E;
    [by apply bool_decide_eq_true in E|].
  rewrite !andb_false_r. repeat case_match; discriminate.
Qed.

Lemma get_path_type_Internal (origin destination : string)
    (closed_stations stations : list string) :
  get_path_type origin destination closed_stations stations = Some "Internal trip" ->
  origin ∈ closed_stations /\ destination ∈ closed_stations.
Proof.
  unfold get_path_type.
  destruct (bool_decide (origin ∈ closed_stations)) eqn:Eo;
    destruct (bool_decide (destination ∈ closed_stations)) eqn:Ed;
    try apply bool_decide_eq_true in Eo; try apply bool_decide_eq_true in Ed;
    [done|..]; cbn; repeat case_match; discriminate.
Qed.

Lemma get_path_type_None (origin destination : string)
    (closed_stations stations : list string) :
  get_path_type origin destination closed_stations stations = None ->
  forall s, s ∈ stations -> s ∉ closed_stations.
Proof.
  intros H s Hs Hc.
  destruct (closed_on_path_classified origin destination closed_stations stations s Hs Hc)
    as [t Ht]. congruence.
Qed.

Lemma get_path_type_values (origin destination : string)
    (closed_stations stations : list string) (t : string) :
  get_path_type origin destination closed_stations stations = Some t ->
  t = "Origin trip" \/ t = "Destination trip" \/ t = "Internal trip" \/
  t = "Passing trip".
Proof.
  unfold get_path_type. repeat case_match; intros [= <-]; auto.
Qed.

(** X7: for an origin trip the remapped origin is the origin itself, and
    the remapped destination is the first boundary station met when the
    path is walked backward or, without one, the first closed station of
    that walk; it exists when the origin is on the path. *)
Theorem origin_trip_remapping (origin destination ib ob : string)
    (closed_stations stations : list string) :
  get_path_type origin destination closed_stations stations = Some "Origin trip" ->
  let path_type := get_path_type origin destination closed_stations stations in
  let new_origin :=
    origin_station_if_none
      (calculate_origin_station path_type origin ib ob stations)
      stations closed_stations in
  let new_destination :=
    destination_station_if_none
      (calculate_destination_station path_type destination ib ob stations)
      stations closed_stations in
  new_origin = Some origin /\
  new_destination = match first_boundary ib ob (rev stations) with
                    | Some s => Some s
                    | None => first_closed closed_stations (rev stations)
                    end /\
  (origin ∈ stations -> is_Some new_destination).
Proof.
  intros Hty. cbn zeta. rewrite Hty.
  unfold calculate_origin_station, calculate_destination_station,
    origin_station_if_none, destination_station_if_none.
  rewrite (decide_False (P := Some "Origin trip" = Some "Destination trip"))
    by discriminate.
  rewrite !decide_True by done.
  rewrite scan_boundary_first, scan_closed_first.
  split; [done|].
  assert (Hf : origin ∈ stations -> is_Some (first_closed closed_stations (rev stations))).
  { intros Ho. apply (first_closed_is_Some _ _ origin); [by apply elem_of_rev_list|].
    by eapply get_path_type_Origin. }
  destruct (first_boundary ib ob (rev stations)); [by eauto|].
  destruct (first_closed closed_stations (rev stations)); [by eauto|].
  split; [done|]. exact Hf.
Qed.

Lemma origin_trip_remapping_witness :
  get_path_type "C" "E" ["B"; "C"] ["C"; "D"; "E"] = Some "Origin trip" /\
  origin_station_if_none
    (calculate_origin_station (Some "Origin trip") "C" "B" "B" ["C"; "D"; "E"])
    ["C"; "D"; "E"] ["B"; "C"] = Some "C" /\
  destination_station_if_none
    (calculate_destination_station (Some "Origin trip") "E" "B" "B" ["C"; "D"; "E"])
    ["C"; "D"; "E"] ["B"; "C"] = Some "C".
Proof.
  split; [reflexivity|].
  destruct (origin_trip_remapping "C" "E" "B" "B" ["B"; "C"] ["C"; "D"; "E"] eq_refl)
    as (Ho & Hd & _).
  split; [exact Ho|exact Hd].
Defined.

(** X8: for a destination trip the remapped destination is the destination
    itself, and the remapped origin is the first boundary station met when
    the path is walked forward or, without one, the first closed station
    of that walk; it exists when the destination is on the path. *)
Theorem destination_trip_remapping (origin destination ib ob : string)
    (closed_stations stations : list string) :
  get_path_type origin destination closed_stations stations = Some "Destination trip" ->
  let path_type := get_path_type origin destination closed_stations stations in
  let new_origin :=
    origin_station_if_none
      (calculate_origin_station path_type origin ib ob stations)
      stations closed_stations in
  let new_destination :=
    destination_station_if_none
      (calculate_destination_station path_type destination ib ob stations)
      stations closed_stations in
  new_destination = Some destination /\
  new_origin = match first_boundary ib ob stations with
               | Some s => Some s
               | None => first_closed closed_stations stations
               end /\
  (destination ∈ stations -> is_Some new_origin).
Proof.
  intros Hty. cbn zeta. rewrite Hty.
  unfold calculate_origin_station, calculate_destination_station,
    origin_station_if_none, destination_station_if_none.
  rewrite (decide_False (P := Some "Destination trip" = Some "Origin trip"))
    by discriminate.
  rewrite !decide_True by done.
  rewrite scan_boundary_first, scan_closed_first.
  split; [done|].
  assert (Hf : destination ∈ stations -> is_Some (first_closed closed_stations stations)).
  { intros Hd. apply (first_closed_is_Some _ _ destination); [done|].
    by eapply get_path_type_Destination. }
  destruct (first_boundary ib ob stations); [by eauto|].
  destruct (first_closed closed_stations stations); [by eauto|].
  split; [done|]. exact Hf.
Qed.

Lemma destination_trip_remapping_witness :
  get_path_type "A" "C" ["C"; "D"] ["A"; "B"; "C"] = Some "Destination trip" /\
  destination_station_if_none
    (calculate_destination_station (Some "Destination trip") "C" "D" "D" ["A"; "B"; "C"])
    ["A"; "B"; "C"] ["C"; "D"] = Some "C" /\
  origin_station_if_none
    (calculate_origin_station (Some "Destination trip") "A" "D" "D" ["A"; "B"; "C"])
    ["A"; "B"; "C"] ["C"; "D"] = Some "C".
Proof.
  split; [reflexivity|].
  destruct (destination_trip_remapping "A" "C" "D" "D" ["C"; "D"] ["A"; "B"; "C"] eq_refl)
    as (Hd & Ho & _).
  split; [exact Hd|exact Ho].
Defined.

(** X9: a trip that touches no closed station gets no type, and neither
    remapping function nor their fall-backs give it a station. *)
Theorem unclassified_trip_not_remapped (origin destination ib ob : string)
    (closed_stations stations : list string) :
  get_path_type origin destination closed_stations stations = None ->
  origin_station_if_none
    (calculate_origin_station None origin ib ob stations)
    stations closed_stations = None /\
  destination_station_if_none
    (calculate_destination_station None destination ib ob stations)
    stations closed_stations = None.
Proof.
  intros Hty. pose proof (get_path_type_None _ _ _ _ Hty) as Hno.
  unfold calculate_origin_station, calculate_destination_station,
    origin_station_if_none, destination_station_if_none.
  repeat (case_decide; [discriminate|]).
  rewrite !scan_closed_first.
  rewrite !first_closed_None; [done| |done].
  intros s Hs. by apply Hno, elem_of_rev_list.
Qed.

Lemma unclassified_trip_not_remapped_witness :
  get_path_type "A" "C" ["D"] ["A"; "B"; "C"] = None /\
  origin_station_if_none
    (calculate_origin_station None "A" "D" "D" ["A"; "B"; "C"])
    ["A"; "B"; "C"] ["D"] = None /\
  destination_station_if_none
    (calculate_destination_station None "C" "D" "D" ["A"; "B"; "C"])
    ["A"; "B"; "C"] ["D"] = None.
Proof.
  split; [reflexivity|].
  exact (unclassified_trip_not_remapped "A" "C" "D" "D" ["D"] ["A"; "B"; "C"] eq_refl).
Defined.

Lemma scan_then_closed (ib ob : string) (closed_stations walk : list string) (s : string) :
  s ∈ walk -> s ∈ closed_stations ->
  exists x,
    match scan_boundary ib ob walk with
    | Some b => Some b
    | None => match scan_closed closed_stations walk with
              | Some station => Some station
              | None => None
              end
    end = Some x /\
    x ∈ walk /\ (x = ib \/ x = ob \/ x ∈ closed_stations).
Proof.
  intros Hs Hc. rewrite scan_boundary_first, scan_closed_first.
  destruct (first_boundary ib ob walk) as [b|] eqn:Hb.
  - apply first_boundary_elem in Hb as [Hin Hor]. exists b.
    split; [done|]. split; [done|]. destruct Hor; auto.
  - destruct (first_closed_is_Some closed_stations walk s Hs Hc) as [x Hx].
    rewrite Hx. apply first_closed_elem in Hx as [Hin Hxc]. exists x. auto.
Qed.

Lemma head_elem {A : Type} (l : list A) (x : A) : head l = Some x -> x ∈ l.
Proof. destruct l; [done|]. intros [= ->]. by left. Qed.

Lemma last_elem {A : Type} (l : list A) (x : A) : last l = Some x -> x ∈ l.
Proof.
  destruct l as [|y l _] using rev_ind; [done|].
  rewrite last_snoc. intros [= ->]. apply elem_of_app. right. by left.
Qed.

(** The stations that replace the endpoints of a trip whose path has a
    closed station. *)
Lemma remapped_endpoints (origin destination ib ob : string)
    (closed_stations stations : list string) :
  head stations = Some origin -> last stations = Some destination ->
  (exists s, s ∈ stations /\ s ∈ closed_stations) ->
  let path_type := get_path_type origin destination closed_stations stations in
  exists o' d',
    origin_station_if_none
      (calculate_origin_station path_type origin ib ob stations)
      stations closed_stations = Some o' /\
    destination_station_if_none
      (calculate_destination_station path_type destination ib ob stations)
      stations closed_stations = Some d' /\
    o' ∈ stations /\ d' ∈ stations /\
    (ib ∈ closed_stations -> ob ∈ closed_stations ->
     o' ∈ closed_stations /\ d' ∈ closed_stations).
Proof.
  intros Hhead Hlast (s & Hs & Hc). cbn zeta.
  pose proof (head_elem _ _ Hhead) as Ho. pose proof (last_elem _ _ Hlast) as Hd.
  destruct (scan_then_closed ib ob closed_stations stations s Hs Hc)
    as (x & Hx & Hxin & Hxc).
  destruct (scan_then_closed ib ob closed_stations (rev stations) s)
    as (y & Hy & Hyin & Hyc); [by apply elem_of_rev_list|done|].
  apply (proj1 (elem_of_rev_list _ _)) in Hyin.
  destruct (closed_on_path_classified origin destination closed_stations stations s Hs Hc)
    as [t Ht].
  rewrite Ht.
  unfold calculate_origin_station, calculate_destination_station,
    origin_station_if_none, destination_station_if_none.
  destruct (get_path_type_values _ _ _ _ _ Ht) as [-> | [-> | [-> | ->]]].
  - apply get_path_type_Origin in Ht.
    rewrite (decide_False (P := Some "Origin trip" = Some "Destination trip"))
      by discriminate.
    rewrite !decide_True by done.
    exists origin, y. split; [done|]. split; [|intuition (subst; auto)].
    by destruct (scan_boundary ib ob (rev stations)).
  - apply get_path_type_Destination in Ht.
    rewrite (decide_False (P := Some "Destination trip" = Some "Origin trip"))
      by discriminate.
    rewrite !decide_True by done.
    exists x, destination. split; [|intuition (subst; auto)].
    by destruct (scan_boundary ib ob stations).
  - apply get_path_type_Internal in Ht as [Hoc Hdc].
    rewrite (decide_False (P := Some "Internal trip" = Some "Origin trip"))
      by discriminate.
    rewrite (decide_False (P := Some "Internal trip" = Some "Destination trip"))
      by discriminate.
    rewrite !decide_True by done.
    exists origin, destination. intuition (subst; auto).
  - repeat (case_decide; [discriminate|]). rewrite !decide_True by done.
    exists x, y. split; [by destruct (scan_boundary ib ob stations)|].
    split; [by destruct (scan_boundary ib ob (rev stations))|]. intuition (subst; auto).
Qed.

(** X10: for a trip whose path runs from its origin to its destination and
    has a closed station, both remapping steps with their fall-backs give
    a station, each of them is a station of the path, and, when the two
    boundary stations are closed stations, a closed one. *)
Theorem remapped_endpoints_on_path (origin destination ib ob : string)
    (closed_stations stations : list string) :
  head stations = Some origin -> last stations = Some destination ->
  (exists s, s ∈ stations /\ s ∈ closed_stations) ->
  let path_type := get_path_type origin destination closed_stations stations in
  exists o' d',
    origin_station_if_none
      (calculate_origin_station path_type origin ib ob stations)
      stations closed_stations = Some o' /\
    destination_station_if_none
      (calculate_destination_station path_type destination ib ob stations)
      stations closed_stations = Some d' /\
    o' ∈ stations /\ d' ∈ stations /\
    (ib ∈ closed_stations -> ob ∈ closed_stations ->
     o' ∈ closed_stations /\ d' ∈ closed_stations).
Proof. apply remapped_endpoints. Qed.

Lemma remapped_endpoints_on_path_witness :
  exists o' d',
    origin_station_if_none
      (calculate_origin_station
         (get_path_type "A" "E" ["C"; "D"] ["A"; "B"; "C"; "D"; "E"])
         "A" "C" "D" ["A"; "B"; "C"; "D"; "E"])
      ["A"; "B"; "C"; "D"; "E"] ["C"; "D"] = Some o' /\
    destination_station_if_none
      (calculate_destination_station
         (get_path_type "A" "E" ["C"; "D"] ["A"; "B"; "C"; "D"; "E"])
         "E" "C" "D" ["A"; "B"; "C"; "D"; "E"])
      ["A"; "B"; "C"; "D"; "E"] ["C"; "D"] = Some d' /\
    o' ∈ ["A"; "B"; "C"; "D"; "E"] /\ d' ∈ ["A"; "B"; "C"; "D"; "E"] /\
    ("C" ∈ ["C"; "D"] -> "D" ∈ ["C"; "D"] -> o' ∈ ["C"; "D"] /\ d' ∈ ["C"; "D"]).
Proof.
  apply (remapped_endpoints_on_path "A" "E" "C" "D" ["C"; "D"]
           ["A"; "B"; "C"; "D"; "E"] eq_refl eq_refl).
  exists "C". split; compute_done.
Defined.

Lemma rows_of_first (tt : list tt_row) (pair : string) (row : tt_row) (rest : list tt_row) :
  rows_of tt pair = row :: rest ->
  exists before after, tt = before ++ row :: after /\
    station_pair row = pair /\
    Forall (fun r => station_pair r <> pair) before.
Proof.
  unfold rows_of. induction tt as [|r tt IH]; [done|].
  rewrite filter_cons. destruct (decide (station_pair r = pair)) as [Hr|Hr].
  - intros [= -> _]. exists [], tt. by repeat split.
  - intros (before & after & -> & Hp & Hall)%IH.
    exists (r :: before), after. repeat split; [done|]. by apply Forall_cons.
Qed.

Lemma rows_of_nil (tt : list tt_row) (pair : string) :
  rows_of tt pair = [] -> Forall (fun r => station_pair r <> pair) tt.
Proof.
  unfold rows_of. induction tt as [|r tt IH]; [constructor|].
  rewrite filter_cons. destruct (decide (station_pair r = pair)); [done|].
  intros H. apply Forall_cons. auto.
Qed.

(** X12: [get_directions] gives one label per hop of the path: the
    direction of the first row of the table for the pair of stations in
    the order of travel, and "NotFound" when the table has no such row. *)
Theorem get_directions_hops (tt_dist_matrix : list tt_row) (stations : list string) :
  length (get_directions tt_dist_matrix stations) = Nat.pred (length stations) /\
  forall (i : nat) (u v : string),
    stations !! i = Some u -> stations !! S i = Some v ->
    exists label, get_directions tt_dist_matrix stations !! i = Some label /\
      ((label = "NotFound" /\
        Forall (fun row => station_pair row <> pair_of u v) tt_dist_matrix) \/
       (exists before row after,
          tt_dist_matrix = before ++ row :: after /\
          station_pair row = pair_of u v /\ Direction row = label /\
          Forall (fun r => station_pair r <> pair_of u v) before)).
Proof.
  split.
  - induction stations as [|a [|b rest] IH]; [done|done|].
    cbn [get_directions length Nat.pred] in *. by rewrite IH.
  - induction stations as [|a [|b rest] IH]; intros i u v Hu Hv; [done|by destruct i|].
    destruct i as [|i].
    + injection Hu as ->. injection Hv as ->. cbn [get_directions lookup list_lookup].
      eexists. split; [done|]. unfold direction_of.
      destruct (rows_of tt_dist_matrix (pair_of u v)) as [|row rows] eqn:Hrows.
      * left. split; [done|]. by apply rows_of_nil.
      * right. apply rows_of_first in Hrows as (before & after & -> & Hp & Hall).
        by exists before, row, after.
    + cbn [get_directions]. apply (IH i u v); done.
Qed.

Lemma count_occ_not_in (l : list string) (x : string) :
  x ∉ l -> count_occ string_dec l x = 0%nat.
Proof. intros H. apply count_occ_not_In. by rewrite <- list_elem_of_In. Qed.

(** X11: [max_count_directions] answers "Outbound" exactly when the list
    has more "Outbound" than "Inbound" entries and "Inbound" otherwise,
    so on a tie, on the empty list and on a list without "Outbound"; the
    answer does not depend on the order of the entries. *)
Theorem max_count_directions_majority (lst : list string) :
  let count_Ib := count_occ string_dec lst "Inbound" in
  let count_Ob := count_occ string_dec lst "Outbound" in
  (max_count_directions lst = "Outbound" <-> (count_Ib < count_Ob)%nat) /\
  (max_count_directions lst = "Inbound" <-> (count_Ob <= count_Ib)%nat) /\
  (("Outbound" ∉ lst) -> max_count_directions lst = "Inbound") /\
  (forall lst', lst ≡ₚ lst' -> max_count_directions lst' = max_count_directions lst).
Proof.
  cbn zeta. unfold max_count_directions.
  split; [|split; [|split]].
  - repeat case_decide; split; intros; first [done|lia].
  - repeat case_decide; split; intros; first [done|lia].
  - intros Hno. rewrite (count_occ_not_in lst "Outbound" Hno).
    repeat case_decide; first [done|lia].
  - intros lst' Hperm.
    pose proof (proj1 (Permutation_count_occ string_dec lst lst') Hperm) as Hc.
    by rewrite !Hc.
Qed.

(** ** The network built by [create_network] *)

Lemma wf_graph_lookup (G : MultiGraph) :
  wf_graph G <->
  forall u nbrs, G !! u = Some nbrs ->
    NoDup nbrs.*1 /\ forall v ed, (v, ed) ∈ nbrs -> v ∈ dom G /\ NoDup ed.*1.
Proof.
  unfold wf_graph. rewrite map_Forall_lookup. split; intros H u nbrs Hu.
  - destruct (H u nbrs Hu) as [Hnd Hall]. split; [done|]. intros v ed Hin.
    rewrite Forall_forall in Hall. exact (Hall (v, ed) Hin).
  - destruct (H u nbrs Hu) as [Hnd Hall]. split; [done|].
    apply Forall_forall. intros [v ed] Hin. by apply Hall.
Qed.

Lemma add_node_lookup (u w : string) (G : MultiGraph) :
  add_node u G !! w = if decide (w = u) then Some (default [] (G !! u)) else G !! w.
Proof.
  unfold add_node. destruct (G !! u) as [nbrs|] eqn:Hu.
  - destruct (decide (w = u)) as [->|]; [by rewrite Hu|done].
  - destruct (decide (w = u)) as [->|]; [by rewrite lookup_insert_eq|].
    by rewrite lookup_insert_ne.
Qed.

Lemma add_node_dom (u : string) (G : MultiGraph) : dom (add_node u G) = {[u]} ∪ dom G.
Proof.
  unfold add_node. destruct (G !! u) as [nbrs|] eqn:Hu.
  - symmetry. apply subseteq_union_1_L, singleton_subseteq_l, elem_of_dom. eauto.
  - by rewrite dom_insert_L.
Qed.

Lemma add_node_edges_between (x u v : string) (G : MultiGraph) :
  edges_between (add_node x G) u v = edges_between G u v.
Proof.
  unfold edges_between. rewrite add_node_lookup.
  destruct (decide (u = x)) as [->|]; [|done]. by destruct (G !! x).
Qed.

Lemma add_node_nx (u : string) (G : MultiGraph) : nx_graph G -> nx_graph (add_node u G).
Proof.
  intros [Hwf Hsym Hkeys]. split.
  - apply wf_graph_lookup. intros w nbrs Hw. rewrite add_node_lookup in Hw.
    rewrite add_node_dom.
    assert (Hin : forall nbrs, G !! w = Some nbrs ->
              NoDup nbrs.*1 /\
              forall v ed, (v, ed) ∈ nbrs -> v ∈ {[u]} ∪ dom G /\ NoDup ed.*1).
    { intros n Hn. destruct (proj1 (wf_graph_lookup G) Hwf w n Hn) as [Hnd Hall].
      split; [done|]. intros v ed Hv. destruct (Hall v ed Hv).
      split; [|done]. apply elem_of_union. by right. }
    destruct (decide (w = u)) as [->|]; [|by apply Hin].
    injection Hw as <-. destruct (G !! u) as [n|] eqn:Hu; [by apply Hin|].
    split; [constructor|]. intros v ed Hv. by apply elem_of_nil in Hv.
  - intros a b. by rewrite !add_node_edges_between.
  - intros w nbrs v ed Hw Hv. rewrite add_node_lookup in Hw.
    destruct (decide (w = u)) as [->|]; [|by eapply Hkeys].
    injection Hw as <-. destruct (G !! u) as [n|] eqn:Hu; [by eapply Hkeys|].
    by apply elem_of_nil in Hv.
Qed.

Lemma put_edge_get (x v : string) (k : edge_key) (e : edge_attr) (nbrs : adjacency) :
  dict_get x (put_edge v k e nbrs)
  = if decide (x = v) then Some (default [] (dict_get v nbrs) ++ [(k, e)])
    else dict_get x nbrs.
Proof.
  induction nbrs as [|[v' ed] nbrs IH]; cbn [put_edge dict_get].
  - by destruct (decide (x = v)).
  - destruct (decide (v = v')) as [<-|Hv]; cbn [dict_get].
    + by destruct (decide (x = v)).
    + rewrite IH. destruct (decide (x = v')) as [->|Hx].
      * by rewrite decide_False by done.
      * done.
Qed.

Lemma put_edge_elem (x v : string) (k : edge_key) (e : edge_attr) (ed : edge_dict)
    (nbrs : adjacency) :
  (x, ed) ∈ put_edge v k e nbrs ->
  (x, ed) ∈ nbrs \/ (x = v /\ ed = default [] (dict_get v nbrs) ++ [(k, e)]).
Proof.
  induction nbrs as [|[v' ed'] nbrs IH]; cbn [put_edge dict_get].
  - intros [= -> ->]%list_elem_of_singleton. by right.
  - destruct (decide (v = v')) as [<-|Hv].
    + intros [Heq|Hin]%elem_of_cons; [|left; by right].
      injection Heq as -> ->. by right.
    + intros [Heq|Hin]%elem_of_cons; [left; rewrite Heq; by left|].
      apply IH in Hin as [Hin|Hin]; [left; by right|by right].
Qed.

Lemma put_edge_keys (v : string) (k : edge_key) (e : edge_attr) (nbrs : adjacency) :
  (put_edge v k e nbrs).*1
  = if decide (v ∈ nbrs.*1) then nbrs.*1 else nbrs.*1 ++ [v].
Proof.
  induction nbrs as [|[v' ed'] nbrs IH]; cbn [put_edge fmap list_fmap fst].
  - rewrite decide_False; [done|]. apply not_elem_of_nil.
  - destruct (decide (v = v')) as [<-|Hv].
    + rewrite decide_True; [done|]. by left.
    + cbn [fmap list_fmap fst]. rewrite IH.
      destruct (decide (v ∈ nbrs.*1)) as [Hin|Hin].
      * rewrite decide_True; [done|]. by right.
      * rewrite decide_False; [done|]. by intros [?|?]%elem_of_cons.
Qed.

Lemma put_edge_NoDup (v : string) (k : edge_key) (e : edge_attr) (nbrs : adjacency) :
  NoDup nbrs.*1 -> NoDup (put_edge v k e nbrs).*1.
Proof.
  intros Hnd. rewrite put_edge_keys. destruct (decide (v ∈ nbrs.*1)); [done|].
  apply NoDup_app. split; [done|]. split; [|apply NoDup_singleton].
  intros x Hx ->%list_elem_of_singleton. done.
Qed.

Lemma new_edge_key_length (G : MultiGraph) (u v : string) :
  new_edge_key G u v = length (edges_between G u v).
Proof.
  unfold new_edge_key, edges_between. destruct (G !! u) as [nbrs|]; [|done].
  cbn. by destruct (dict_get v nbrs).
Qed.

Lemma add_edge_lookup (u v : string) (e : edge_attr) (G : MultiGraph) (w : string) :
  let G1 := add_node v (add_node u G) in
  let k := length (edges_between G1 u v) in
  add_edge u v e G !! w
  = if decide (w = u) then put_edge v k e <$> G1 !! u
    else if decide (w = v) then put_edge u k e <$> G1 !! v
    else G1 !! w.
Proof.
  cbn zeta. unfold add_edge. rewrite new_edge_key_length.
  destruct (decide (u = v)) as [<-|Huv].
  - destruct (decide (w = u)) as [->|Hw]; [by rewrite lookup_alter_eq|].
    by rewrite lookup_alter_ne.
  - destruct (decide (w = u)) as [->|Hw].
    + by rewrite lookup_alter_ne, lookup_alter_eq.
    + destruct (decide (w = v)) as [->|Hw'].
      * by rewrite lookup_alter_eq, lookup_alter_ne.
      * by rewrite !lookup_alter_ne.
Qed.

Lemma add_edge_dom (u v : string) (e : edge_attr) (G : MultiGraph) :
  dom (add_edge u v e G) = {[u; v]} ∪ dom G.
Proof.
  unfold add_edge. destruct (decide (u = v)); rewrite ?dom_alter_L, !add_node_dom;
    apply set_eq; intros x;
    rewrite !elem_of_union, !elem_of_singleton; subst; tauto.
Qed.

Lemma edges_between_lookup (G : MultiGraph) (u v : string) (nbrs : adjacency) :
  G !! u = Some nbrs -> default [] (dict_get v nbrs) = edges_between G u v.
Proof. intros H. unfold edges_between. by rewrite H. Qed.

Lemma add_edge_edges_between (u v : string) (e : edge_attr) (G : MultiGraph)
    (a b : string) :
  nx_graph G ->
  edges_between (add_edge u v e G) a b
  = if decide ((a = u /\ b = v) \/ (a = v /\ b = u))
    then edges_between G u v ++ [(length (edges_between G u v), e)]
    else edges_between G a b.
Proof.
  intros Hnx.
  assert (Hnx1 : nx_graph (add_node v (add_node u G))) by by do 2 apply add_node_nx.
  assert (H1 : forall x y, edges_between (add_node v (add_node u G)) x y
                           = edges_between G x y).
  { intros x y. by rewrite !add_node_edges_between. }
  assert (Hu : is_Some (add_node v (add_node u G) !! u)).
  { apply elem_of_dom. rewrite !add_node_dom, !elem_of_union, !elem_of_singleton.
    auto. }
  assert (Hv : is_Some (add_node v (add_node u G) !! v)).
  { apply elem_of_dom. rewrite !add_node_dom, !elem_of_union, !elem_of_singleton.
    auto. }
  destruct Hu as [nu Hu], Hv as [nv Hv].
  unfold edges_between at 1. rewrite add_edge_lookup. cbn zeta. rewrite H1.
  destruct (decide (a = u)) as [->|Ha].
  - rewrite Hu. cbn [fmap option_fmap option_map mbind option_bind].
    rewrite put_edge_get. destruct (decide (b = v)) as [->|Hb].
    + rewrite decide_True by auto. cbn [default].
      by rewrite (edges_between_lookup _ _ _ _ Hu), H1.
    + destruct (decide (u = v)) as [<-|Huv].
      * rewrite decide_False by (intros [[_ ?]|[_ ?]]; done).
        rewrite <- H1. unfold edges_between. by rewrite Hu.
      * destruct (decide (b = u)) as [->|Hbu].
        -- rewrite decide_False by (intros [[_ ?]|[? _]]; done).
           rewrite <- H1. unfold edges_between. by rewrite Hu.
        -- rewrite decide_False by (intros [[_ ?]|[_ ?]]; done).
           rewrite <- H1. unfold edges_between. by rewrite Hu.
  - destruct (decide (a = v)) as [->|Hav].
    + rewrite Hv. cbn [fmap option_fmap option_map mbind option_bind].
      rewrite put_edge_get. destruct (decide (b = u)) as [->|Hb].
      * rewrite decide_True by auto. cbn [default].
        rewrite (edges_between_lookup _ _ _ _ Hv), H1.
        by rewrite (nx_undirected _ Hnx v u).
      * rewrite decide_False by (intros [[? _]|[_ ?]]; done).
        rewrite <- H1. unfold edges_between. by rewrite Hv.
    + rewrite decide_False by (intros [[? _]|[? _]]; done).
      by rewrite <- H1.
Qed.

Lemma edges_between_keys (G : MultiGraph) (u v : string) :
  nx_graph G -> (edges_between G u v).*1 = seq 0 (length (edges_between G u v)).
Proof.
  intros Hnx. unfold edges_between. destruct (G !! u) as [nbrs|] eqn:Hu; [|done].
  cbn [mbind option_bind]. destruct (dict_get v nbrs) as [ed|] eqn:Hed; [|done].
  apply dict_get_Some_elem in Hed. by destruct (nx_keys G Hnx u nbrs v ed Hu Hed).
Qed.

Lemma snoc_keys (ed : edge_dict) (e : edge_attr) :
  ed.*1 = seq 0 (length ed) ->
  (ed ++ [(length ed, e)]).*1 = seq 0 (length (ed ++ [(length ed, e)])).
Proof.
  intros H. rewrite fmap_app, length_app, H. cbn [length fmap list_fmap fst].
  by rewrite Nat.add_1_r, seq_S.
Qed.

Lemma add_edge_nx (u v : string) (e : edge_attr) (G : MultiGraph) :
  nx_graph G -> nx_graph (add_edge u v e G).
Proof.
  intros Hnx.
  assert (Hnx1 : nx_graph (add_node v (add_node u G))) by by do 2 apply add_node_nx.
  assert (Hdom1 : forall x, x ∈ dom (add_node v (add_node u G)) ->
                            x ∈ dom (add_edge u v e G)).
  { intros x. rewrite add_edge_dom, !add_node_dom, !elem_of_union, !elem_of_singleton.
    tauto. }
  assert (Hu' : u ∈ dom (add_edge u v e G)).
  { rewrite add_edge_dom, !elem_of_union, !elem_of_singleton. auto. }
  assert (Hv' : v ∈ dom (add_edge u v e G)).
  { rewrite add_edge_dom, !elem_of_union, !elem_of_singleton. auto. }
  pose proof (edges_between_keys _ u v Hnx1) as Hseq.
  assert (Hkeys : forall w nbrs x ed,
            add_edge u v e G !! w = Some nbrs -> (x, ed) ∈ nbrs ->
            ed <> [] /\ ed.*1 = seq 0 (length ed)).
  { intros w nbrs x ed Hw Hx. rewrite add_edge_lookup in Hw. cbn zeta in Hw.
    destruct (decide (w = u)) as [->|Hwu].
    - destruct (add_node v (add_node u G) !! u) as [nu|] eqn:Hu; [|done].
      injection Hw as <-.
      apply put_edge_elem in Hx as [Hx|[-> ->]]; [by eapply (nx_keys _ Hnx1)|].
      rewrite (edges_between_lookup _ _ _ _ Hu).
      split; [by destruct (edges_between _ u v)|by apply snoc_keys].
    - destruct (decide (w = v)) as [->|Hwv]; [|by eapply (nx_keys _ Hnx1)].
      destruct (add_node v (add_node u G) !! v) as [nv|] eqn:Hv; [|done].
      injection Hw as <-.
      apply put_edge_elem in Hx as [Hx|[-> ->]]; [by eapply (nx_keys _ Hnx1)|].
      rewrite (edges_between_lookup _ _ _ _ Hv), (nx_undirected _ Hnx1 v u).
      split; [by destruct (edges_between _ u v)|by apply snoc_keys]. }
  split; [|intros a b|exact Hkeys].
  - apply wf_graph_lookup. intros w nbrs Hw. split.
    + rewrite add_edge_lookup in Hw. cbn zeta in Hw.
      pose proof (proj1 (wf_graph_lookup _) (nx_wf _ Hnx1)) as Hwf1.
      destruct (decide (w = u)) as [->|Hwu].
      * destruct (add_node v (add_node u G) !! u) as [nu|] eqn:Hu; [|done].
        injection Hw as <-. apply put_edge_NoDup. by destruct (Hwf1 u nu Hu).
      * destruct (decide (w = v)) as [->|Hwv]; [|by destruct (Hwf1 w nbrs Hw)].
        destruct (add_node v (add_node u G) !! v) as [nv|] eqn:Hv; [|done].
        injection Hw as <-. apply put_edge_NoDup. by destruct (Hwf1 v nv Hv).
    + intros x ed Hx. split.
      * rewrite add_edge_lookup in Hw. cbn zeta in Hw.
        pose proof (proj1 (wf_graph_lookup _) (nx_wf _ Hnx1)) as Hwf1.
        destruct (decide (w = u)) as [->|Hwu].
        -- destruct (add_node v (add_node u G) !! u) as [nu|] eqn:Hu; [|done].
           injection Hw as <-.
           apply put_edge_elem in Hx as [Hx|[-> _]]; [|done].
           apply Hdom1. by destruct (Hwf1 u nu Hu) as [_ Hall]; destruct (Hall x ed Hx).
        -- destruct (decide (w = v)) as [->|Hwv].
           ++ destruct (add_node v (add_node u G) !! v) as [nv|] eqn:Hv; [|done].
              injection Hw as <-.
              apply put_edge_elem in Hx as [Hx|[-> _]]; [|done].
              apply Hdom1.
              by destruct (Hwf1 v nv Hv) as [_ Hall]; destruct (Hall x ed Hx).
           ++ apply Hdom1.
              by destruct (Hwf1 w nbrs Hw) as [_ Hall]; destruct (Hall x ed Hx).
      * destruct (Hkeys w nbrs x ed Hw Hx) as [_ ->]. apply NoDup_seq.
  - rewrite !add_edge_edges_between by done.
    destruct (decide ((a = u /\ b = v) \/ (a = v /\ b = u))) as [Hab|Hab].
    + rewrite decide_True by tauto. done.
    + rewrite decide_False by tauto. apply (nx_undirected _ Hnx).
Qed.

Lemma empty_nx : nx_graph (∅ : MultiGraph).
Proof.
  split.
  - apply map_Forall_empty.
  - done.
  - intros u nbrs v ed Hu. by rewrite lookup_empty in Hu.
Qed.

Lemma add_line_cons (tt : list tt_row) (line_id u v : string) (rest : list string)
    (G : MultiGraph) :
  add_line tt line_id (u :: v :: rest) G
  = add_line tt line_id (v :: rest) (add_edge u v (line_edge tt line_id u v) G).
Proof. done. Qed.

Lemma add_line_nx (tt : list tt_row) (line : string) (stations : list string) :
  forall G, nx_graph G -> nx_graph (add_line tt line stations G).
Proof.
  induction stations as [|u [|v rest] IH]; intros G HG; [done|done|].
  rewrite add_line_cons. apply IH. by apply add_edge_nx.
Qed.

Lemma foldl_preserves {A B : Type} (P : A -> Prop) (f : A -> B -> A) (l : list B) :
  (forall a b, P a -> P (f a b)) -> forall a, P a -> P (foldl f a l).
Proof. intros Hf. induction l as [|b l IH]; intros a Ha; cbn; auto. Qed.

Lemma create_network_nx (stations_df : list station_row) (tt : list tt_row) :
  nx_graph (create_network stations_df tt).
Proof.
  unfold create_network. apply foldl_preserves.
  - intros G [line stations] HG. by apply add_line_nx.
  - apply foldl_preserves; [|apply empty_nx]. intros G row HG. by apply add_node_nx.
Qed.

Section EdgesOfTheNetwork.

Variable P : string -> string -> edge_attr -> Prop.

Lemma add_node_edges_all (u : string) (G : MultiGraph) :
  edges_all P G -> edges_all P (add_node u G).
Proof.
  intros HG a nbrs b ed k x Ha Hb Hk. rewrite add_node_lookup in Ha.
  destruct (decide (a = u)) as [->|]; [|by eapply HG].
  injection Ha as <-. destruct (G !! u) as [n|] eqn:Hu; [by eapply HG|].
  by apply elem_of_nil in Hb.
Qed.

Lemma put_edge_edges_all (G : MultiGraph) (a v : string) (k0 : edge_key)
    (e : edge_attr) (nbrs : adjacency) :
  edges_all P G -> G !! a = Some nbrs -> P a v e ->
  forall b ed k x, (b, ed) ∈ put_edge v k0 e nbrs -> (k, x) ∈ ed -> P a b x.
Proof.
  intros HG Ha He b ed k x Hb Hk.
  apply put_edge_elem in Hb as [Hb|[-> ->]]; [by eapply HG|].
  apply elem_of_app in Hk as [Hk|Hk].
  - destruct (dict_get v nbrs) as [ed0|] eqn:Hed; [|by apply elem_of_nil in Hk].
    apply dict_get_Some_elem in Hed. by eapply HG.
  - apply list_elem_of_singleton in Hk. by injection Hk as -> ->.
Qed.

Lemma add_edge_edges_all (u v : string) (e : edge_attr) (G : MultiGraph) :
  edges_all P G -> P u v e -> P v u e -> edges_all P (add_edge u v e G).
Proof.
  intros HG Huv Hvu.
  assert (HG1 : edges_all P (add_node v (add_node u G)))
    by by do 2 apply add_node_edges_all.
  intros a nbrs b ed k x Ha Hb Hk. rewrite add_edge_lookup in Ha. cbn zeta in Ha.
  destruct (decide (a = u)) as [->|Hau].
  - destruct (add_node v (add_node u G) !! u) as [nu|] eqn:Hu; [|done].
    injection Ha as <-. by eapply put_edge_edges_all.
  - destruct (decide (a = v)) as [->|Hav]; [|by eapply HG1].
    destruct (add_node v (add_node u G) !! v) as [nv|] eqn:Hv; [|done].
    injection Ha as <-. by eapply put_edge_edges_all.
Qed.

End EdgesOfTheNetwork.

Lemma foldl_preserves_elem {A B : Type} (P : A -> Prop) (f : A -> B -> A) (l : list B) :
  (forall a b, b ∈ l -> P a -> P (f a b)) -> forall a, P a -> P (foldl f a l).
Proof.
  induction l as [|b l IH]; intros Hf a Ha; cbn; [done|].
  apply IH; [|apply Hf; [by left|done]]. intros a' b' Hb'. apply Hf. by right.
Qed.

Lemma train_lines_elem (stations_df : list station_row) (line_id : string)
    (stations : list string) :
  (line_id, stations) ∈ train_lines stations_df <->
  line_id ∈ Line_ID <$> stations_df /\ stations = line_stops stations_df line_id.
Proof.
  unfold train_lines, stations_group, line_stops.
  rewrite <- list_fmap_compose. rewrite list_elem_of_fmap. split.
  - intros (id & Heq & Hid). unfold compose in Heq. cbn [fst snd] in Heq.
    injection Heq as -> ->. split; [|done].
    rewrite merge_sort_Permutation in Hid. by apply (proj1 (elem_of_remove_dups _ _)).
  - intros [Hid ->]. exists line_id. split; [done|].
    rewrite merge_sort_Permutation. by apply elem_of_remove_dups.
Qed.

Lemma duration_of_nonneg (tt : list tt_row) (pair : string) :
  Forall (fun row => 0 <= duration_seconds row) tt -> 0 <= duration_of tt pair.
Proof.
  intros Hall. unfold duration_of.
  destruct (rows_of tt pair) as [|row rows] eqn:Hrows; [lia|].
  apply rows_of_first in Hrows as (before & after & -> & _ & _).
  apply Forall_app in Hall as [_ Hall]. by apply Forall_cons in Hall as [? _].
Qed.

Lemma add_line_edges_all (stations_df : list station_row) (tt : list tt_row)
    (line_id : string) (stations : list string) :
  forall pre G, line_stops stations_df line_id = pre ++ stations ->
  edges_all (from_table stations_df tt) G ->
  edges_all (from_table stations_df tt) (add_line tt line_id stations G).
Proof.
  induction stations as [|u [|v rest] IH]; intros pre G Hpre HG; [done|done|].
  rewrite add_line_cons. apply (IH (pre ++ [u])); [by rewrite <- app_assoc|].
  apply add_edge_edges_all; [done| |].
  - exists u, v. split; [auto|]. split; [by exists pre, rest|done].
  - exists u, v. split; [auto|]. split; [by exists pre, rest|done].
Qed.

Lemma create_network_edges_all (stations_df : list station_row) (tt : list tt_row) :
  edges_all (from_table stations_df tt) (create_network stations_df tt).
Proof.
  unfold create_network. apply foldl_preserves_elem.
  - intros G [line_id stations] [_ ->]%train_lines_elem HG.
    by apply (add_line_edges_all _ _ _ _ []).
  - apply foldl_preserves.
    + intros G row HG. by apply add_node_edges_all.
    + intros a nbrs b ed k x Ha. by rewrite lookup_empty in Ha.
Qed.

Lemma add_edge_has_edge_old (u v : string) (e : edge_attr) (G : MultiGraph)
    (a b : string) (x : edge_attr) :
  nx_graph G -> has_edge G a b x -> has_edge (add_edge u v e G) a b x.
Proof.
  intros Hnx [k Hk]. exists k. rewrite add_edge_edges_between by done.
  destruct (decide ((a = u /\ b = v) \/ (a = v /\ b = u))) as [Hab|Hab]; [|done].
  apply elem_of_app. left.
  destruct Hab as [[-> ->]|[-> ->]]; [done|by rewrite (nx_undirected _ Hnx)].
Qed.

Lemma add_edge_has_edge_new (u v : string) (e : edge_attr) (G : MultiGraph) :
  nx_graph G ->
  has_edge (add_edge u v e G) u v e /\ has_edge (add_edge u v e G) v u e.
Proof.
  intros Hnx. split; exists (length (edges_between G u v));
    rewrite add_edge_edges_between by done;
    (rewrite decide_True by auto); apply elem_of_app; right; by left.
Qed.

Lemma add_line_has_edge_old (tt : list tt_row) (line_id : string)
    (stations : list string) (a b : string) (x : edge_attr) :
  forall G, nx_graph G -> has_edge G a b x ->
  has_edge (add_line tt line_id stations G) a b x.
Proof.
  induction stations as [|u [|v rest] IH]; intros G Hnx H; [done|done|].
  rewrite add_line_cons. apply IH; [by apply add_edge_nx|by apply add_edge_has_edge_old].
Qed.

Lemma add_line_has_edge_new (tt : list tt_row) (line_id : string) (u v : string)
    (l2 : list string) (l1 : list string) :
  forall G, nx_graph G ->
  has_edge (add_line tt line_id (l1 ++ u :: v :: l2) G) u v (line_edge tt line_id u v) /\
  has_edge (add_line tt line_id (l1 ++ u :: v :: l2) G) v u (line_edge tt line_id u v).
Proof.
  induction l1 as [|a l1 IH]; intros G Hnx.
  - cbn [app]. rewrite add_line_cons.
    destruct (add_edge_has_edge_new u v (line_edge tt line_id u v) G Hnx) as [H1 H2].
    split; (apply add_line_has_edge_old; [by apply add_edge_nx|done]).
  - destruct l1 as [|b l1]; cbn [app]; rewrite add_line_cons; apply IH;
      by apply add_edge_nx.
Qed.

Lemma foldl_establish {A B : Type} (Pre Q : A -> Prop) (f : A -> B -> A) (b0 : B)
    (l : list B) :
  (forall a b, Pre a -> Pre (f a b)) ->
  (forall a b, Pre a -> Q a -> Q (f a b)) ->
  (forall a, Pre a -> Q (f a b0)) ->
  b0 ∈ l -> forall a, Pre a -> Q (foldl f a l).
Proof.
  intros Hpre Hq Hb0. induction l as [|b l IH]; intros Hin a Ha;
    [by apply elem_of_nil in Hin|].
  cbn [foldl]. apply elem_of_cons in Hin as [<-|Hin]; [|by apply IH, Hpre].
  apply (foldl_preserves (fun a => Pre a /\ Q a)); [|by auto].
  intros a' b' [? ?]. auto.
Qed.

Lemma consecutive_line (stations_df : list station_row) (line_id u v : string) :
  consecutive u v (line_stops stations_df line_id) ->
  line_id ∈ Line_ID <$> stations_df.
Proof.
  intros (l1 & l2 & H). unfold line_stops in H.
  destruct (filter (fun row => Line_ID row = line_id) stations_df) as [|row rows] eqn:Hf.
  { by destruct l1. }
  assert (Hrow : row ∈ filter (fun row => Line_ID row = line_id) stations_df)
    by (rewrite Hf; by left).
  apply list_elem_of_filter in Hrow as [<- Hrow]. apply list_elem_of_fmap. eauto.
Qed.

Lemma create_network_has_edge (stations_df : list station_row) (tt : list tt_row)
    (line_id u v : string) :
  consecutive u v (line_stops stations_df line_id) ->
  has_edge (create_network stations_df tt) u v (line_edge tt line_id u v) /\
  has_edge (create_network stations_df tt) v u (line_edge tt line_id u v).
Proof.
  intros Hc. pose proof (consecutive_line _ _ _ _ Hc) as Hid.
  destruct Hc as (l1 & l2 & Hl).
  unfold create_network.
  apply (foldl_establish nx_graph
           (fun G => has_edge G u v (line_edge tt line_id u v) /\
                     has_edge G v u (line_edge tt line_id u v))
           _ (line_id, line_stops stations_df line_id)).
  - intros G item HG. by apply add_line_nx.
  - intros G item HG [H1 H2]. split; by apply add_line_has_edge_old.
  - intros G HG. cbn [fst snd]. rewrite Hl. by apply add_line_has_edge_new.
  - by apply train_lines_elem.
  - apply foldl_preserves; [|apply empty_nx]. intros G row HG. by apply add_node_nx.
Qed.

Lemma add_nodes_dom (stations_df : list station_row) (s : string) :
  forall G : MultiGraph,
  s ∈ dom (foldl (fun G station => add_node (stop_name station) G) G stations_df) <->
  s ∈ dom G \/ s ∈ stop_name <$> stations_df.
Proof.
  induction stations_df as [|row rows IH]; intros G; cbn [foldl].
  - rewrite fmap_nil. split; [auto|]. intros [?|H]; [done|by apply elem_of_nil in H].
  - rewrite IH, add_node_dom, fmap_cons, elem_of_union, elem_of_singleton, elem_of_cons.
    tauto.
Qed.

Lemma add_line_dom (tt : list tt_row) (line_id : string) (stations : list string)
    (s : string) :
  forall G, (s ∈ dom G -> s ∈ dom (add_line tt line_id stations G)) /\
    (s ∈ dom (add_line tt line_id stations G) -> s ∈ dom G \/ s ∈ stations).
Proof.
  induction stations as [|u [|v rest] IH]; intros G; [by auto|by auto|].
  rewrite add_line_cons.
  destruct (IH (add_edge u v (line_edge tt line_id u v) G)) as [H1 H2].
  split.
  - intros Hs. apply H1. rewrite add_edge_dom, elem_of_union. by right.
  - intros Hs. apply H2 in Hs as [Hs|Hs].
    + rewrite add_edge_dom, !elem_of_union, !elem_of_singleton in Hs.
      destruct Hs as [[-> | ->] | Hs]; [right; by left|right; right; by left|by left].
    + right. by right.
Qed.

Lemma line_stops_elem (stations_df : list station_row) (line_id s : string) :
  s ∈ line_stops stations_df line_id -> s ∈ stop_name <$> stations_df.
Proof.
  unfold line_stops. intros (row & -> & Hrow)%list_elem_of_fmap.
  apply list_elem_of_filter in Hrow as [_ Hrow]. apply list_elem_of_fmap. eauto.
Qed.

Lemma create_network_dom (stations_df : list station_row) (tt : list tt_row)
    (s : string) :
  s ∈ dom (create_network stations_df tt) <-> s ∈ stop_name <$> stations_df.
Proof.
  unfold create_network. split.
  - apply (foldl_preserves_elem
             (fun G : MultiGraph => s ∈ dom G -> s ∈ stop_name <$> stations_df)).
    + intros G [line_id stations] [_ ->]%train_lines_elem HG Hs. cbn [fst snd] in Hs.
      apply add_line_dom in Hs as [Hs|Hs]; [by apply HG|by eapply line_stops_elem].
    + intros [Hs|Hs]%add_nodes_dom; [|done]. by rewrite dom_empty_L in Hs.
  - intros Hs. apply (foldl_preserves (fun G : MultiGraph => s ∈ dom G)).
    + intros G item HG. by apply add_line_dom.
    + apply add_nodes_dom. by right.
Qed.

Lemma edges_between_edge (G : MultiGraph) (u v : string) :
  edges_between G u v <> [] -> edge G u v.
Proof.
  unfold edges_between. intros H. destruct (G !! u) as [nbrs|] eqn:Hu; [|done].
  cbn [mbind option_bind] in H. destruct (dict_get v nbrs) as [ed|] eqn:Hed; [|done].
  exists nbrs, ed. split; [done|]. split; [by apply dict_get_Some_elem|done].
Qed.

Lemma edge_edges_between (G : MultiGraph) (u v : string) :
  wf_graph G -> edge G u v -> edges_between G u v <> [].
Proof.
  intros Hwf (nbrs & ed & Hu & Hv & Hne). unfold edges_between. rewrite Hu.
  cbn [mbind option_bind].
  destruct (wf_graph_neighbor G u v nbrs ed Hwf Hu Hv) as (_ & -> & _). done.
Qed.

Lemma nx_edge_sym (G : MultiGraph) (u v : string) :
  nx_graph G -> edge G u v -> edge G v u.
Proof.
  intros Hnx H. apply edges_between_edge. rewrite <- (nx_undirected _ Hnx).
  apply edge_edges_between; [apply (nx_wf _ Hnx)|done].
Qed.

Lemma has_edge_elem (G : MultiGraph) (a b : string) (x : edge_attr) :
  has_edge G a b x ->
  exists nbrs ed k, G !! a = Some nbrs /\ (b, ed) ∈ nbrs /\ (k, x) ∈ ed.
Proof.
  intros [k Hk]. unfold edges_between in Hk.
  destruct (G !! a) as [nbrs|] eqn:Ha; [|by apply elem_of_nil in Hk].
  cbn [mbind option_bind] in Hk.
  destruct (dict_get b nbrs) as [ed|] eqn:Hed; [|by apply elem_of_nil in Hk].
  exists nbrs, ed, k. split; [done|]. split; [by apply dict_get_Some_elem|done].
Qed.

Lemma has_edge_edge (G : MultiGraph) (a b : string) (x : edge_attr) :
  has_edge G a b x -> edge G a b.
Proof.
  intros (nbrs & ed & k & Ha & Hb & Hk)%has_edge_elem. exists nbrs, ed.
  split; [done|]. split; [done|]. intros ->. by apply elem_of_nil in Hk.
Qed.

Lemma edges_all_nonneg (G : MultiGraph) :
  edges_all (fun _ _ x => 0 <= weight x) G -> nonneg_weights G.
Proof.
  intros H. unfold nonneg_weights. apply map_Forall_lookup. intros a nbrs Ha.
  apply Forall_forall. intros [b ed] Hb. apply Forall_forall. intros [k x] Hk.
  by eapply H.
Qed.

(** X13: the graph built by [create_network] is a well-formed networkx
    graph, and it is undirected: the parallel edges from [u] to [v] are
    those from [v] to [u], with the same keys. *)
Theorem create_network_well_formed (stations_df : list station_row)
    (tt_dist_matrix : list tt_row) :
  let G := create_network stations_df tt_dist_matrix in
  wf_graph G /\
  (forall u v, edges_between G u v = edges_between G v u) /\
  (forall u v, edge G u v -> edge G v u).
Proof.
  cbn zeta. pose proof (create_network_nx stations_df tt_dist_matrix) as Hnx.
  split; [apply (nx_wf _ Hnx)|]. split; [apply (nx_undirected _ Hnx)|].
  intros u v. by apply nx_edge_sym.
Qed.

(** X14: the stations of the network are exactly the stop names of the
    station table. *)
Theorem create_network_nodes (stations_df : list station_row)
    (tt_dist_matrix : list tt_row) (s : string) :
  s ∈ dom (create_network stations_df tt_dist_matrix) <->
  s ∈ stop_name <$> stations_df.
Proof. apply create_network_dom. Qed.

(** X15: two stops that follow each other on a line are joined, in both
    directions, by an edge that carries the line, the duration of the pair
    in the table (300 when the table has no row for it) and its
    direction ("NotFound" without a row). *)
Theorem create_network_line_edges (stations_df : list station_row)
    (tt_dist_matrix : list tt_row) (line_id u v : string) :
  consecutive u v (line_stops stations_df line_id) ->
  let G := create_network stations_df tt_dist_matrix in
  let e := mk_edge line_id (duration_of tt_dist_matrix (pair_of u v))
                   (direction_of tt_dist_matrix (pair_of u v)) in
  has_edge G u v e /\ has_edge G v u e /\ edge G u v /\ edge G v u.
Proof.
  intros Hc. cbn zeta.
  destruct (create_network_has_edge stations_df tt_dist_matrix line_id u v Hc)
    as [H1 H2].
  split; [done|]. split; [done|]. split; by eapply has_edge_edge.
Qed.

Lemma create_network_line_edges_witness :
  consecutive "B" "C" (line_stops example_stations "L1") /\
  has_edge (create_network example_stations example_tt) "B" "C"
           (mk_edge "L1" 300 "NotFound") /\
  has_edge (create_network example_stations example_tt) "C" "B"
           (mk_edge "L1" 300 "NotFound").
Proof.
  assert (Hc : consecutive "B" "C" (line_stops example_stations "L1"))
    by by exists ["A"], [].
  split; [exact Hc|].
  destruct (create_network_line_edges example_stations example_tt "L1" "B" "C" Hc)
    as (H1 & H2 & _).
  split; [exact H1|exact H2].
Defined.

(** X16: every edge of the network comes from two stops that follow each
    other on the line of the edge, and carries the duration and the
    direction of that pair in the table, or 300 and "NotFound". *)
Theorem create_network_edges_from_table (stations_df : list station_row)
    (tt_dist_matrix : list tt_row) (a b : string) (x : edge_attr) :
  has_edge (create_network stations_df tt_dist_matrix) a b x ->
  exists u v, ((a = u /\ b = v) \/ (a = v /\ b = u)) /\
    consecutive u v (line_stops stations_df (line x)) /\
    weight x = duration_of tt_dist_matrix (pair_of u v) /\
    direction x = direction_of tt_dist_matrix (pair_of u v).
Proof.
  intros (nbrs & ed & k & Ha & Hb & Hk)%has_edge_elem.
  destruct (create_network_edges_all stations_df tt_dist_matrix a nbrs b ed k x
              Ha Hb Hk) as (u & v & Hor & Hc & Hx).
  exists u, v. split; [done|]. split; [done|]. by rewrite Hx.
Qed.

Lemma create_network_edges_from_table_witness :
  has_edge (create_network example_stations example_tt) "B" "A"
           (mk_edge "L1" 120 "Inbound") /\
  exists u v, (("B" = u /\ "A" = v) \/ ("B" = v /\ "A" = u)) /\
    consecutive u v (line_stops example_stations "L1") /\
    120 = duration_of example_tt (pair_of u v) /\
    "Inbound" = direction_of example_tt (pair_of u v).
Proof.
  assert (H : has_edge (create_network example_stations example_tt) "B" "A"
                       (mk_edge "L1" 120 "Inbound")).
  { exists 0%nat. vm_compute. by left. }
  split; [exact H|].
  exact (create_network_edges_from_table example_stations example_tt "B" "A"
           (mk_edge "L1" 120 "Inbound") H).
Defined.

(** X17: when no duration of the table is negative, no edge of the network
    has a negative weight. *)
Theorem create_network_nonneg (stations_df : list station_row)
    (tt_dist_matrix : list tt_row) :
  Forall (fun row => 0 <= duration_seconds row) tt_dist_matrix ->
  nonneg_weights (create_network stations_df tt_dist_matrix).
Proof.
  intros Hall. apply edges_all_nonneg. intros a nbrs b ed k x Ha Hb Hk.
  destruct (create_network_edges_all stations_df tt_dist_matrix a nbrs b ed k x
              Ha Hb Hk) as (u & v & _ & _ & ->).
  by apply duration_of_nonneg.
Qed.

Lemma create_network_nonneg_witness :
  Forall (fun row => 0 <= duration_seconds row) example_tt /\
  nonneg_weights (create_network example_stations example_tt).
Proof.
  assert (H : Forall (fun row => 0 <= duration_seconds row) example_tt).
  { apply Forall_singleton. cbn. lia. }
  split; [exact H|]. exact (create_network_nonneg example_stations example_tt H).
Defined.

(** ** Routes on networks without negative costs *)

(** What the router and the summary give for a query between two stations
    of a network without negative costs that are joined by a path. *)
Lemma find_fastest_route_walk (G : MultiGraph) (origin destination : string)
    (p : Z) :
  wf_graph G -> nonneg_weights G -> 0 <= p ->
  origin ∈ dom G -> destination ∈ dom G -> reachable G origin destination ->
  exists stations lines keys es s,
    custom_fastest_path p G origin destination = Ret (stations, lines, keys) /\
    summarize G p lines stations keys init_summary = Ret s /\
    find_fastest_route G origin destination p = Ret (Some (make_route p stations s)) /\
    head stations = Some origin /\ last stations = Some destination /\
    NoDup stations /\ length stations = S (length keys) /\
    traversed G stations keys = Some es /\ lines_agree lines stations es.
Proof.
  intros Hwf Hnn Hp Ho Hd Hreach.
  destruct (decide (origin = destination)) as [<-|Hne].
  - exists [origin], ((fun _ => None) <$> G), [], [], init_summary.
    pose proof (custom_fastest_path_same G origin p Ho) as Hc.
    split; [done|]. split; [done|]. split.
    { unfold find_fastest_route. by rewrite Hc. }
    repeat split; try done; [apply NoDup_singleton|constructor].
  - destruct (custom_fastest_path_route G origin destination p)
      as (stations & lines & keys & es & Hc & Hhead & Hlast & Hnd & Hlen & Hes & Hagree);
      try done.
    destruct (summarize_total G p lines stations keys es init_summary Hes) as [s Hs].
    { eapply Forall2_Forall_l; [exact Hagree|].
      apply Forall_true. intros e v Hv. by rewrite Hv. }
    exists stations, lines, keys, es, s. split; [done|]. split; [done|]. split.
    { unfold find_fastest_route. rewrite Hc. cbn [mbind outcome_bind]. by rewrite Hs. }
    done.
Qed.

(** The same for a route that was returned. *)
Lemma find_fastest_route_returned (G : MultiGraph) (origin destination : string)
    (p : Z) (r : route) :
  wf_graph G -> nonneg_weights G -> 0 <= p ->
  find_fastest_route G origin destination p = Ret (Some r) ->
  exists lines keys es s,
    custom_fastest_path p G origin destination = Ret (path r, lines, keys) /\
    summarize G p lines (path r) keys init_summary = Ret s /\
    r = make_route p (path r) s /\
    origin ∈ dom G /\ destination ∈ dom G /\
    head (path r) = Some origin /\ last (path r) = Some destination /\
    NoDup (path r) /\ length (path r) = S (length keys) /\
    traversed G (path r) keys = Some es /\ lines_agree lines (path r) es.
Proof.
  intros Hwf Hnn Hp H.
  destruct (find_fastest_route_stations G origin destination p r Hwf H)
    as (Ho & Hd & Hreach).
  destruct (find_fastest_route_walk G origin destination p Hwf Hnn Hp Ho Hd Hreach)
    as (stations & lines & keys & es & s & Hc & Hs & Hf & Hrest).
  rewrite Hf in H. injection H as <-. cbn [path make_route].
  exists lines, keys, es, s. by repeat (split; [done|]).
Qed.

(** X1: on a network without negative costs and with a penalty that is not
    negative, a query between two stations of the network always returns:
    a route when a path joins them, and [None] when none does. *)
Theorem find_fastest_route_decides (G : MultiGraph) (origin destination : string)
    (transfer_penalty : Z) :
  wf_graph G -> nonneg_weights G -> 0 <= transfer_penalty ->
  origin ∈ dom G -> destination ∈ dom G ->
  (reachable G origin destination /\
   exists r, find_fastest_route G origin destination transfer_penalty = Ret (Some r)) \/
  (~ reachable G origin destination /\
   find_fastest_route G origin destination transfer_penalty = Ret None).
Proof.
  intros Hwf Hnn Hp Ho Hd.
  destruct (reachable_dec G origin destination Hwf Ho) as [Hreach|Hno].
  - left. split; [done|].
    destruct (find_fastest_route_walk G origin destination transfer_penalty
                Hwf Hnn Hp Ho Hd Hreach)
      as (stations & lines & keys & es & s & _ & _ & Hf & _).
    eauto.
  - right. split; [done|]. unfold find_fastest_route.
    by rewrite custom_fastest_path_no_path.
Qed.

Lemma find_fastest_route_decides_witness :
  (reachable two_lines_and_F "A" "E" /\
   exists r, find_fastest_route two_lines_and_F "A" "E" 900 = Ret (Some r)) \/
  (~ reachable two_lines_and_F "A" "E" /\
   find_fastest_route two_lines_and_F "A" "E" 900 = Ret None).
Proof.
  apply (find_fastest_route_decides two_lines_and_F "A" "E" 900);
    [compute_done|compute_done|lia|compute_done|compute_done].
Defined.

Lemma traversed_hops (G : MultiGraph) (stations : list string) :
  forall keys es, traversed G stations keys = Some es ->
  Forall (fun h => edge G h.1 h.2) (hops stations) /\ length es = length (hops stations).
Proof.
  unfold hops.
  induction stations as [|u [|v rest] IH]; intros keys es H.
  - cbn in *. by injection H as <-.
  - cbn in *. by injection H as <-.
  - apply traversed_cons_inv in H
      as (k & keys' & nbrs & ed & e & es' & -> & Hn & Hed & He & Hes' & ->).
    destruct (IH keys' es' Hes') as [IH1 IH2].
    cbn [tail zip zip_with length]. cbn [tail] in IH1, IH2. split; [|by rewrite IH2].
    apply Forall_cons. split; [|done]. cbn [fst snd].
    exists nbrs, ed. split; [done|]. split; [by apply dict_get_Some_elem|].
    intros ->. done.
Qed.

(** X2: on a network without negative costs, the path of a returned route
    visits no station twice, consists of stations of the network, and
    each of its hops is an edge of the network. *)
Theorem route_is_simple_walk (G : MultiGraph) (origin destination : string)
    (transfer_penalty : Z) (r : route) :
  wf_graph G -> nonneg_weights G -> 0 <= transfer_penalty ->
  find_fastest_route G origin destination transfer_penalty = Ret (Some r) ->
  NoDup (path r) /\
  Forall (fun s => s ∈ dom G) (path r) /\
  Forall (fun h => edge G h.1 h.2) (hops (path r)).
Proof.
  intros Hwf Hnn Hp H.
  destruct (find_fastest_route_returned G origin destination transfer_penalty r
              Hwf Hnn Hp H)
    as (lines & keys & es & s & _ & _ & _ & _ & Hd & _ & Hlast & Hnd & _ & Hes & _).
  split; [done|]. split.
  - by eapply traversed_stations.
  - by eapply traversed_hops.
Qed.

Lemma route_is_simple_walk_witness :
  exists r, find_fastest_route hub_network "S" "T" 900 = Ret (Some r) /\
    NoDup (path r) /\
    Forall (fun s => s ∈ dom hub_network) (path r) /\
    Forall (fun h => edge hub_network h.1 h.2) (hops (path r)).
Proof.
  eexists. split; [vm_compute; reflexivity|].
  apply (route_is_simple_walk hub_network "S" "T" 900);
    [compute_done|compute_done|lia|vm_compute; reflexivity].
Defined.





Section SummaryOfTheLines.

Variable G : MultiGraph.
Variable transfer_penalty : Z.
Variable line_changes : gmap string (option string).

Lemma next_summary_lines (u : string) (l : string) (w : Z) (s : summary) :
  let s' := next_summary transfer_penalty u (Some l) w s in
  s_current_line s' = Some l /\
  s_transfers s'
  = s_transfers s ++ (if decide (Some l ≠ s_current_line s)
                      then match s_current_line s with Some _ => [u] | None => [] end
                      else []) /\
  s_lines_used s'
  = s_lines_used s ++ (if decide (Some l ≠ s_current_line s) then [Some l] else []).
Proof.
  cbn zeta. unfold next_summary.
  destruct (decide (Some l ≠ s_current_line s)) as [Hne|Heq]; cbn.
  - destruct (s_current_line s); cbn; by rewrite ?app_nil_r.
  - rewrite !app_nil_r. split; [|done]. symmetry. by apply dec_stable.
Qed.

Lemma summarize_lines (stations : list string) :
  forall (keys : list (option edge_key)) (es : list edge_attr) (s s' : summary),
  traversed G stations keys = Some es ->
  lines_agree line_changes stations es ->
  summarize G transfer_penalty line_changes stations keys s = Ret s' ->
  s_transfers s' = s_transfers s ++ changes_from (s_current_line s) stations es /\
  s_lines_used s' = s_lines_used s ++ runs_from (s_current_line s) es.
Proof.
  induction stations as [|u [|v rest] IH]; intros keys es s s' Ht Hl H.
  - injection H as <-. injection Ht as <-. cbn. by rewrite !app_nil_r.
  - injection H as <-. injection Ht as <-. cbn. by rewrite !app_nil_r.
  - rewrite summarize_cons in H. apply bind_Ret_inv in H as (s1 & Hstep & H).
    apply summary_step_Ret in Hstep
      as (nbrs & ed & k & keys' & e & lc & Hn & Hed & -> & He & Hlc & ->).
    apply traversed_cons_inv in Ht
      as (k0 & keys0 & nbrs0 & ed0 & e0 & es' & [= <- <-] & Hn0 & Hed0 & He0 & Hes' & ->).
    rewrite Hn in Hn0. injection Hn0 as <-. rewrite Hed in Hed0. injection Hed0 as <-.
    rewrite He in He0. injection He0 as <-.
    unfold lines_agree in Hl. cbn [tail] in Hl.
    apply Forall2_cons in Hl as [Hv Hl]. rewrite Hlc in Hv. injection Hv as ->.
    cbn [tail] in H.
    destruct (next_summary_lines u (line e) (weight e) s) as (Hcur & Htr & Hlu).
    destruct (IH keys' es' _ s' Hes' Hl H) as [IH1 IH2].
    rewrite IH1, IH2, Hcur, Htr, Hlu, <- !app_assoc. cbn [changes_from runs_from].
    done.
Qed.

End SummaryOfTheLines.



Lemma no_repeat_snoc {A : Type} (l : list A) (x y : A) :
  no_repeat (l ++ [x]) -> x <> y -> no_repeat ((l ++ [x]) ++ [y]).
Proof.
  intros Hl Hxy i a b Ha Hb.
  destruct (decide (S i < length (l ++ [x]))%nat) as [Hlt|Hge].
  - rewrite lookup_app_l in Ha by lia. rewrite lookup_app_l in Hb by lia.
    by eapply Hl.
  - rewrite length_app in Hge. cbn [length] in Hge.
    assert (Hi : i = length l).
    { apply lookup_lt_Some in Hb. rewrite !length_app in Hb. cbn [length] in Hb. lia. }
    subst i.
    rewrite lookup_app_l in Ha by (rewrite length_app; cbn; lia).
    rewrite lookup_app_r in Ha by lia. rewrite Nat.sub_diag in Ha. injection Ha as <-.
    rewrite lookup_app_r in Hb by (rewrite length_app; cbn; lia).
    rewrite length_app in Hb. cbn [length] in Hb.
    replace (S (length l) - (length l + 1))%nat with 0%nat in Hb by lia.
    by injection Hb as <-.
Qed.

Lemma no_repeat_singleton {A : Type} (x : A) : no_repeat [x].
Proof. intros [|i] a b Ha Hb; done. Qed.

Section SummaryOfTheSegments.

Variable G : MultiGraph.
Variable transfer_penalty : Z.
Variable line_changes : gmap string (option string).

Lemma next_summary_joints_first (u : string) (l : string) (w : Z) :
  summary_joints u (next_summary transfer_penalty u (Some l) w init_summary).
Proof.
  unfold next_summary, summary_joints. cbn.
  exists [], (mk_segment u None (Some l) (0 + w)).
  repeat split; eauto. apply no_repeat_singleton.
Qed.

Lemma next_summary_joints (first u : string) (l : string) (w : Z) (s : summary) :
  summary_joints first s ->
  summary_joints first (next_summary transfer_penalty u (Some l) w s).
Proof.
  intros (segs & g & Hsegs & Hfrom & Hto & Hopen & Hlines & Hline & [c Hc] & Hnr).
  unfold summary_joints, next_summary. rewrite Hc, Hsegs.
  destruct (decide (Some l ≠ Some c)) as [Hne|Heq]; cbn.
  - rewrite !alter_last_snoc.
    exists (segs ++ [set_to_station u g]), (add_time w (mk_segment u None (Some l) 0)).
    split; [done|]. split; [|split; [|split; [|split; [|split; [|split]]]]].
    + rewrite !fmap_app in *. cbn in *. rewrite Hfrom. done.
    + rewrite !fmap_app. cbn. by rewrite Hto.
    + done.
    + rewrite !fmap_app in *. cbn in *. by rewrite <- Hlines.
    + done.
    + eauto.
    + rewrite <- Hlines, fmap_app in Hnr. rewrite <- Hlines, fmap_app.
      apply (no_repeat_snoc _ (seg_line g) (Some l) Hnr).
      rewrite Hline, Hc. congruence.
  - rewrite alter_last_snoc. exists segs, (add_time w g).
    split; [done|]. split; [|split; [|split; [|split; [|split; [|split]]]]].
    + rewrite !fmap_app in *. by cbn in *.
    + done.
    + done.
    + rewrite !fmap_app in *. by cbn in *.
    + by rewrite Hc in Hline.
    + eauto.
    + done.
Qed.

Lemma summarize_joints (first : string) (stations : list string) :
  forall (keys : list (option edge_key)) (s s' : summary),
  Forall (fun v => exists l, line_changes !! v = Some (Some l)) (tail stations) ->
  summary_joints first s ->
  summarize G transfer_penalty line_changes stations keys s = Ret s' ->
  summary_joints first s'.
Proof.
  induction stations as [|u [|v rest] IH]; intros keys s s' Hl Hok H.
  - by injection H as <-.
  - by injection H as <-.
  - rewrite summarize_cons in H. apply bind_Ret_inv in H as (s1 & Hstep & H).
    apply summary_step_Ret in Hstep
      as (nbrs & ed & k & keys' & e & lc & Hn & Hed & -> & He & Hlc & ->).
    cbn [tail] in Hl. apply Forall_cons in Hl as [[l Hv] Hl].
    rewrite Hlc in Hv. injection Hv as ->.
    eapply IH; [exact Hl| |exact H]. by apply next_summary_joints.
Qed.

Lemma summarize_joints_first (u v : string) (rest : list string)
    (keys : list (option edge_key)) (s' : summary) :
  Forall (fun v => exists l, line_changes !! v = Some (Some l)) (v :: rest) ->
  summarize G transfer_penalty line_changes (u :: v :: rest) keys init_summary = Ret s' ->
  summary_joints u s'.
Proof.
  intros Hl H. rewrite summarize_cons in H. apply bind_Ret_inv in H as (s1 & Hstep & H).
  apply summary_step_Ret in Hstep
    as (nbrs & ed & k & keys' & e & lc & Hn & Hed & -> & He & Hlc & ->).
  apply Forall_cons in Hl as [[l Hv] Hl].
  rewrite Hlc in Hv. injection Hv as ->.
  eapply (summarize_joints u (v :: rest)); [exact Hl| |exact H].
  apply next_summary_joints_first.
Qed.

End SummaryOfTheSegments.

(** X4: in every route that is returned with at least two stations, the
    segments start at the origin of the path and then at each transfer,
    they end at each transfer and then at the end of the path, their
    lines are the lines used, and no line used is followed by itself. *)
Theorem segments_follow_transfers (G : MultiGraph) (origin destination : string)
    (transfer_penalty : Z) (r : route) :
  find_fastest_route G origin destination transfer_penalty = Ret (Some r) ->
  (2 <= length (path r))%nat ->
  exists first final,
    head (path r) = Some first /\ last (path r) = Some final /\
    from_station <$> segments r = first :: transfers r /\
    to_station <$> segments r = Some <$> (transfers r ++ [final]) /\
    seg_line <$> segments r = lines_used r /\
    no_repeat (lines_used r).
Proof.
  intros (stations & lc & keys & s & Hc & Hs & ->)%find_fastest_route_Some Hlen.
  apply custom_fastest_path_shape in Hc as (Hlast & first & rest & -> & Hlines).
  destruct rest as [|v rest]; [cbn in Hlen; lia|].
  apply summarize_joints_first in Hs; [|done].
  destruct Hs as (segs & g & Hsegs & Hfrom & Hto & Hopen & Hl & _ & _ & Hnr).
  exists first, destination. split; [done|]. split; [done|].
  unfold make_route. cbn [path segments transfers lines_used].
  rewrite Hlast, Hsegs, alter_last_snoc.
  split; [|split; [|split]]; [| | |done].
  - rewrite fmap_app in *. by cbn in *.
  - rewrite !fmap_app. cbn. by rewrite Hto.
  - rewrite fmap_app in *. by cbn in *.
Qed.

Lemma segments_follow_transfers_witness :
  exists r, find_fastest_route two_lines "A" "E" 50 = Ret (Some r) /\
    (2 <= length (path r))%nat /\
    exists first final,
      head (path r) = Some first /\ last (path r) = Some final /\
      from_station <$> segments r = first :: transfers r /\
      to_station <$> segments r = Some <$> (transfers r ++ [final]) /\
      seg_line <$> segments r = lines_used r /\
      no_repeat (lines_used r).
Proof.
  eexists. split; [vm_compute; reflexivity|]. split; [cbn; lia|].
  apply (segments_follow_transfers two_lines "A" "E" 50).
  - vm_compute. reflexivity.
  - cbn. lia.
Defined.

Lemma reachable_trans (G : MultiGraph) (u v w : string) :
  reachable G u v -> reachable G v w -> reachable G u w.
Proof.
  intros Huv Hvw. induction Hvw as [|x y _ IH Hxy]; [done|].
  by eapply reach_step.
Qed.

Lemma reachable_sym (G : MultiGraph) (u v : string) :
  (forall a b, edge G a b -> edge G b a) -> reachable G u v -> reachable G v u.
Proof.
  intros Hsym H. induction H as [|x y _ IH Hxy]; [constructor|].
  eapply reachable_trans; [|exact IH].
  eapply reach_step; [constructor|]. by apply Hsym.
Qed.

Lemma hops_reachable (G : MultiGraph) (stations : list string) (first : string) :
  head stations = Some first ->
  Forall (fun h => edge G h.1 h.2) (hops stations) ->
  forall x, x ∈ stations -> reachable G first x.
Proof.
  unfold hops. revert first.
  induction stations as [|u [|v rest] IH]; intros first Hhead Hall x Hx; [done| |].
  - injection Hhead as <-. apply list_elem_of_singleton in Hx as ->. constructor.
  - injection Hhead as <-. cbn [tail zip zip_with] in Hall.
    apply Forall_cons in Hall as [Huv Hall]. cbn [fst snd] in Huv.
    apply elem_of_cons in Hx as [->|Hx]; [constructor|].
    eapply reachable_trans; [eapply reach_step; [constructor|exact Huv]|].
    by apply (IH v).
Qed.

(** What happens to a trip that passes the filter of the affected trips,
    on an undirected network without negative costs. *)
Lemma rerouting_of_affected_trip (G : MultiGraph) (origin destination ib ob : string)
    (selected_closed_stations : list string) (r : route) :
  wf_graph G -> nonneg_weights G -> (forall a b, edge G a b -> edge G b a) ->
  find_fastest_route G origin destination 900 = Ret (Some r) ->
  affected_OD (Some r) selected_closed_stations = Ret true ->
  let path_type :=
    get_path_type origin destination selected_closed_stations (path r) in
  exists new_origin new_destination r',
    origin_station_if_none
      (calculate_origin_station path_type origin ib ob (path r))
      (path r) selected_closed_stations = Some new_origin /\
    destination_station_if_none
      (calculate_destination_station path_type destination ib ob (path r))
      (path r) selected_closed_stations = Some new_destination /\
    new_origin ∈ path r /\ new_destination ∈ path r /\
    find_fastest_route G new_origin new_destination 900 = Ret (Some r').
Proof.
  intros Hwf Hnn Hsym Hr Haff. cbn zeta.
  assert (Hp : 0 <= 900) by lia.
  destruct (find_fastest_route_returned G origin destination 900 r Hwf Hnn Hp Hr)
    as (lines & keys & es & s & _ & _ & _ & Ho & Hd & Hhead & Hlast & _ & _ & Hes & _).
  apply affected_OD_Some in Haff as (c & Hc & Hcp).
  destruct (remapped_endpoints origin destination ib ob selected_closed_stations (path r)
              Hhead Hlast (ex_intro _ c (conj Hcp Hc)))
    as (o' & d' & Hno & Hnd & Ho' & Hd' & _).
  assert (Hdom : Forall (fun x => x ∈ dom G) (path r)) by by eapply traversed_stations.
  rewrite Forall_forall in Hdom.
  assert (Hhops : Forall (fun h => edge G h.1 h.2) (hops (path r)))
    by by eapply traversed_hops.
  assert (Hreach : reachable G o' d').
  { eapply reachable_trans; [|by eapply hops_reachable].
    apply reachable_sym; [done|]. by eapply hops_reachable. }
  destruct (find_fastest_route_walk G o' d' 900 Hwf Hnn Hp (Hdom o' Ho') (Hdom d' Hd')
              Hreach)
    as (stations' & lines' & keys' & es' & s' & _ & _ & Hf & _).
  exists o', d', (make_route 900 stations' s'). by repeat (split; [done|]).
Qed.

(** X20: on the network built from the tables, when no duration of the
    travel-time table is negative, a trip that passes the filter of the
    affected trips goes through the rest of the analysis without an
    error: both remapped endpoints exist, they are stations of the first
    route, and the query between them returns a route. *)
Theorem affected_trip_is_rerouted (stations_df : list station_row)
    (tt_dist_matrix : list tt_row) (origin destination ib ob : string)
    (selected_closed_stations : list string) (r : route) :
  Forall (fun row => 0 <= duration_seconds row) tt_dist_matrix ->
  let G := create_network stations_df tt_dist_matrix in
  find_fastest_route G origin destination 900 = Ret (Some r) ->
  affected_OD (Some r) selected_closed_stations = Ret true ->
  let path_type :=
    get_path_type origin destination selected_closed_stations (path r) in
  exists new_origin new_destination r',
    origin_station_if_none
      (calculate_origin_station path_type origin ib ob (path r))
      (path r) selected_closed_stations = Some new_origin /\
    destination_station_if_none
      (calculate_destination_station path_type destination ib ob (path r))
      (path r) selected_closed_stations = Some new_destination /\
    new_origin ∈ path r /\ new_destination ∈ path r /\
    find_fastest_route G new_origin new_destination 900 = Ret (Some r').
Proof.
  intros Hall G. pose proof (create_network_nx stations_df tt_dist_matrix) as Hnx.
  apply rerouting_of_affected_trip.
  - apply (nx_wf _ Hnx).
  - apply edges_all_nonneg. intros a nbrs b ed k x Ha Hb Hk.
    destruct (create_network_edges_all stations_df tt_dist_matrix a nbrs b ed k x
                Ha Hb Hk) as (u & v & _ & _ & ->).
    by apply duration_of_nonneg.
  - intros a b. by apply nx_edge_sym.
Qed.

Lemma affected_trip_is_rerouted_witness :
  Forall (fun row => 0 <= duration_seconds row) example_tt /\
  exists r,
    find_fastest_route (create_network example_stations example_tt) "A" "D" 900
    = Ret (Some r) /\
    affected_OD (Some r) ["B"; "C"] = Ret true /\
    exists new_origin new_destination r',
      origin_station_if_none
        (calculate_origin_station (get_path_type "A" "D" ["B"; "C"] (path r))
           "A" "B" "C" (path r))
        (path r) ["B"; "C"] = Some new_origin /\
      destination_station_if_none
        (calculate_destination_station (get_path_type "A" "D" ["B"; "C"] (path r))
           "D" "B" "C" (path r))
        (path r) ["B"; "C"] = Some new_destination /\
      new_origin ∈ path r /\ new_destination ∈ path r /\
      find_fastest_route (create_network example_stations example_tt)
        new_origin new_destination 900 = Ret (Some r').
Proof.
  assert (H : Forall (fun row => 0 <= duration_seconds row) example_tt).
  { apply Forall_singleton. cbn. lia. }
  split; [exact H|].
  eexists. split; [vm_compute; reflexivity|]. split; [vm_compute; reflexivity|].
  apply (affected_trip_is_rerouted example_stations example_tt "A" "D" "B" "C"
           ["B"; "C"] _ H).
  - vm_compute. reflexivity.
  - vm_compute. reflexivity.
Defined.

Lemma search_loop_more_fuel (p : Z) (G : MultiGraph) (target : string) (fuel : nat) :
  forall st, search_loop p fuel G target st <> OutOfFuel ->
  search_loop p (S fuel) G target st = search_loop p fuel G target st.
Proof.
  induction fuel as [|fuel IH]; intros st H; [done|].
  change (search_loop p (S (S fuel)) G target st) with
    (match heappop (pq st) with
     | None => Ret st
     | Some ((current_distance, current_node, prev_line), h) =>
       let st := set_pq h st in
       if decide (current_node = target) then Ret st
       else if decide (current_node ∈ visited st) then search_loop p (S fuel) G target st
       else
         st' ← relax_all p G current_node current_distance prev_line
                  (visit current_node st);
         search_loop p (S fuel) G target st'
     end).
  cbn [search_loop] in H |- *.
  destruct (heappop (pq st)) as [[[[d u] l] h]|]; [|done]. cbn zeta in *.
  destruct (decide (u = target)); [done|].
  destruct (decide (u ∈ visited (set_pq h st))); [by apply IH|].
  destruct (relax_all p G u d l (visit u (set_pq h st))) as [st'| |]; [|done|done].
  cbn [mbind outcome_bind] in *. by apply IH.
Qed.

(** X5: the [while pq:] loop of the router ends on every graph, whatever
    the weights and the penalty, within one iteration per edge end and
    one more: the bound on the iterations that [custom_fastest_path]
    passes is not reached, and a larger one gives the same state. *)
Theorem search_loop_terminates (transfer_penalty : Z) (G : MultiGraph)
    (source target : string) (extra : nat) :
  search_loop transfer_penalty (2 + total_degree G) G target (init_search G source)
  <> OutOfFuel /\
  search_loop transfer_penalty (extra + (2 + total_degree G)) G target
    (init_search G source)
  = search_loop transfer_penalty (2 + total_degree G) G target (init_search G source).
Proof.
  assert (H : search_loop transfer_penalty (2 + total_degree G) G target
                (init_search G source) <> OutOfFuel).
  { apply search_loop_ends. unfold potential. cbn [pq visited init_search length].
    rewrite unvisited_degree_empty. lia. }
  split; [done|]. induction extra as [|extra IH]; [done|].
  replace (S extra + (2 + total_degree G))%nat
    with (S (extra + (2 + total_degree G))) by lia.
  rewrite search_loop_more_fuel; rewrite IH; done.
Qed.

(** X6: when [find_fastest_route] gives no result at all, the search loop
    has ended and it is the reconstruction of the path that never ends:
    the predecessors of the destination lead into a cycle. *)
Theorem no_result_is_endless_reconstruction (G : MultiGraph)
    (origin destination : string) (transfer_penalty : Z) :
  find_fastest_route G origin destination transfer_penalty = OutOfFuel ->
  exists st,
    search_loop transfer_penalty (2 + total_degree G) G destination
      (init_search G origin) = Ret st /\
    forall fuel,
      walk_back fuel (previous st) (previous_edge_keys st) (Some destination)
      = OutOfFuel.
Proof. apply find_fastest_route_no_result. Qed.

Lemma no_result_is_endless_reconstruction_witness :
  find_fastest_route two_lines "A" "E" (-1000) = OutOfFuel /\
  exists st,
    search_loop (-1000) (2 + total_degree two_lines) two_lines "E"
      (init_search two_lines "A") = Ret st /\
    forall fuel,
      walk_back fuel (previous st) (previous_edge_keys st) (Some "E") = OutOfFuel.
Proof.
  assert (H : find_fastest_route two_lines "A" "E" (-1000) = OutOfFuel)
    by (vm_compute; reflexivity).
  split; [exact H|].
  exact (no_result_is_endless_reconstruction two_lines "A" "E" (-1000) H).
Defined.

(** ** The labels of the search *)

Lemma init_search_labels (p : Z) (G : MultiGraph) (source : string) :
  source ∈ dom G -> search_labels p G source ∅ (init_search G source).
Proof.
  intros [nbrs Hs]%elem_of_dom. split; unfold label_chain, label_closed; cbn.
  - by rewrite lookup_fmap, Hs.
  - intros d v l Hin%list_elem_of_singleton _. injection Hin as -> -> ->.
    by rewrite lookup_fmap, Hs.
  - intros v dv _ Hv. destruct (decide (source = v)) as [->|Hne].
    + rewrite lookup_insert_eq in Hv. injection Hv as <-. exists None. by left.
    + rewrite lookup_insert_ne, lookup_fmap in Hv by done.
      destruct (G !! v); discriminate.
  - intros v u Hv. rewrite lookup_fmap in Hv. destruct (G !! v); discriminate.
  - intros u ? ? ? ? ? Hu. by apply elem_of_empty in Hu.
Qed.

Section Labels.

Variable transfer_penalty : Z.
Variable G : MultiGraph.
Variables source target : string.
Hypothesis Hwf : wf_graph G.
Hypothesis Hnonneg : nonneg_weights G.
Hypothesis Hpenalty : 0 <= transfer_penalty.

(** A relaxation never raises a label, and after it the label of the
    neighbour is at most the distance over the edge. *)
Lemma relax_decreases (u : string) (d : Z) (l : option string) (v : string)
    (st st' : search) (item : edge_key * edge_attr) (x : string) (dx : Z) :
  relax transfer_penalty u d l v st item = Ret st' ->
  distances st !! x = Some (Finite dx) ->
  exists dx', distances st' !! x = Some (Finite dx') /\ dx' <= dx.
Proof.
  destruct item as [k e].
  intros (dv & Hdv & [[_ ->]|[Hlt ->]])%relax_Ret Hx; [exists dx; split; [done|lia]|].
  cbn. destruct (decide (v = x)) as [->|Hne].
  - rewrite lookup_insert_eq. eexists. split; [done|].
    rewrite Hdv in Hx. injection Hx as ->. cbn in Hlt.
    apply bool_decide_eq_true in Hlt. lia.
  - rewrite lookup_insert_ne by done. exists dx. split; [done|lia].
Qed.

Lemma relax_reaches (u : string) (d : Z) (l : option string) (v : string)
    (st st' : search) (k : edge_key) (e : edge_attr) :
  relax transfer_penalty u d l v st (k, e) = Ret st' ->
  exists dv, distances st' !! v = Some (Finite dv) /\
    dv <= d + dijkstra_weight transfer_penalty u v e l.
Proof.
  intros (dv & Hdv & [[Hlt ->]|[Hlt ->]])%relax_Ret.
  - destruct dv as [|dv]; [discriminate|]. exists dv. split; [done|].
    cbn in Hlt. apply bool_decide_eq_false in Hlt. lia.
  - cbn. rewrite lookup_insert_eq. eexists. split; [done|lia].
Qed.

Lemma relax_labels (C : gset string) (u : string) (d : Z) (l : option string)
    (nbrs : adjacency) (v : string) (ed : edge_dict) (k : edge_key) (e : edge_attr)
    (st st' : search) :
  G !! u = Some nbrs -> (v, ed) ∈ nbrs -> (k, e) ∈ ed ->
  search_inv G source target C st -> search_tree source d st ->
  C ⊆ visited st -> u ∈ visited st ->
  distances st !! u = Some (Finite d) -> previous_lines st !! u = Some l ->
  search_labels transfer_penalty G source C st ->
  relax transfer_penalty u d l v st (k, e) = Ret st' ->
  search_labels transfer_penalty G source C st' /\
  distances st' !! u = Some (Finite d) /\ previous_lines st' !! u = Some l.
Proof.
  intros Hu Hv Hk Hinv Htree HC Huv Hdu Hlu Hlab (dv & Hdv & [[_ ->]|[Hlt ->]])%relax_Ret;
    [done|].
  destruct (wf_graph_neighbor G u v nbrs ed Hwf Hu Hv) as (Hvdom & Hed & Hnd).
  pose proof (dict_get_elem ed k e Hnd Hk) as He.
  assert (Hw : 0 <= weight e).
  { pose proof (Hnonneg u nbrs Hu) as Hall.
    eapply Forall_forall in Hall; [|exact Hv].
    eapply Forall_forall in Hall; [|exact Hk]. done. }
  pose proof (dijkstra_weight_nonneg transfer_penalty u v e l Hpenalty Hw) as Hdw.
  set (distance := d + dijkstra_weight transfer_penalty u v e l) in *.
  destruct Htree as [Hsorted Hbound Hpq Hvis (Hsrc & Hprev & Hb) _].
  assert (Hvv : v ∉ visited st).
  { intros Hin. destruct (Hvis v Hin) as (dv' & Hdv' & Hle).
    rewrite Hdv in Hdv'. injection Hdv' as ->. cbn in Hlt.
    apply bool_decide_eq_true in Hlt. lia. }
  assert (Hvs : v <> source).
  { intros ->. rewrite Hdv in Hsrc. injection Hsrc as ->. cbn in Hlt.
    apply bool_decide_eq_true in Hlt. lia. }
  assert (Hvu : v <> u) by (by intros ->).
  destruct Hlab as [Lsrc Lpq Lfresh Lchain Lclosed].
  split; [|by cbn; rewrite !lookup_insert_ne].
  split; unfold label_chain, label_closed;
    cbn [distances previous previous_lines previous_edge_keys visited pq].
  - by rewrite lookup_insert_ne.
  - intros d' x l' [Heq|Hin]%elem_of_heappush Hx.
    + injection Heq as -> -> ->. by rewrite lookup_insert_eq.
    + destruct (decide (v = x)) as [->|Hne].
      * rewrite lookup_insert_eq in Hx. injection Hx as <-.
        destruct (Hpq _ _ _ Hin) as (dx & Hdx & Hle).
        rewrite Hdv in Hdx. injection Hdx as ->. cbn in Hlt.
        apply bool_decide_eq_true in Hlt. lia.
      * rewrite lookup_insert_ne in Hx by done. rewrite lookup_insert_ne by done.
        by eapply Lpq.
  - intros x dx Hxv Hx. destruct (decide (v = x)) as [->|Hne].
    + rewrite lookup_insert_eq in Hx. injection Hx as <-.
      exists (Some (line e)). apply elem_of_heappush. by left.
    + rewrite lookup_insert_ne in Hx by done.
      destruct (Lfresh x dx Hxv Hx) as [l' Hl']. exists l'.
      apply elem_of_heappush. by right.
  - intros x y Hxy. destruct (decide (v = x)) as [->|Hne].
    + rewrite lookup_insert_eq in Hxy. injection Hxy as <-.
      exists d, l, k, nbrs, ed, e. rewrite !lookup_insert_eq.
      rewrite !lookup_insert_ne by done. done.
    + rewrite lookup_insert_ne in Hxy by done.
      destruct (inv_prev _ _ _ _ _ Hinv x y Hxy) as [Hyv _].
      assert (Hvy : v <> y) by (by intros ->).
      destruct (Lchain x y Hxy) as (du & lu & k' & nbrs' & ed' & e' & H1 & H2 & H3 & H4).
      exists du, lu, k', nbrs', ed', e'. by rewrite !lookup_insert_ne.
  - intros a nbrs' b ed' k' e' Ha Hn Hab Hk'.
    destruct (Lclosed a nbrs' b ed' k' e' Ha Hn Hab Hk')
      as (da & la & db & H1 & H2 & H3 & H4).
    assert (Hva : v <> a) by (intros ->; by apply Hvv, HC).
    exists da, la. rewrite !(lookup_insert_ne _ v a) by done.
    destruct (decide (v = b)) as [->|Hne].
    + exists distance. rewrite lookup_insert_eq. repeat (split; [done|]).
      rewrite Hdv in H3. injection H3 as ->. cbn in Hlt.
      apply bool_decide_eq_true in Hlt. lia.
    + exists db. by rewrite lookup_insert_ne.
Qed.

Lemma relax_neighbor_decreases (u : string) (d : Z) (l : option string)
    (st st' : search) (item : string * edge_dict) (x : string) (dx : Z) :
  relax_neighbor transfer_penalty u d l st item = Ret st' ->
  distances st !! x = Some (Finite dx) ->
  exists dx', distances st' !! x = Some (Finite dx') /\ dx' <= dx.
Proof.
  unfold relax_neighbor. intros H Hx.
  eapply (for_each_preserves
            (fun s => exists dx', distances s !! x = Some (Finite dx') /\ dx' <= dx));
    [|exists dx; split; [done|lia]|exact H].
  intros s ke s' (d1 & Hd1 & Hle1) _ Hr.
  destruct (relax_decreases _ _ _ _ _ _ _ x d1 Hr Hd1) as (d2 & Hd2 & Hle2).
  exists d2. split; [done|lia].
Qed.

Lemma relax_neighbor_reaches (u : string) (d : Z) (l : option string)
    (st st' : search) (v : string) (ed : edge_dict) (k : edge_key) (e : edge_attr) :
  relax_neighbor transfer_penalty u d l st (v, ed) = Ret st' -> (k, e) ∈ ed ->
  exists dv, distances st' !! v = Some (Finite dv) /\
    dv <= d + dijkstra_weight transfer_penalty u v e l.
Proof.
  unfold relax_neighbor. cbn [fst snd]. intros H Hk.
  refine (for_each_establish
            (fun (ke : edge_key * edge_attr) s =>
               exists dv, distances s !! v = Some (Finite dv) /\
                 dv <= d + dijkstra_weight transfer_penalty u v ke.2 l)
            _ ed _ _ st st' H (k, e) Hk).
  - intros s [k' e'] s' Hr. by eapply relax_reaches.
  - intros s x y s' (dv & Hdv & Hle) Hr.
    destruct (relax_decreases _ _ _ _ _ _ _ v dv Hr Hdv) as (d2 & Hd2 & Hle2).
    exists d2. split; [done|lia].
Qed.

Lemma popped_label (b : Z) (st : search) (d : Z) (u : string) (l : option string)
    (h : list entry) :
  search_inv G source target (visited st) st -> search_tree source b st ->
  search_labels transfer_penalty G source (visited st) st ->
  pq st = (d, u, l) :: h -> u ∉ visited st ->
  distances st !! u = Some (Finite d) /\ previous_lines st !! u = Some l /\
  forall z dz, z ∉ visited st -> distances st !! z = Some (Finite dz) -> d <= dz.
Proof.
  intros Hinv Htree Hlab Hq Hu.
  assert (Hin : (d, u, l) ∈ pq st) by (rewrite Hq; by left).
  destruct (tree_pq _ _ _ Htree d u l Hin) as (du & Hdu & Hle).
  pose proof (tree_sorted _ _ _ Htree) as Hsorted. rewrite Hq in Hsorted.
  apply StronglySorted_inv in Hsorted as [_ Hall]. rewrite Forall_forall in Hall.
  assert (Hmin : forall z dz, z ∉ visited st -> distances st !! z = Some (Finite dz) ->
                 d <= dz).
  { intros z dz Hz Hdz. destruct (lab_fresh _ _ _ _ _ Hlab z dz Hz Hdz) as [l' Hl'].
    rewrite Hq in Hl'. apply elem_of_cons in Hl' as [Heq|Hl'].
    - injection Heq as -> _ _. lia.
    - apply Hall in Hl'. done. }
  assert (Heq : du = d) by (pose proof (Hmin u du Hu Hdu); lia). subst du.
  split; [done|]. split; [|done]. by apply (lab_pq _ _ _ _ _ Hlab d u l).
Qed.

Lemma relax_all_labels (b : Z) (st st' : search) (d : Z) (u : string)
    (l : option string) (h : list entry) :
  search_inv G source target (visited st) st -> search_tree source b st ->
  search_labels transfer_penalty G source (visited st) st ->
  pq st = (d, u, l) :: h -> u ∉ visited st -> u <> target ->
  relax_all transfer_penalty G u d l (visit u (set_pq h st)) = Ret st' ->
  search_labels transfer_penalty G source (visited st') st'.
Proof.
  intros Hinv Htree Hlab Hq Hu Hut Hrun.
  destruct (popped_label b st d u l h Hinv Htree Hlab Hq Hu) as (Hdu & Hlu & _).
  assert (Hin : (d, u, l) ∈ pq st) by (rewrite Hq; by left).
  destruct (inv_pq _ _ _ _ _ Hinv d u l Hin) as [Hudom Hufin].
  pose proof (inv_reach _ _ _ _ _ Hinv u Hufin) as Hreach.
  unfold relax_all in Hrun. apply bind_Ret_inv in Hrun as (nbrs & Hn%getitem_Ret & Hrun).
  set (st0 := visit u (set_pq h st)) in *.
  assert (Hinv0 : search_inv G source target (visited st) st0).
  { destruct Hinv as [Hd Hp Hkd Hld Hsrc Hvis Hpq Hre Hfr Hcl Hprev Hfin Htgt].
    split; try done; cbn.
    - apply union_least; [|done]. by apply singleton_subseteq_l.
    - intros d' x l' Hx. apply (Hpq d' x l'). rewrite Hq. by right.
    - intros x Hx Hxt. destruct (Hfr x Hx Hxt) as [?|(d' & l' & Hx')].
      + left. apply elem_of_union. by right.
      + rewrite Hq in Hx'. apply elem_of_cons in Hx' as [Heq|Hx'].
        * injection Heq as -> -> ->. left. apply elem_of_union. left.
          by apply elem_of_singleton.
        * right. eauto.
    - intros x y Hx. destruct (Hprev x y Hx) as [? ?].
      split; [apply elem_of_union; by right|done].
    - intros [?%elem_of_singleton|?]%elem_of_union; [congruence|done]. }
  assert (Htree0 : search_tree source d st0) by by eapply visit_tree.
  assert (Hlab0 : search_labels transfer_penalty G source (visited st) st0).
  { destruct Hlab as [Lsrc Lpq Lfresh Lchain Lclosed]. split; cbn; try done.
    - intros d' x l' Hx. apply Lpq. rewrite Hq. by right.
    - intros x dx Hx Hdx.
      apply not_elem_of_union in Hx as [Hxu%not_elem_of_singleton Hx].
      destruct (Lfresh x dx Hx Hdx) as [l' Hl']. exists l'.
      rewrite Hq in Hl'. apply elem_of_cons in Hl' as [Heq|Hl']; [|done].
      by injection Heq as _ -> _. }
  pose (J := fun s : search =>
    search_inv G source target (visited st) s /\ search_tree source d s /\
    visited s = {[u]} ∪ visited st /\
    distances s !! u = Some (Finite d) /\ previous_lines s !! u = Some l /\
    search_labels transfer_penalty G source (visited st) s).
  assert (HJ : J st').
  { eapply (for_each_preserves J);
      [|exact (conj Hinv0 (conj Htree0 (conj eq_refl (conj Hdu (conj Hlu Hlab0)))))
       |exact Hrun].
    intros s [v ed] s' Hs Hv Hr. unfold relax_neighbor in Hr. cbn [fst snd] in Hr.
    eapply (for_each_preserves J); [|exact Hs|exact Hr].
    intros s1 [k e] s2 (Hi1 & Ht1 & Hv1 & Hd1 & Hl1 & Hb1) Hk Hr1.
    assert (Hu1 : u ∈ visited s1).
    { rewrite Hv1. apply elem_of_union. left. by apply elem_of_singleton. }
    assert (Hw : 0 <= weight e).
    { pose proof (Hnonneg u nbrs Hn) as Hall.
      eapply Forall_forall in Hall; [|exact Hv].
      eapply Forall_forall in Hall; [|exact Hk]. done. }
    destruct (relax_inv transfer_penalty G source target Hwf (visited st)
                u d l nbrs v ed k e s1 Hn Hv Hk Hu1 Hreach Hi1)
      as (s2' & Hr' & Hi2 & Hv2 & _).
    rewrite Hr1 in Hr'. injection Hr' as <-.
    destruct (relax_labels (visited st) u d l nbrs v ed k e s1 s2 Hn Hv Hk Hi1 Ht1)
      as (Hb2 & Hd2 & Hl2); try done.
    { rewrite Hv1. apply union_subseteq_r. }
    split; [done|].
    split; [exact (relax_tree transfer_penalty source Hpenalty u d l v k e s1 s2 Hw Ht1 Hr1)|].
    split; [congruence|]. done. }
  destruct HJ as (Hi' & Ht' & Hv' & Hd' & Hl' & Hb').
  destruct Hb' as [Lsrc Lpq Lfresh Lchain Lclosed]. split; try done.
  intros a nbrs' x ed k e Ha Hna Hx Hk. rewrite Hv' in Ha.
  apply elem_of_union in Ha as [->%elem_of_singleton|Ha]; [|by eapply Lclosed].
  rewrite Hn in Hna. injection Hna as <-.
  exists d, l.
  assert (Hreached : exists dv, distances st' !! x = Some (Finite dv) /\
                       dv <= d + dijkstra_weight transfer_penalty u x e l).
  { refine (for_each_establish
              (fun (item : string * edge_dict) s =>
                 forall k e, (k, e) ∈ item.2 ->
                 exists dv, distances s !! item.1 = Some (Finite dv) /\
                   dv <= d + dijkstra_weight transfer_penalty u item.1 e l)
              _ nbrs _ _ st0 st' Hrun (x, ed) Hx k e Hk).
    - intros s [v' ed'] s' Hr k' e' Hk'. by eapply relax_neighbor_reaches.
    - intros s item [v' ed'] s' Hy Hr k' e' Hk'. cbn [fst snd] in *.
      destruct (Hy k' e' Hk') as (dv & Hdv & Hle).
      destruct (relax_neighbor_decreases _ _ _ _ _ _ v' dv Hr Hdv) as (d2 & Hd2 & Hle2).
      exists d2. split; [done|lia]. }
  destruct Hreached as (dv & Hdv & Hle). exists dv. done.
Qed.

Lemma pop_labels (st : search) (d : Z) (u : string) (l : option string)
    (h : list entry) :
  search_labels transfer_penalty G source (visited st) st ->
  pq st = (d, u, l) :: h -> u ∈ visited st ->
  search_labels transfer_penalty G source (visited st) (set_pq h st).
Proof.
  intros [Lsrc Lpq Lfresh Lchain Lclosed] Hq Hu. split; cbn; try done.
  - intros d' x l' Hx. apply Lpq. rewrite Hq. by right.
  - intros x dx Hx Hdx. destruct (Lfresh x dx Hx Hdx) as [l' Hl']. exists l'.
    rewrite Hq in Hl'. apply elem_of_cons in Hl' as [Heq|Hl']; [|done].
    injection Heq as _ -> _. done.
Qed.

Lemma search_loop_labels (fuel : nat) :
  forall st st',
  search_inv G source target (visited st) st ->
  (exists b, search_tree source b st) ->
  search_labels transfer_penalty G source (visited st) st ->
  search_loop transfer_penalty fuel G target st = Ret st' ->
  final_labels transfer_penalty G source target st'.
Proof.
  induction fuel as [|fuel IH]; intros st st' Hinv [b Htree] Hlab H; [discriminate|].
  cbn [search_loop] in H.
  destruct (pq st) as [|[[d u] l] h] eqn:Hq; cbn [heappop] in H.
  - injection H as <-. destruct Hlab as [Lsrc Lpq Lfresh Lchain Lclosed].
    split; try done. intros dt z dz _ Hz Hdz.
    destruct (Lfresh z dz Hz Hdz) as [l' Hl']. rewrite Hq in Hl'.
    by apply elem_of_nil in Hl'.
  - destruct (decide (u = target)) as [->|Hut].
    + injection H as <-.
      destruct (popped_label b st d target l h Hinv Htree Hlab Hq
                  (inv_target _ _ _ _ _ Hinv)) as (Hdt & _ & Hmin).
      destruct Hlab as [Lsrc Lpq Lfresh Lchain Lclosed].
      split; cbn; try done. intros dt z dz Hdt' Hz Hdz.
      rewrite Hdt in Hdt'. injection Hdt' as <-. by eapply Hmin.
    + destruct (decide (u ∈ visited (set_pq h st))) as [Huv|Huv].
      * eapply IH; [| | |exact H].
        -- apply (pop_inv G source target (visited st) st d u l h); auto.
        -- exists b. exact (pop_tree source b st _ h Htree Hq).
        -- exact (pop_labels st d u l h Hlab Hq Huv).
      * destruct (relax_all_inv transfer_penalty G source target Hwf st d u l h
                    Hinv Hq Huv Hut) as (st1 & Hr & Hinv1 & _ & _).
        rewrite Hr in H. cbn [mbind outcome_bind] in H.
        eapply IH; [exact Hinv1| | |exact H].
        -- exists d.
           eapply (relax_all_tree transfer_penalty G source Hnonneg Hpenalty);
             [|exact Hr].
           by eapply visit_tree.
        -- exact (relax_all_labels b st st1 d u l h Hinv Htree Hlab Hq Huv Hut Hr).
Qed.

End Labels.

Lemma label_cost_snoc (p : Z) (es : list edge_attr) (e : edge_attr) :
  forall cur,
  label_cost p cur (es ++ [e])
  = label_cost p cur es
    + dijkstra_weight p "" "" e
        (match last es with Some e' => Some (line e') | None => cur end).
Proof.
  induction es as [|a es IH]; intros cur.
  - cbn. lia.
  - cbn [app label_cost]. rewrite IH.
    destruct es as [|a' es]; [cbn; lia|]. rewrite last_cons_cons.
    destruct (last (a' :: es)) eqn:E; [lia|]. by apply last_None in E.
Qed.

Lemma custom_fastest_path_Ret (p : Z) (G : MultiGraph) (source target : string)
    (stations : list string) (lines : gmap string (option string))
    (keys : list (option edge_key)) :
  custom_fastest_path p G source target = Ret (stations, lines, keys) ->
  exists st dt l ks,
    search_loop p (2 + total_degree G) G target (init_search G source) = Ret st /\
    distances st !! target = Some (Finite dt) /\
    walk_back (S (size (previous st))) (previous st) (previous_edge_keys st)
      (Some target) = Ret (l, ks) /\
    stations = rev l /\ lines = previous_lines st /\ keys = rev ks.
Proof.
  unfold custom_fastest_path. intros H.
  apply bind_Ret_inv in H as (st & Hloop & H).
  apply bind_Ret_inv in H as (dt & Hdt%getitem_Ret & H).
  destruct dt as [|dt]; [discriminate|].
  apply bind_Ret_inv in H as ([l ks] & Hw & H). injection H as <- <- <-.
  by exists st, dt, l, ks.
Qed.

Section FinalLabels.

Variable transfer_penalty : Z.
Variable G : MultiGraph.
Variables source target : string.
Variable st : search.
Hypothesis Hinv : search_inv G source target (visited st) st.
Hypothesis Hsrc : distances st !! source = Some (Finite 0).
Hypothesis Hfin : final_labels transfer_penalty G source target st.

(** The label of a station is the cost, as the search counts it, of the
    edges over which the reconstruction reaches it. *)
Lemma walk_back_label (fuel : nat) :
  forall (c : string) (dc : Z) (l : list string) (ks : list (option edge_key)),
  distances st !! c = Some (Finite dc) ->
  walk_back fuel (previous st) (previous_edge_keys st) (Some c) = Ret (l, ks) ->
  head l = Some c /\ length l = S (length ks) /\
  exists es, traversed G (rev l) (rev ks) = Some es /\
    dc = label_cost transfer_penalty None es /\
    previous_lines st !! c
    = Some (match last es with Some e' => Some (line e') | None => None end).
Proof.
  induction fuel as [|fuel IH]; intros c dc l ks Hdc H; [discriminate|].
  rewrite walk_back_fuel_S in H.
  apply bind_Ret_inv in H as (p & Hp%getitem_Ret & H). destruct p as [u|].
  - apply bind_Ret_inv in H as (k & Hk%getitem_Ret & H).
    apply bind_Ret_inv in H as ([l1 ks1] & Hw & H). injection H as <- <-.
    destruct (fin_chain _ _ _ _ _ Hfin c u Hp)
      as (du & lu & k' & nbrs & ed & e & Hdu & Hlu & Hk' & Hn & Hed & He & Hdc').
    rewrite Hk in Hk'. injection Hk' as ->.
    rewrite Hdc in Hdc'. injection Hdc' as ->.
    destruct (IH u du l1 ks1 Hdu Hw) as (Hhead & Hlen & es & Hes & Hcost & Hline).
    cbn [fst snd]. split; [done|]. split; [cbn; lia|].
    destruct l1 as [|u' l1']; [discriminate|]. injection Hhead as ->.
    exists (es ++ [e]). split; [|split].
    + cbn [rev] in *. apply traversed_snoc with (nbrs := nbrs) (ed := ed); try done.
      rewrite !length_rev. cbn in Hlen. lia.
    + rewrite label_cost_snoc, <- Hcost.
      rewrite Hlu in Hline. injection Hline as ->. done.
    + rewrite last_snoc.
      destruct (inv_prev _ _ _ _ _ Hinv c u Hp)
        as (_ & k2 & nbrs2 & ed2 & e2 & Hk2 & Hn2 & Hed2 & He2 & Hl2).
      rewrite Hk in Hk2. injection Hk2 as <-.
      rewrite Hn in Hn2. injection Hn2 as <-.
      rewrite Hed in Hed2. injection Hed2 as <-.
      rewrite He in He2. injection He2 as <-. done.
  - injection H as <- <-. split; [done|]. split; [done|].
    assert (c = source) as ->.
    { destruct (decide (c = source)) as [|Hne]; [done|].
      destruct (inv_fin_prev _ _ _ _ _ Hinv c) as [u Hu]; [by exists dc|done|].
      congruence. }
    exists []. split; [done|]. split.
    + rewrite Hsrc in Hdc. by injection Hdc as <-.
    + apply (fin_source _ _ _ _ _ Hfin).
Qed.

Variable ub : edge_attr -> Z.
Hypothesis Hub0 : edges_all (fun _ _ e => 0 <= ub e) G.
Hypothesis Hub : forall u nbrs v ed k e lu,
  u ∈ visited st -> G !! u = Some nbrs -> (v, ed) ∈ nbrs -> (k, e) ∈ ed ->
  previous_lines st !! u = Some lu ->
  dijkstra_weight transfer_penalty u v e lu <= ub e.

(** Along a walk the labels stay within the cost of the walk. *)
Lemma walk_within (stations : list string) :
  forall (keys : list (option edge_key)) (es : list edge_attr) (a : string) (c : Z),
  traversed G stations keys = Some es -> head stations = Some a ->
  label_within st a c ->
  exists b, last stations = Some b /\ label_within st b (c + sum_Z (ub <$> es)).
Proof.
  induction stations as [|u [|v rest] IH]; intros keys es a c Ht Hhead Ha; [done| |].
  - injection Hhead as ->. cbn in Ht. destruct keys; injection Ht as <-.
    + exists a. split; [done|]. cbn. by rewrite Z.add_0_r.
    + exists a. split; [done|]. cbn. by rewrite Z.add_0_r.
  - injection Hhead as ->.
    apply traversed_cons_inv in Ht
      as (k & keys' & nbrs & ed & e & es' & -> & Hn & Hed & He & Hes' & ->).
    pose proof (dict_get_Some_elem _ _ _ Hed) as Hv.
    pose proof (dict_get_Some_elem _ _ _ He) as Hk.
    pose proof (Hub0 a nbrs v ed k e Hn Hv Hk) as H0. cbn beta in H0.
    assert (Hstep : label_within st v (c + ub e)).
    { destruct Ha as [(da & Hda & Hle)|(z & dz & Hz & Hdz & Hle)].
      - destruct (decide (a ∈ visited st)) as [Hvis|Hvis].
        + destruct (fin_closed _ _ _ _ _ Hfin a nbrs v ed k e Hvis Hn Hv Hk)
            as (da' & la & dv & Hda' & Hla & Hdv & Hle').
          rewrite Hda in Hda'. injection Hda' as <-.
          pose proof (Hub a nbrs v ed k e la Hvis Hn Hv Hk Hla).
          left. exists dv. split; [done|lia].
        + right. exists a, da. split; [done|]. split; [done|lia].
      - right. exists z, dz. split; [done|]. split; [done|lia]. }
    destruct (IH keys' es' v (c + ub e) Hes' eq_refl Hstep) as (b & Hlast & Hb).
    exists b. split; [done|].
    rewrite fmap_cons.
    change (sum_Z (ub e :: (ub <$> es'))) with (ub e + sum_Z (ub <$> es')).
    by rewrite Z.add_assoc.
Qed.

Lemma target_within (dt c : Z) :
  distances st !! target = Some (Finite dt) -> label_within st target c -> dt <= c.
Proof.
  intros Hdt [(dt' & Hdt' & Hle)|(z & dz & Hz & Hdz & Hle)].
  - rewrite Hdt in Hdt'. injection Hdt' as <-. done.
  - pose proof (fin_least _ _ _ _ _ Hfin dt z dz Hdt Hz Hdz). lia.
Qed.

End FinalLabels.

Lemma traversed_edges_all (Q : edge_attr -> Prop) (G : MultiGraph)
    (stations : list string) :
  edges_all (fun _ _ e => Q e) G ->
  forall keys es, traversed G stations keys = Some es -> Forall Q es.
Proof.
  intros HQ. induction stations as [|u [|v rest] IH]; intros keys es H.
  - injection H as <-. constructor.
  - cbn in H. destruct keys; injection H as <-; constructor.
  - apply traversed_cons_inv in H
      as (k & keys' & nbrs & ed & e & es' & -> & Hn & Hed & He & Hes' & ->).
    apply Forall_cons. split; [|by eapply IH].
    apply (HQ u nbrs v ed k e Hn); by apply dict_get_Some_elem.
Qed.

Lemma traversed_length (G : MultiGraph) (stations : list string) :
  forall keys es, traversed G stations keys = Some es ->
  (length es <= length stations)%nat.
Proof.
  induction stations as [|u [|v rest] IH]; intros keys es H.
  - injection H as <-. cbn. lia.
  - cbn in H. destruct keys; injection H as <-; cbn; lia.
  - apply traversed_cons_inv in H
      as (k & keys' & nbrs & ed & e & es' & -> & Hn & Hed & He & Hes' & ->).
    apply IH in Hes'. cbn in *. lia.
Qed.

Lemma dijkstra_weight_same_line (p : Z) (u v : string) (e : edge_attr)
    (cur : option string) :
  cur = None \/ cur = Some (line e) ->
  dijkstra_weight p u v e cur = weight e.
Proof.
  intros [->| ->]; unfold dijkstra_weight; cbn [truthy andb]; [lia|].
  rewrite (bool_decide_eq_false_2 (Some (line e) ≠ Some (line e))) by auto.
  rewrite andb_false_r. lia.
Qed.

Lemma label_cost_single_line (p : Z) (L : string) (es : list edge_attr) :
  Forall (fun e => line e = L) es ->
  forall cur, cur = None \/ cur = Some L ->
  label_cost p cur es = sum_Z (weight <$> es).
Proof.
  induction 1 as [|e es He _ IH]; intros cur Hcur; [done|].
  cbn [label_cost]. rewrite fmap_cons.
  change (sum_Z (weight e :: (weight <$> es))) with (weight e + sum_Z (weight <$> es)).
  rewrite IH by (right; by rewrite He).
  rewrite dijkstra_weight_same_line; [done|]. rewrite He. done.
Qed.

Lemma changes_from_single_line (L : string) (es : list edge_attr) :
  Forall (fun e => line e = L) es ->
  forall cur stations, cur = None \/ cur = Some L ->
  changes_from cur stations es = [].
Proof.
  induction 1 as [|e es He _ IH]; intros cur stations Hcur; [by destruct stations|].
  destruct stations as [|u rest]; [done|]. cbn [changes_from].
  rewrite IH by (right; by rewrite He). rewrite app_nil_r.
  destruct Hcur as [->| ->]; [by destruct (decide _)|].
  rewrite decide_False; [done|]. rewrite He. auto.
Qed.

Lemma label_cost_changes (p : Z) (es : list edge_attr) :
  Forall (fun e => line e <> "") es ->
  forall cur stations,
  cur = None \/ (exists c, cur = Some c /\ c <> "") ->
  (length es <= length stations)%nat ->
  label_cost p cur es
  = sum_Z (weight <$> es)
    + (p + 10) * Z.of_nat (length (changes_from cur stations es)).
Proof.
  induction 1 as [|e es He _ IH]; intros cur stations Hcur Hlen.
  - destruct stations; cbn; lia.
  - destruct stations as [|u rest]; [cbn in Hlen; lia|]. cbn [length] in Hlen.
    cbn [label_cost changes_from]. rewrite fmap_cons.
    change (sum_Z (weight e :: (weight <$> es))) with (weight e + sum_Z (weight <$> es)).
    rewrite (IH (Some (line e)) rest) by (eauto || lia).
    rewrite length_app. unfold dijkstra_weight.
    destruct Hcur as [->|(c & -> & Hc)].
    + rewrite decide_True by done. cbn [truthy andb length]. lia.
    + cbn [truthy]. rewrite (bool_decide_eq_true_2 (c <> "")) by done.
      cbn [andb]. destruct (decide (Some (line e) ≠ Some c)) as [Hne|Heq].
      * rewrite bool_decide_eq_true_2 by done. cbn [length]. lia.
      * rewrite bool_decide_eq_false_2 by done. cbn [length]. lia.
Qed.

(** The state in which the search ends on a network without negative
    costs. *)
Lemma search_final (p : Z) (G : MultiGraph) (source target : string) :
  wf_graph G -> nonneg_weights G -> 0 <= p -> source ∈ dom G ->
  exists st,
    search_loop p (2 + total_degree G) G target (init_search G source) = Ret st /\
    search_inv G source target (visited st) st /\
    (exists b, search_tree source b st) /\
    final_labels p G source target st.
Proof.
  intros Hwf Hnn Hp Hs.
  destruct (search_from_init p G Hwf source target Hs) as (st & Hloop & Hinv & _).
  exists st. split; [done|]. split; [done|]. split.
  - eapply (search_loop_tree p G source target Hwf Hnn Hp); [| |exact Hloop].
    + by apply init_search_inv.
    + exists 0. by apply init_search_tree.
  - eapply (search_loop_labels p G source target Hwf Hnn Hp); [| | |exact Hloop].
    + by apply init_search_inv.
    + exists 0. by apply init_search_tree.
    + exact (init_search_labels p G source Hs).
Qed.

(** The label of the destination of a returned route, and what the
    summary makes of the same edges. *)
Lemma route_label (G : MultiGraph) (origin destination : string) (p : Z) (r : route) :
  wf_graph G -> nonneg_weights G -> 0 <= p ->
  find_fastest_route G origin destination p = Ret (Some r) ->
  exists st dt keys es,
    search_loop p (2 + total_degree G) G destination (init_search G origin) = Ret st /\
    search_inv G origin destination (visited st) st /\
    (exists b, search_tree origin b st) /\
    final_labels p G origin destination st /\
    distances st !! destination = Some (Finite dt) /\
    traversed G (path r) keys = Some es /\
    dt = label_cost p None es /\
    transfers r = changes_from None (path r) es /\
    num_transfers r = length (transfers r) /\
    total_time r = sum_Z (weight <$> es) + Z.of_nat (num_transfers r) * p.
Proof.
  intros Hwf Hnn Hp H.
  destruct (find_fastest_route_returned G origin destination p r Hwf Hnn Hp H)
    as (lines & keys & es & s & Hc & Hs & Hr & Ho & _ & _ & _ & _ & _ & Hes & Hagree).
  destruct (custom_fastest_path_Ret _ _ _ _ _ _ _ Hc)
    as (st & dt & l & ks & Hloop & Hdt & Hw & Hpath & _ & Hkeys).
  destruct (search_final p G origin destination Hwf Hnn Hp Ho)
    as (st' & Hloop' & Hinv & Htree & Hfin).
  rewrite Hloop in Hloop'. injection Hloop' as <-.
  assert (Hsrc : distances st !! origin = Some (Finite 0)).
  { destruct Htree as [b Htree]. apply (tree_source _ _ _ Htree). }
  destruct (walk_back_label p G origin destination st Hinv Hsrc Hfin _ destination dt
              l ks Hdt Hw) as (_ & _ & es' & Hes' & Hcost & _).
  rewrite <- Hpath, <- Hkeys, Hes in Hes'. injection Hes' as <-.
  exists st, dt, keys, es. repeat (split; [done|]).
  destruct (summarize_lines G p lines (path r) keys es init_summary s Hes Hagree Hs)
    as [Htr _].
  destruct (summarize_time G p lines (path r) keys init_summary s Hs)
    as (es2 & Hes2 & Htime).
  rewrite Hes in Hes2. injection Hes2 as <-.
  rewrite Hr. cbn [transfers total_time num_transfers make_route path].
  split; [by rewrite Htr|]. split; [done|]. cbn in Htime. lia.
Qed.

Lemma edges_all_Forall (P : string -> string -> edge_attr -> Prop) (G : MultiGraph) :
  map_Forall (fun a (nbrs : adjacency) =>
    Forall (fun item : string * edge_dict =>
      Forall (fun ke : edge_key * edge_attr => P a item.1 ke.2) item.2) nbrs) G <->
  edges_all P G.
Proof.
  rewrite map_Forall_lookup. split.
  - intros H a nbrs b ed k x Ha Hb Hk. specialize (H a nbrs Ha).
    rewrite Forall_forall in H. specialize (H (b, ed) Hb).
    rewrite Forall_forall in H. exact (H (k, x) Hk).
  - intros H a nbrs Ha. apply Forall_forall. intros [b ed] Hb.
    apply Forall_forall. intros [k x] Hk. by eapply H.
Qed.

(** X21: on a network without negative costs whose lines all have a name
    that is not empty, the label of the destination at the end of the
    search is the reported total time plus the bias of 10 for each
    transfer: what the search minimises differs from what is reported by
    exactly that bias. *)
Theorem label_is_total_time_plus_bias (G : MultiGraph) (origin destination : string)
    (transfer_penalty : Z) (r : route) :
  wf_graph G -> nonneg_weights G -> 0 <= transfer_penalty ->
  edges_all (fun _ _ e => line e <> "") G ->
  find_fastest_route G origin destination transfer_penalty = Ret (Some r) ->
  exists st,
    search_loop transfer_penalty (2 + total_degree G) G destination
      (init_search G origin) = Ret st /\
    distances st !! destination
    = Some (Finite (total_time r + 10 * Z.of_nat (num_transfers r))).
Proof.
  intros Hwf Hnn Hp Hlines H.
  destruct (route_label G origin destination transfer_penalty r Hwf Hnn Hp H)
    as (st & dt & keys & es & Hloop & _ & _ & _ & Hdt & Hes & Hcost & Htr & Hnum & Htime).
  exists st. split; [done|]. rewrite Hdt. do 2 f_equal.
  rewrite Hcost, Htime, Hnum, Htr.
  rewrite (label_cost_changes transfer_penalty es) with (stations := path r).
  - lia.
  - by eapply traversed_edges_all.
  - by left.
  - by eapply traversed_length.
Qed.

Lemma label_is_total_time_plus_bias_witness :
  exists r, find_fastest_route two_lines "A" "E" 50 = Ret (Some r) /\
    total_time r = 450 /\ num_transfers r = 1%nat /\
    exists st,
      search_loop 50 (2 + total_degree two_lines) two_lines "E"
        (init_search two_lines "A") = Ret st /\
      distances st !! "E"
      = Some (Finite (total_time r + 10 * Z.of_nat (num_transfers r))).
Proof.
  eexists. split; [vm_compute; reflexivity|]. split; [reflexivity|].
  split; [reflexivity|].
  apply (label_is_total_time_plus_bias two_lines "A" "E" 50).
  - compute_done.
  - compute_done.
  - lia.
  - apply edges_all_Forall. compute_done.
  - vm_compute. reflexivity.
Defined.

Lemma single_line_weight (p : Z) (G : MultiGraph) (L : string)
    (source target : string) (st : search) :
  edges_all (fun _ _ e => line e = L) G ->
  search_inv G source target (visited st) st ->
  (exists b, search_tree source b st) ->
  final_labels p G source target st ->
  forall u nbrs v ed k e lu,
    u ∈ visited st -> G !! u = Some nbrs -> (v, ed) ∈ nbrs -> (k, e) ∈ ed ->
    previous_lines st !! u = Some lu ->
    dijkstra_weight p u v e lu <= weight e.
Proof.
  intros HL Hinv [b Htree] Hfin u nbrs v ed k e lu Hu Hn Hv Hk Hlu.
  rewrite dijkstra_weight_same_line; [lia|].
  rewrite (HL u nbrs v ed k e Hn Hv Hk).
  destruct (decide (u = source)) as [->|Hne].
  - left. rewrite (fin_source _ _ _ _ _ Hfin) in Hlu. by injection Hlu as <-.
  - right. destruct (tree_visited _ _ _ Htree u Hu) as (du & Hdu & _).
    destruct (inv_fin_prev _ _ _ _ _ Hinv u) as [u' Hu']; [by exists du|done|].
    destruct (inv_prev _ _ _ _ _ Hinv u u' Hu')
      as (_ & k' & nbrs' & ed' & e' & _ & Hn' & Hed' & He' & Hl').
    rewrite Hlu in Hl'. injection Hl' as ->. f_equal.
    apply (HL u' nbrs' u ed' k' e' Hn'); by apply dict_get_Some_elem.
Qed.

(** X22: on a network with a single line and without negative costs, the
    route that is returned has no transfer and is a cheapest one: its
    total time is at most the sum of the weights along any walk from the
    origin to the destination, whatever edges the walk takes. *)
Theorem single_line_route_is_cheapest (G : MultiGraph) (L : string)
    (origin destination : string) (transfer_penalty : Z) (r : route) :
  wf_graph G -> nonneg_weights G -> 0 <= transfer_penalty ->
  edges_all (fun _ _ e => line e = L) G ->
  find_fastest_route G origin destination transfer_penalty = Ret (Some r) ->
  transfers r = [] /\
  forall stations keys es,
    head stations = Some origin -> last stations = Some destination ->
    traversed G stations keys = Some es ->
    total_time r <= sum_Z (weight <$> es).
Proof.
  intros Hwf Hnn Hp HL H.
  destruct (route_label G origin destination transfer_penalty r Hwf Hnn Hp H)
    as (st & dt & keys & es & Hloop & Hinv & Htree & Hfin & Hdt & Hes & Hcost & Htr
        & Hnum & Htime).
  assert (Hall : Forall (fun e => line e = L) es) by by eapply traversed_edges_all.
  assert (Hno : transfers r = []).
  { rewrite Htr. apply (changes_from_single_line L); [done|by left]. }
  split; [done|]. intros stations keys' es' Hhead Hlast Hes'.
  rewrite Hno in Hnum. cbn in Hnum. rewrite Hnum in Htime. cbn in Htime.
  rewrite (label_cost_single_line transfer_penalty L es Hall None) in Hcost by by left.
  assert (Hsrc : distances st !! origin = Some (Finite 0)).
  { destruct Htree as [b Htree]. apply (tree_source _ _ _ Htree). }
  destruct (walk_within transfer_penalty G origin destination st Hfin weight
              (proj1 (edges_all_Forall _ G) Hnn)
              (single_line_weight transfer_penalty G L origin destination st
                 HL Hinv Htree Hfin)
              stations keys' es' origin 0 Hes' Hhead) as (b & Hb & Hwithin).
  { left. exists 0. split; [done|lia]. }
  rewrite Hlast in Hb. injection Hb as <-.
  pose proof (target_within transfer_penalty G origin destination st Hfin dt _
                Hdt Hwithin). lia.
Qed.

Lemma single_line_route_is_cheapest_witness :
  exists r, find_fastest_route one_line_network "A" "C" 900 = Ret (Some r) /\
    total_time r = 10 /\
    transfers r = [] /\
    forall stations keys es,
      head stations = Some "A" -> last stations = Some "C" ->
      traversed one_line_network stations keys = Some es ->
      total_time r <= sum_Z (weight <$> es).
Proof.
  eexists. split; [vm_compute; reflexivity|]. split; [reflexivity|].
  apply (single_line_route_is_cheapest one_line_network "Line 1" "A" "C" 900).
  - compute_done.
  - compute_done.
  - lia.
  - apply edges_all_Forall. compute_done.
  - vm_compute. reflexivity.
Defined.

(** ** Routes on the network built from the tables *)

Lemma hops_consecutive (l : list string) (u v : string) :
  (u, v) ∈ hops l -> consecutive u v l.
Proof.
  unfold hops. induction l as [|x [|y rest] IH]; cbn [tail zip zip_with].
  - intros H. by apply elem_of_nil in H.
  - intros H. by apply elem_of_nil in H.
  - intros [Heq|Hin]%elem_of_cons.
    + injection Heq as -> ->. by exists [], rest.
    + destruct (IH Hin) as (l1 & l2 & Hl). exists (x :: l1), l2. by rewrite Hl.
Qed.

Lemma line_stops_connected (stations_df : list station_row) (tt : list tt_row)
    (line_id a b : string) :
  a ∈ line_stops stations_df line_id -> b ∈ line_stops stations_df line_id ->
  reachable (create_network stations_df tt) a b.
Proof.
  intros Ha Hb. pose proof (create_network_nx stations_df tt) as Hnx.
  assert (Hhops : Forall (fun h => edge (create_network stations_df tt) h.1 h.2)
                    (hops (line_stops stations_df line_id))).
  { apply Forall_forall. intros [u v] Huv%hops_consecutive. cbn [fst snd].
    destruct (create_network_has_edge stations_df tt line_id u v Huv) as [H _].
    by eapply has_edge_edge. }
  destruct (line_stops stations_df line_id) as [|first rest] eqn:E;
    [by apply elem_of_nil in Ha|].
  eapply reachable_trans.
  - apply reachable_sym; [intros x y; by apply nx_edge_sym|].
    by apply (hops_reachable _ (first :: rest) first).
  - by apply (hops_reachable _ (first :: rest) first).
Qed.

(** X23: on the network built from the tables, when no duration of the
    travel-time table is negative, a query between two stops of one line
    returns a route. *)
Theorem same_line_stops_are_routed (stations_df : list station_row)
    (tt_dist_matrix : list tt_row) (line_id a b : string) :
  Forall (fun row => 0 <= duration_seconds row) tt_dist_matrix ->
  a ∈ line_stops stations_df line_id -> b ∈ line_stops stations_df line_id ->
  exists r,
    find_fastest_route (create_network stations_df tt_dist_matrix) a b 900
    = Ret (Some r).
Proof.
  intros Hall Ha Hb.
  pose proof (create_network_nx stations_df tt_dist_matrix) as Hnx.
  destruct (find_fastest_route_walk (create_network stations_df tt_dist_matrix) a b 900)
    as (stations & lines & keys & es & s & _ & _ & Hf & _).
  - apply (nx_wf _ Hnx).
  - apply edges_all_nonneg. intros x nbrs y ed k e Hx Hy Hk.
    destruct (create_network_edges_all stations_df tt_dist_matrix x nbrs y ed k e
                Hx Hy Hk) as (u & v & _ & _ & ->).
    by apply duration_of_nonneg.
  - lia.
  - apply create_network_dom. by eapply line_stops_elem.
  - apply create_network_dom. by eapply line_stops_elem.
  - by eapply line_stops_connected.
  - eauto.
Qed.

Lemma same_line_stops_are_routed_witness :
  Forall (fun row => 0 <= duration_seconds row) example_tt /\
  "C" ∈ line_stops example_stations "L1" /\ "A" ∈ line_stops example_stations "L1" /\
  exists r,
    find_fastest_route (create_network example_stations example_tt) "C" "A" 900
    = Ret (Some r).
Proof.
  assert (H : Forall (fun row => 0 <= duration_seconds row) example_tt).
  { apply Forall_singleton. cbn. lia. }
  assert (Hc : "C" ∈ line_stops example_stations "L1") by compute_done.
  assert (Ha : "A" ∈ line_stops example_stations "L1") by compute_done.
  repeat (split; [done|]).
  exact (same_line_stops_are_routed example_stations example_tt "L1" "C" "A" H Hc Ha).
Defined.

(** X24: the direction stored on an edge of the network is the label that
    [get_directions] gives the hop between its two ends in one of the two
    orders of travel: the order in which the stops follow each other on
    the line of the edge. *)
Theorem edge_direction_is_a_hop_label (stations_df : list station_row)
    (tt_dist_matrix : list tt_row) (a b : string) (x : edge_attr) :
  has_edge (create_network stations_df tt_dist_matrix) a b x ->
  (consecutive a b (line_stops stations_df (line x)) /\
   get_directions tt_dist_matrix [a; b] = [direction x]) \/
  (consecutive b a (line_stops stations_df (line x)) /\
   get_directions tt_dist_matrix [b; a] = [direction x]).
Proof.
  intros (nbrs & ed & k & Ha & Hb & Hk)%has_edge_elem.
  destruct (create_network_edges_all stations_df tt_dist_matrix a nbrs b ed k x
              Ha Hb Hk) as (u & v & Hor & Hc & Hx).
  destruct Hor as [[-> ->]|[-> ->]]; [left|right]; (split; [done|]);
    cbn [get_directions]; by rewrite Hx.
Qed.

Lemma edge_direction_is_a_hop_label_witness :
  has_edge (create_network example_stations example_tt) "B" "A"
           (mk_edge "L1" 120 "Inbound") /\
  get_directions example_tt ["B"; "A"] = ["NotFound"] /\
  ((consecutive "B" "A" (line_stops example_stations "L1") /\
    get_directions example_tt ["B"; "A"] = ["Inbound"]) \/
   (consecutive "A" "B" (line_stops example_stations "L1") /\
    get_directions example_tt ["A"; "B"] = ["Inbound"])).
Proof.
  assert (H : has_edge (create_network example_stations example_tt) "B" "A"
                       (mk_edge "L1" 120 "Inbound")).
  { exists 0%nat. vm_compute. by left. }
  split; [exact H|]. split; [reflexivity|].
  exact (edge_direction_is_a_hop_label example_stations example_tt "B" "A"
           (mk_edge "L1" 120 "Inbound") H).
Defined.
